(** * Retrieval pipeline of the PDF question-answering server

    A shallow embedding of
      - [backend/utils/chunker.js]     ([splitIntoChunksWithMetadata]),
      - [backend/utils/embeddings.js]  ([generateEmbeddings], [cosineSimilarity]),
      - [backend/server.js]            (the [/api/ask] and delete routes),
      - [backend/utils/vectorStore-v5.js] (the in-memory [VectorStore] class),
    together with the properties of the retrieval pipeline.

    JavaScript strings are sequences of UTF-16 code units, JavaScript
    integers (lengths, offsets, counters) are modelled in [Z], and the
    numbers of embedding vectors are IEEE 754 binary64 values, for which the
    kernel's primitive floats are used. *)

From Stdlib Require Import ZArith List Lia Bool Floats Reals Lra Sorted.
From stdpp Require Import base list gmap strings pretty.
From Equations Require Import Equations.

Local Open Scope Z_scope.

(** ** JavaScript strings *)

Module JsString.

(** A string is the sequence of its UTF-16 code units. *)
Definition codeunit := N.
Definition t := list codeunit.

(** [s.length] *)
Definition length (s : t) : Z := Z.of_nat (List.length s).

Definition nl : codeunit := 10%N.
Definition is_nl (c : codeunit) : bool := N.eqb c nl.

(** WhiteSpace and LineTerminator code points of ECMAScript, the
    characters [String.prototype.trim] strips. *)
Definition is_white_space (c : codeunit) : bool :=
  ((9 <=? c) && (c <=? 13) || (c =? 32) || (c =? 160) || (c =? 5760)
   || (8192 <=? c) && (c <=? 8202) || (c =? 8232) || (c =? 8233)
   || (c =? 8239) || (c =? 8287) || (c =? 12288) || (c =? 65279))%N.

Fixpoint trimStart (s : t) : t :=
  match s with
  | c :: s' => if is_white_space c then trimStart s' else s
  | [] => []
  end.

Definition trimEnd (s : t) : t := rev (trimStart (rev s)).

(** [s.trim()] *)
Definition trim (s : t) : t := trimEnd (trimStart s).

Fixpoint starts_with (pat s : t) : bool :=
  match pat, s with
  | [], _ => true
  | _ :: _, [] => false
  | p :: pat', c :: s' => N.eqb p c && starts_with pat' s'
  end.

Fixpoint indexOf_from (i : Z) (s pat : t) : Z :=
  if starts_with pat s then i
  else match s with
       | [] => -1
       | _ :: s' => indexOf_from (i + 1) s' pat
       end.

(** [s.indexOf(pat)]: the first position at which [pat] occurs, [-1]
    when there is none. *)
Definition indexOf (s pat : t) : Z := indexOf_from 0 s pat.

(** [s.slice(start)]: a negative [start] counts from the end of the
    string, and both ends are clamped to the string. *)
Definition slice_from (s : t) (start : Z) : t :=
  let from := if start <? 0 then Z.max (length s + start) 0
              else Z.min start (length s) in
  drop (Z.to_nat from) s.

(** [s.split(/\n\n+/)]: the separators are the maximal runs of two or
    more line feeds. [insep] holds while such a run is being consumed and
    [cur] is the piece collected since the last separator. *)
Fixpoint split_blank_lines (insep : bool) (cur : t) (s : t) : list t :=
  match s with
  | [] => [cur]
  | c :: s' =>
      if insep && is_nl c then split_blank_lines true cur s'
      else match s' with
           | c' :: s'' =>
               if is_nl c && is_nl c'
               then cur :: split_blank_lines true [] s''
               else split_blank_lines false (cur ++ [c]) s'
           | [] => [cur ++ [c]]
           end
  end.

Definition split (s : t) : list t := split_blank_lines false [] s.

(** The separator ['\n\n'] the chunker puts between paragraphs. *)
Definition blank_line : t := [nl; nl].

End JsString.

Abbreviation jsstring := JsString.t.

(** ** The chunker: [backend/utils/chunker.js] *)

Module Page.
Record t := mk
  { pageNumber : Z; text : jsstring; startChar : Z; endChar : Z }.
End Page.

(** [paragraphRange] is either a paragraph number or the template string
    [`${first}-${last}`]. *)
Inductive paragraphRange :=
| ParagraphSingle (n : Z)
| ParagraphSpan (first last : Z).

Module Metadata.
Record t := mk
  { page : Z;
    paragraphNumber : Z;
    paragraphRange : paragraphRange;
    startChar : Z;
    endChar : Z;
    chunkLength : Z }.
End Metadata.

Module Chunk.
Record t := mk
  { text : jsstring; chunkIndex : Z; metadata : Metadata.t }.
End Chunk.

Module Chunker.

(** The variables of [splitIntoChunksWithMetadata] that change while one
    page is processed; [allChunks] and [globalChunkIndex] live across
    pages. *)
Record state := mkState
  { currentChunk : jsstring;
    chunkStartChar : Z;
    paragraphNumber : Z;
    chunkStartParagraph : Z;
    allChunks : list Chunk.t;
    globalChunkIndex : Z }.

(** The object pushed on [allChunks]; [lastParagraph] is
    [paragraphNumber - 1] inside the loop and [paragraphNumber] at the
    end of the page. *)
Definition make_chunk (pageNumber : Z) (st : state) (lastParagraph : Z)
  : Chunk.t :=
  {| Chunk.text := JsString.trim (currentChunk st);
     Chunk.chunkIndex := globalChunkIndex st;
     Chunk.metadata :=
       {| Metadata.page := pageNumber;
          Metadata.paragraphNumber := chunkStartParagraph st;
          Metadata.paragraphRange :=
            if chunkStartParagraph st =? lastParagraph
            then ParagraphSingle (chunkStartParagraph st)
            else ParagraphSpan (chunkStartParagraph st) lastParagraph;
          Metadata.startChar := chunkStartChar st;
          Metadata.endChar :=
            chunkStartChar st + JsString.length (currentChunk st);
          Metadata.chunkLength := JsString.length (currentChunk st) |} |}.

(** [if (currentChunk.trim().length > 0) allChunks.push({...})] with
    [chunkIndex: globalChunkIndex++]. *)
Definition save_chunk (pageNumber : Z) (lastParagraph : Z) (st : state)
  : state :=
  if 0 <? JsString.length (JsString.trim (currentChunk st))
  then {| currentChunk := currentChunk st;
          chunkStartChar := chunkStartChar st;
          paragraphNumber := paragraphNumber st;
          chunkStartParagraph := chunkStartParagraph st;
          allChunks := allChunks st ++ [make_chunk pageNumber st lastParagraph];
          globalChunkIndex := globalChunkIndex st + 1 |}
  else st.

Section Params.
Variables (chunkSize overlap : Z).

(** One iteration of the loop over the paragraphs of a page. *)
Definition step (pg : Page.t) (st0 : state) (paragraph : jsstring)
  : state :=
  let pn := paragraphNumber st0 + 1 in
  if chunkSize <? JsString.length (currentChunk st0) + JsString.length paragraph
  then
    let st := save_chunk (Page.pageNumber pg) (pn - 1)
                {| currentChunk := currentChunk st0;
                   chunkStartChar := chunkStartChar st0;
                   paragraphNumber := pn;
                   chunkStartParagraph := chunkStartParagraph st0;
                   allChunks := allChunks st0;
                   globalChunkIndex := globalChunkIndex st0 |} in
    if overlap <? JsString.length (currentChunk st)
    then
      let overlapText := JsString.slice_from (currentChunk st) (- overlap) in
      let newChunk := overlapText ++ JsString.blank_line ++ paragraph in
      {| currentChunk := newChunk;
         chunkStartChar :=
           chunkStartChar st + JsString.length newChunk - overlap
           - JsString.length paragraph;
         paragraphNumber := pn;
         chunkStartParagraph := pn;
         allChunks := allChunks st;
         globalChunkIndex := globalChunkIndex st |}
    else
      {| currentChunk := paragraph;
         chunkStartChar :=
           Page.startChar pg + JsString.indexOf (Page.text pg) paragraph;
         paragraphNumber := pn;
         chunkStartParagraph := pn;
         allChunks := allChunks st;
         globalChunkIndex := globalChunkIndex st |}
  else if 0 <? JsString.length (currentChunk st0)
  then
    {| currentChunk := currentChunk st0 ++ JsString.blank_line ++ paragraph;
       chunkStartChar := chunkStartChar st0;
       paragraphNumber := pn;
       chunkStartParagraph := chunkStartParagraph st0;
       allChunks := allChunks st0;
       globalChunkIndex := globalChunkIndex st0 |}
  else
    {| currentChunk := paragraph;
       chunkStartChar :=
         Page.startChar pg + JsString.indexOf (Page.text pg) paragraph;
       paragraphNumber := pn;
       chunkStartParagraph := pn;
       allChunks := allChunks st0;
       globalChunkIndex := globalChunkIndex st0 |}.

(** [text.split(/\n\n+/).filter(p => p.trim().length > 0)] *)
Definition paragraphs (text : jsstring) : list jsstring :=
  List.filter (fun p => 0 <? JsString.length (JsString.trim p))
    (JsString.split text).

(** The body of the loop over the pages: the per-page variables are
    reset, the paragraphs are consumed, and the last chunk of the page
    is saved. *)
Definition process_page (acc : list Chunk.t * Z) (pg : Page.t)
  : list Chunk.t * Z :=
  let st := fold_left (step pg) (paragraphs (Page.text pg))
              {| currentChunk := [];
                 chunkStartChar := Page.startChar pg;
                 paragraphNumber := 0;
                 chunkStartParagraph := 0;
                 allChunks := fst acc;
                 globalChunkIndex := snd acc |} in
  let st' := save_chunk (Page.pageNumber pg) (paragraphNumber st) st in
  (allChunks st', globalChunkIndex st').

(** The statistics written to the console at the end do not change the
    result and are left out. *)
Definition splitIntoChunksWithMetadata (pages : list Page.t)
  : list Chunk.t :=
  fst (fold_left process_page pages ([], 0)).

End Params.

(** The default arguments [chunkSize = 1000, overlap = 200]. *)
Definition defaultChunkSize : Z := 1000.
Definition defaultOverlap : Z := 200.

End Chunker.

(** Code units of a string literal, for examples. *)
Definition str (s : String.string) : jsstring :=
  map (fun b => N.of_nat (Ascii.nat_of_ascii b)) (String.list_ascii_of_string s).

(** ** Calls that return or throw *)

Inductive outcome (A : Type) : Type :=
| Return (value : A)
| Throw (message : jsstring).
Arguments Return {A} value.
Arguments Throw {A} message.

(** Sequencing: an exception skips what follows. [x ← m; k] is stdpp's
    notation for it. *)
#[global] Instance outcome_bind : MBind outcome := fun A B k m =>
  match m with
  | Return a => k a
  | Throw message => Throw message
  end.

(** [array.map(f)] for an [f] that may throw: the first exception ends
    the call. *)
Fixpoint mapM {A B : Type} (f : A -> outcome B) (l : list A) : outcome (list B) :=
  match l with
  | [] => Return []
  | a :: l' => b ← f a; bs ← mapM f l'; Return (b :: bs)
  end.

(** [try { m } catch (error) { handler(error.message) }] *)
Definition try_catch {A : Type} (m : outcome A) (handler : jsstring -> outcome A)
  : outcome A :=
  match m with
  | Return a => Return a
  | Throw message => handler message
  end.

(** ** JavaScript arrays *)

Module JsArray.

(** [array.slice(0, end)]: a negative [end] counts from the end of the
    array. *)
Definition slice_to {A : Type} (l : list A) (e : Z) : list A :=
  let len := Z.of_nat (length l) in
  let final := if e <? 0 then Z.max (len + e) 0 else Z.min e len in
  take (Z.to_nat final) l.

(** [array.slice(start, end)] for [0 <= start <= end]. *)
Definition slice {A : Type} (l : list A) (start e : nat) : list A :=
  take (e - start) (drop start l).

Section Sort.
Context {A : Type} (comparefn : A -> A -> float).

(** [Array.prototype.sort] is stable, reads a [NaN] from [comparefn] as
    [+0], and moves [x] behind [y] only when [comparefn(x, y) > 0]. With a
    consistent [comparefn] the result is the one of this insertion sort;
    with an inconsistent one the language leaves the order to the
    engine. *)
Definition placed_after (x y : A) : bool := (0 <? comparefn x y)%float.

Fixpoint insert (x : A) (l : list A) : list A :=
  match l with
  | [] => [x]
  | y :: l' => if placed_after x y then y :: insert x l' else x :: l
  end.

Definition sort (l : list A) : list A := fold_right insert [] l.
End Sort.

End JsArray.

(** ** The similarity engine: [cosineSimilarity] of [backend/utils/embeddings.js] *)

(** The arithmetic [cosineSimilarity] is written with. *)
Module Arith.
Record t (num : Type) := mk
  { zero : num;
    add : num -> num -> num;
    mul : num -> num -> num;
    div : num -> num -> num;
    sqrt : num -> num }.
Arguments zero {num}. Arguments add {num}. Arguments mul {num}.
Arguments div {num}. Arguments sqrt {num}.
End Arith.

(** JavaScript numbers: IEEE 754 binary64, [Math.sqrt] correctly rounded. *)
Definition binary64 : Arith.t float :=
  Arith.mk float 0%float PrimFloat.add PrimFloat.mul PrimFloat.div PrimFloat.sqrt.

Section Similarity.
Context {num : Type} (ar : Arith.t num).

(** The loop over [i], on the triple [(dotProduct, normA, normB)]. *)
Fixpoint accumulate (vecA vecB : list num) (acc : num * num * num)
  : num * num * num :=
  match vecA, vecB with
  | a :: vecA', b :: vecB' =>
      let '(dotProduct, normA, normB) := acc in
      accumulate vecA' vecB'
        (Arith.add ar dotProduct (Arith.mul ar a b),
         Arith.add ar normA (Arith.mul ar a a),
         Arith.add ar normB (Arith.mul ar b b))
  | _, _ => acc
  end.

Definition cosineSimilarity_over (vecA vecB : list num) : outcome num :=
  if negb (length vecA =? length vecB)%nat
  then Throw (str "Vectors must have same length")
  else
    let '(dotProduct, normA, normB) :=
      accumulate vecA vecB (Arith.zero ar, Arith.zero ar, Arith.zero ar) in
    Return (Arith.div ar dotProduct
              (Arith.mul ar (Arith.sqrt ar normA) (Arith.sqrt ar normB))).

(** [normA] of the loop: the sum of the squares, accumulated from the
    left. *)
Definition sum_of_squares (v : list num) : num :=
  fold_left (fun n a => Arith.add ar n (Arith.mul ar a a)) v (Arith.zero ar).
End Similarity.

(** The same formula read in exact real arithmetic, the reference that
    "within floating-point tolerance" is measured against. *)
Definition exact_arithmetic : Arith.t R :=
  Arith.mk R 0%R Rplus Rmult Rdiv R_sqrt.sqrt.

Definition vector := list float.

Definition cosineSimilarity (vecA vecB : vector) : outcome float :=
  cosineSimilarity_over binary64 vecA vecB.

(** ** The embedding gateway: [generateEmbeddings] of [backend/utils/embeddings.js] *)

Module Embeddings.
Section Service.
(** [embeddingModel.embedContent(text)] followed by
    [result.embedding.values]: the remote service, which may fail. *)
Variable embedContent : jsstring -> outcome vector.

Definition batchSize : nat := 100.

(** The loop [for (i = 0; i < texts.length; i += batchSize)].
    [Promise.all] over a batch yields the embeddings in the order of the
    batch, or is rejected when a request of the batch is. *)
Equations? batches (texts : list jsstring) (i : nat)
    (allEmbeddings : list vector) : outcome (list vector)
    by wf (length texts - i)%nat lt :=
  batches texts i allEmbeddings with decide (i < length texts)%nat => {
    | left _ :=
        mapM embedContent (JsArray.slice texts i (i + batchSize)) ≫=
          (fun batchEmbeddings =>
             batches texts (i + batchSize) (allEmbeddings ++ batchEmbeddings));
    | right _ := Return allEmbeddings
    }.
Proof. unfold batchSize. lia. Qed.

(** [allEmbeddings[0].length], read for the log line after the loop:
    a [TypeError] when [allEmbeddings[0]] is [undefined]. *)
Definition embedding_dimension (allEmbeddings : list vector) : outcome Z :=
  match allEmbeddings with
  | first :: _ => Return (Z.of_nat (length first))
  | [] => Throw (str "Cannot read properties of undefined (reading 'length')")
  end.

Definition generateEmbeddings (texts : list jsstring) : outcome (list vector) :=
  try_catch
    (allEmbeddings ← batches texts 0 [];
     _ ← embedding_dimension allEmbeddings;
     Return allEmbeddings)
    (fun message => Throw (str "Failed to generate embeddings: " ++ message)).

Definition generateSingleEmbedding (text : jsstring) : outcome vector :=
  try_catch (embedContent text)
    (fun message => Throw (str "Failed to generate embedding: " ++ message)).
End Service.
End Embeddings.

(** ** The vector index *)

Module VectorRecord.
(** A document of the [vectors] collection ([createdAt] left out). *)
Record t := mk
  { docId : jsstring;
    chunkIndex : Z;
    text : jsstring;
    embedding : vector;
    metadata : Metadata.t }.
End VectorRecord.

Module ScoredChunk.
Record t := mk { text : jsstring; metadata : Metadata.t; score : float }.
End ScoredChunk.

Module Fallback.

(** [const topK = 3] of the [/api/ask] route. *)
Definition topK : Z := 3.

(** [vectorCollection.find({ docId }).limit(50).toArray()] *)
Definition find (vectorCollection : list VectorRecord.t) (docId : jsstring)
  : list VectorRecord.t :=
  take 50 (List.filter (fun r => bool_decide (VectorRecord.docId r = docId))
             vectorCollection).

Definition with_score (questionEmbedding : vector) (chunk : VectorRecord.t)
  : outcome ScoredChunk.t :=
  score ← cosineSimilarity questionEmbedding (VectorRecord.embedding chunk);
  Return (ScoredChunk.mk (VectorRecord.text chunk) (VectorRecord.metadata chunk) score).

(** [(a, b) => b.score - a.score] *)
Definition by_score (a b : ScoredChunk.t) : float :=
  (ScoredChunk.score b - ScoredChunk.score a)%float.

(** The [catch] branch of the vector search in [/api/ask]. *)
Definition search (vectorCollection : list VectorRecord.t) (docId : jsstring)
    (questionEmbedding : vector) : outcome (list ScoredChunk.t) :=
  let allChunks := find vectorCollection docId in
  chunksWithScores ← mapM (with_score questionEmbedding) allChunks;
  Return (JsArray.slice_to (JsArray.sort by_score chunksWithScores) topK).

End Fallback.

(** The in-memory store of [backend/utils/vectorStore-v5.js]. *)

Module StoredChunk.
Record t := mk
  { text : jsstring;
    embedding : vector;
    chunkIndex : Z;
    metadata : Metadata.t }.
End StoredChunk.

Module SearchResult.
Record t := mk
  { text : jsstring;
    chunkIndex : Z;
    similarity : float;
    metadata : Metadata.t }.
End SearchResult.

Module VectorStore.

(** [this.store], a [Map] from document ids to arrays of chunks. *)
Abbreviation t := (gmap jsstring (list StoredChunk.t)).

(** [new VectorStore()] *)
Definition empty : t := ∅.

Definition enrich (chunk : Chunk.t) (embedding : vector) : StoredChunk.t :=
  let m := Chunk.metadata chunk in
  {| StoredChunk.text := Chunk.text chunk;
     StoredChunk.embedding := embedding;
     StoredChunk.chunkIndex := Chunk.chunkIndex chunk;
     StoredChunk.metadata :=
       {| Metadata.page := Metadata.page m;
          Metadata.paragraphNumber := Metadata.paragraphNumber m;
          Metadata.paragraphRange := Metadata.paragraphRange m;
          Metadata.startChar := Metadata.startChar m;
          Metadata.endChar := Metadata.endChar m;
          Metadata.chunkLength := Metadata.chunkLength m |} |}.

(** [chunks.map((chunk, idx) => ({..., embedding: embeddings[idx], ...}))],
    reached only when both arrays have the same length. *)
Definition enrichedChunks (chunks : list Chunk.t) (embeddings : list vector)
  : list StoredChunk.t :=
  zip_with enrich chunks embeddings.

Definition addDocuments (store : t) (docId : jsstring) (chunks : list Chunk.t)
    (embeddings : list vector) : outcome t :=
  if negb (length chunks =? length embeddings)%nat
  then Throw (str "Number of chunks and embeddings must match")
  else Return (<[docId := enrichedChunks chunks embeddings]> store).

Definition with_similarity (queryEmbedding : vector) (chunk : StoredChunk.t)
  : outcome SearchResult.t :=
  similarity ← cosineSimilarity queryEmbedding (StoredChunk.embedding chunk);
  Return (SearchResult.mk (StoredChunk.text chunk) (StoredChunk.chunkIndex chunk)
            similarity (StoredChunk.metadata chunk)).

(** [(a, b) => b.similarity - a.similarity] *)
Definition by_similarity (a b : SearchResult.t) : float :=
  (SearchResult.similarity b - SearchResult.similarity a)%float.

Definition search (store : t) (docId : jsstring) (queryEmbedding : vector)
    (topK : Z) : outcome (list SearchResult.t) :=
  match store !! docId with
  | None =>
      Throw (str "Document " ++ docId ++ str " not found in vector store")
  | Some chunks =>
      results ← mapM (with_similarity queryEmbedding) chunks;
      Return (JsArray.slice_to (JsArray.sort by_similarity results) topK)
  end.

(** The default [topK = 5] of [search]. *)
Definition defaultTopK : Z := 5.

Definition getDocument (store : t) (docId : jsstring) : list StoredChunk.t :=
  match store !! docId with
  | Some chunks => chunks
  | None => []
  end.

(** [this.store.delete(docId)]: the store afterwards and whether an entry
    was removed. *)
Definition deleteDocument (store : t) (docId : jsstring) : t * bool :=
  (delete docId store, bool_decide (is_Some (store !! docId))).

End VectorStore.

(** ** The routes of [backend/server.js] *)

Module DocumentRecord.
(** A document of the [documents] collection ([uploadedAt] and [status]
    left out). *)
Record t := mk
  { _id : jsstring;
    filename : jsstring;
    textLength : Z;
    chunkCount : Z;
    totalPages : Z }.
End DocumentRecord.

(** The calls a route makes to its collaborators: the two collections, the
    embedding service and the chat model. *)
Inductive call :=
| FindDocument (docId : jsstring)
| EmbedContent (text : jsstring)
| VectorSearch (docId : jsstring)
| FindVectors (docId : jsstring)
| GenerateContent (prompt : jsstring).

(** A computation with its outcome and the calls it made, in order. *)
Record io (A : Type) := IO { result : outcome A; calls : list call }.
Arguments IO {A} result calls.
Arguments result {A} _.
Arguments calls {A} _.

#[global] Instance io_ret : MRet io := fun A a => IO (Return a) [].

#[global] Instance io_bind : MBind io := fun A B k m =>
  match result m with
  | Return a => IO (result (k a)) (calls m ++ calls (k a))
  | Throw message => IO (Throw message) (calls m)
  end.

(** One call to a collaborator, with what it answers. *)
Definition perform {A : Type} (c : call) (answer : outcome A) : io A :=
  IO answer [c].

Definition io_try {A : Type} (m : io A) (handler : jsstring -> io A) : io A :=
  match result m with
  | Return _ => m
  | Throw message =>
      IO (result (handler message)) (calls m ++ calls (handler message))
  end.

Module Source.
(** An entry of [sources]; [page] and [paragraphNumber] are a number or
    the string ["N/A"]. *)
Record t := mk
  { sourceNumber : Z;
    page : Z + jsstring;
    paragraphNumber : Z + jsstring;
    text : jsstring;
    similarity : float;
    startChar : Z;
    endChar : Z }.
End Source.

Module Details.
(** The fields of a generated answer beyond the four of every answer
    ([timestamp] left out). *)
Record t := mk
  { model : jsstring; promptLength : Z; chunksUsed : Z; version : jsstring }.
End Details.

Inductive body :=
| ErrorBody (error : jsstring)
| MessageBody (message : jsstring)
| AnswerBody (answer question docId : jsstring) (sources : list Source.t)
    (details : option Details.t).

Record response := Response { status : Z; json : body }.

Module Db.
Record t := mk
  { documents : list DocumentRecord.t; vectors : list VectorRecord.t }.
End Db.

Module Server.

(** [value || alternative] for a number: [0] is falsy. *)
Definition number_or (n : Z) (alternative : jsstring) : Z + jsstring :=
  if n =? 0 then inr alternative else inl n.

Definition show (v : Z + jsstring) : jsstring :=
  match v with
  | inl n => str (pretty n)
  | inr s => s
  end.

(** [chunk.score || 0]: [NaN] and both zeros are falsy. *)
Definition score_or_zero (score : float) : float :=
  if (PrimFloat.is_nan score || PrimFloat.is_zero score)%bool then 0%float else score.

(** [!value] for a string field of the request body that may be absent. *)
Definition missing (v : option jsstring) : bool :=
  match v with
  | None | Some [] => true
  | Some (_ :: _) => false
  end.

(** [array.join(separator)] *)
Fixpoint join (separator : jsstring) (l : list jsstring) : jsstring :=
  match l with
  | [] => []
  | [s] => s
  | s :: l' => s ++ separator ++ join separator l'
  end.

Definition line_feed : jsstring := [JsString.nl].

(** The fixed answer of [/api/ask] when no chunk was retrieved. *)
Definition no_relevant_information : jsstring :=
  str "No relevant information found. Please check if:" ++ line_feed
  ++ str "1. Vector search index is created in MongoDB Atlas" ++ line_feed
  ++ str "2. The document was uploaded successfully" ++ line_feed
  ++ str "3. Your question relates to the document content".

(** One excerpt of the context: at most 800 characters of the chunk. *)
Definition excerpt (idx : nat) (chunk : ScoredChunk.t) : jsstring :=
  let m := ScoredChunk.metadata chunk in
  let page := number_or (Metadata.page m) (str "Unknown") in
  let para := number_or (Metadata.paragraphNumber m) (str "Unknown") in
  let text :=
    if 800 <? JsString.length (ScoredChunk.text chunk)
    then take 800 (ScoredChunk.text chunk) ++ str "..."
    else ScoredChunk.text chunk in
  str "[Source " ++ str (pretty (Z.of_nat idx + 1)) ++ str " - Page " ++ show page
  ++ str ", Para " ++ show para ++ str "]" ++ line_feed ++ text.

Definition make_prompt (context question : jsstring) : jsstring :=
  str "Based on these document excerpts, answer the question." ++ line_feed
  ++ str "Document Excerpts:" ++ line_feed
  ++ context ++ line_feed
  ++ line_feed
  ++ str "Question: " ++ question ++ line_feed
  ++ line_feed
  ++ str "Instructions:" ++ line_feed
  ++ str "- Answer ONLY using information from the excerpts above" ++ line_feed
  ++ str "- Cite sources like [Source 1 - Page 3, Para 2]" ++ line_feed
  ++ str "- If the answer is not in the excerpts, say so clearly" ++ line_feed
  ++ str "- Be concise and specific" ++ line_feed
  ++ line_feed
  ++ str "Answer:".

Definition source (idx : nat) (chunk : ScoredChunk.t) : Source.t :=
  let m := ScoredChunk.metadata chunk in
  {| Source.sourceNumber := Z.of_nat idx + 1;
     Source.page := number_or (Metadata.page m) (str "N/A");
     Source.paragraphNumber := number_or (Metadata.paragraphNumber m) (str "N/A");
     Source.text := take 300 (ScoredChunk.text chunk) ++ str "...";
     Source.similarity := score_or_zero (ScoredChunk.score chunk);
     Source.startChar := Metadata.startChar m;
     Source.endChar := Metadata.endChar m |}.

(** [documentsCollection.findOne({ _id: docId })] *)
Definition findOne (documents : list DocumentRecord.t) (docId : jsstring)
  : option DocumentRecord.t :=
  List.find (fun d => bool_decide (DocumentRecord._id d = docId)) documents.

Record request := Request
  { docId : option jsstring; question : option jsstring }.

Section Collaborators.
(** The embedding service, the [$vectorSearch] aggregation of the
    storage engine (on the collection, the query vector,
    [numCandidates], [limit] and the [docId] of the filter), and
    [chatModel.generateContent] followed by [result.response.text()]. *)
Variable embedContent : jsstring -> outcome vector.
Variable vectorSearch :
  list VectorRecord.t -> vector -> Z -> Z -> jsstring -> outcome (list ScoredChunk.t).
Variable generateContent : jsstring -> outcome jsstring.

(** The retrieval of [/api/ask]: the vector search of the storage engine
    and, when it throws, the brute-force search. *)
Definition retrieve (db : Db.t) (docId : jsstring) (questionEmbedding : vector)
  : io (list ScoredChunk.t) :=
  io_try
    (perform (VectorSearch docId)
       (vectorSearch (Db.vectors db) questionEmbedding
          (Fallback.topK * 10) Fallback.topK docId))
    (fun _ =>
       perform (FindVectors docId)
         (Fallback.search (Db.vectors db) docId questionEmbedding)).

(** [app.post("/api/ask", ...)] *)
Definition ask (db : Db.t) (req : request) : io response :=
  io_try
    (if (missing (docId req) || missing (question req))%bool
     then mret (Response 400 (ErrorBody (str "Missing docId or question")))
     else
       let docId := default [] (docId req) in
       let question := default [] (question req) in
       document ← perform (FindDocument docId)
                    (Return (findOne (Db.documents db) docId));
       match document with
       | None => mret (Response 404 (ErrorBody (str "Document not found")))
       | Some _ =>
           questionEmbedding ←
             perform (EmbedContent question)
               (Embeddings.generateSingleEmbedding embedContent question);
           relevantChunks ← retrieve db docId questionEmbedding;
           if (length relevantChunks =? 0)%nat
           then mret (Response 200
                        (AnswerBody no_relevant_information question docId [] None))
           else
             let context := join (str " ") (imap excerpt relevantChunks) in
             let prompt := make_prompt context question in
             answer ← perform (GenerateContent prompt) (generateContent prompt);
             mret (Response 200
                     (AnswerBody answer question docId
                        (imap source relevantChunks)
                        (Some {| Details.model := str "gemini-3-pro-preview";
                                 Details.promptLength := JsString.length prompt;
                                 Details.chunksUsed :=
                                   Z.of_nat (length relevantChunks);
                                 Details.version := str "6.0 - Optimized" |})))
       end)
    (fun message =>
       mret (Response 500 (ErrorBody (str "Failed to answer: " ++ message)))).
End Collaborators.

(** [deleteOne]: the first document that matches is removed. *)
Fixpoint deleteOne (documents : list DocumentRecord.t) (docId : jsstring)
  : list DocumentRecord.t :=
  match documents with
  | [] => []
  | d :: documents' =>
      if bool_decide (DocumentRecord._id d = docId) then documents'
      else d :: deleteOne documents' docId
  end.

(** [vectorCollection.deleteMany({ docId })] *)
Definition deleteMany (vectors : list VectorRecord.t) (docId : jsstring)
  : list VectorRecord.t :=
  List.filter (fun r => negb (bool_decide (VectorRecord.docId r = docId))) vectors.

(** [app.delete("/api/document/:docId", ...)]: the database afterwards
    and the response. *)
Definition delete_document (db : Db.t) (docId : jsstring) : Db.t * response :=
  ({| Db.documents := deleteOne (Db.documents db) docId;
      Db.vectors := deleteMany (Db.vectors db) docId |},
   Response 200 (MessageBody (str "Document deleted successfully"))).

End Server.

(** ** Statements of the specification *)

(** What the specification states of the character span of a chunk of page
    [pg]. *)
Definition span_within_page (pg : Page.t) (c : Chunk.t) : Prop :=
  let m := Chunk.metadata c in
  Metadata.startChar m <= Metadata.endChar m
  /\ Page.startChar pg <= Metadata.startChar m <= Page.endChar pg
  /\ Page.startChar pg <= Metadata.endChar m <= Page.endChar pg.

(** What it states of [chunkLength]. *)
Definition chunkLength_is_text_length (c : Chunk.t) : Prop :=
  Metadata.chunkLength (Chunk.metadata c) = JsString.length (Chunk.text c).

(** A sequence of scores in descending order: no score is followed by a
    greater one, nor by one it does not compare with. *)
Definition descending (scores : list float) : Prop :=
  Sorted (fun previous next => (next <=? previous)%float = true) scores.

(** ** Example inputs *)

(** A page holding the two paragraphs [ab] and [c], at offsets 0 to 5. *)
Definition page_ab_c : Page.t :=
  Page.mk 1 (str "ab" ++ JsString.blank_line ++ str "c") 0 5.

(** A page of 1003 characters: a paragraph of 201 characters, a blank
    line, and a paragraph of 800 characters. *)
Definition page_201_800 : Page.t :=
  Page.mk 1 (repeat 97%N 201 ++ JsString.blank_line ++ repeat 98%N 800) 0 1003.

(** A page whose only paragraph starts with a space. *)
Definition page_space_a : Page.t := Page.mk 1 (str " a") 0 2.

Definition metadata_of_page_1 : Metadata.t :=
  Metadata.mk 1 1 (ParagraphSingle 1) 0 4 4.

(** Two records of the document [d]: one with an embedding of zeros, one
    with the embedding [(1, 0)]. *)
Definition zero_record : VectorRecord.t :=
  VectorRecord.mk (str "d") 0 (str "zero") [0; 0]%float metadata_of_page_1.
Definition match_record : VectorRecord.t :=
  VectorRecord.mk (str "d") 1 (str "match") [1; 0]%float metadata_of_page_1.
(** A record of another document. *)
Definition other_record : VectorRecord.t :=
  VectorRecord.mk (str "e") 0 (str "other") [1; 0]%float metadata_of_page_1.

(** A chunk as the chunker emits them. *)
Definition chunk_0 : Chunk.t := Chunk.mk (str "first") 0 metadata_of_page_1.

(** A vector whose only component is [2^-600], and one with [2^600]. *)
Definition tiny_vector : vector := [0x1p-600%float].
Definition huge_vector : vector := [0x1p600%float].
(** The doubles nearest 0.3, 0.5, 0.7 and 0.11. *)
Definition decimal_vector : vector :=
  [0x1.3333333333333p-2; 0x1p-1; 0x1.6666666666666p-1; 0x1.c28f5c28f5c29p-4]%float.

(** The store that holds, for the document [d], a chunk with an embedding
    of zeros and a chunk with the embedding [(1, 0)]. *)
Definition zero_chunk : StoredChunk.t :=
  StoredChunk.mk (str "zero") [0; 0]%float 0 metadata_of_page_1.
Definition match_chunk : StoredChunk.t :=
  StoredChunk.mk (str "match") [1; 0]%float 1 metadata_of_page_1.
Definition store_d : VectorStore.t :=
  <[str "d" := [zero_chunk; match_chunk]]> VectorStore.empty.

(** A record and a stored chunk of [d] with the embedding [(1, 1)]. *)
Definition half_record : VectorRecord.t :=
  VectorRecord.mk (str "d") 2 (str "half") [1; 1]%float metadata_of_page_1.
Definition half_chunk : StoredChunk.t :=
  StoredChunk.mk (str "half") [1; 1]%float 2 metadata_of_page_1.

(** A database with the document [d] and no vector of it, an embedding
    service, a storage engine without the search index, and a chat model. *)
Definition document_d : DocumentRecord.t :=
  DocumentRecord.mk (str "d") (str "d.pdf") 0 0 0.
Definition db_without_vectors : Db.t := Db.mk [document_d] [other_record].
Definition embed_constant (_ : jsstring) : outcome vector := Return [1; 0]%float.
Definition no_search_index (_ : list VectorRecord.t) (_ : vector) (_ _ : Z)
    (_ : jsstring) : outcome (list ScoredChunk.t) :=
  Throw (str "index not found").
Definition chat_constant (_ : jsstring) : outcome jsstring := Return (str "answer").

(** ** Predicates and tactics of the proofs *)

(** Chunks are only ever appended by [Chunker.save_chunk], which pushes
    [Chunker.make_chunk] of the current state and advances the counter. *)
Inductive emitted : list Chunk.t -> Z -> Prop :=
| emitted_nil : emitted [] 0
| emitted_push cs i pageNumber st lastParagraph :
    emitted cs i ->
    Chunker.globalChunkIndex st = i ->
    emitted (cs ++ [Chunker.make_chunk pageNumber st lastParagraph]) (i + 1).

(** A float that is finite and non-zero, or infinite, with the sign [s]. *)
Definition signed (s : bool) (f : spec_float) : Prop :=
  match f with
  | S754_finite s' _ _ | S754_infinity s' => s' = s
  | _ => False
  end.

(** Zero or [NaN]: what sums and products of zeros can be. *)
Definition zero_or_nan (x : float) : Prop :=
  match Prim2SF x with
  | S754_zero _ | S754_nan => True
  | _ => False
  end.

(** Zero, positive or [NaN]: what squares and their sums can be. *)
Definition nonnegative (f : spec_float) : Prop :=
  match f with
  | S754_zero s | S754_infinity s | S754_finite s _ _ => s = false
  | S754_nan => True
  end.

(** The tolerance that the similarity of a vector with itself stays
    within: [2^-48], sixteen units in the last place of 1. *)
Definition rounding_tolerance : float := 0x1p-48%float.

(** The location a record holds after [k] shifts to the right: the bits
    shifted out are [r] (the last one) and [s] (whether any bit before it
    was set). *)
Definition shifted (M : Z) (k : nat) (mrs : shr_record) : Prop :=
  exists t,
    2 * M = (2 * shr_m mrs + Z.b2z (shr_r mrs)) * 2 ^ Z.of_nat k + t
    /\ 0 <= t < 2 ^ Z.of_nat k
    /\ (shr_s mrs = false <-> t = 0).

(** Linear arithmetic with divisions by constants. *)
Ltac div_lia := Z.to_euclidean_division_equations; lia.

(** Closes a goal [(0 <? z) = b] by arithmetic. *)
Ltac solve_ltb :=
match goal with
| |- (0 <? ?z) = _ => destruct (Z.ltb_spec 0 z); try reflexivity; lia
end.

(** ** Further code of the repository, and the notions its properties use *)

(** A chunk with its index moved by [k]: what a chunk becomes when [k]
    chunks of earlier pages come before it. *)
Definition renumber (k : Z) (c : Chunk.t) : Chunk.t :=
  {| Chunk.text := Chunk.text c;
     Chunk.chunkIndex := k + Chunk.chunkIndex c;
     Chunk.metadata := Chunk.metadata c |}.

(** A string with a character that [trim] keeps. *)
Definition has_text (s : jsstring) : Prop :=
  Exists (fun c => JsString.is_white_space c = false) s.

(** A string that starts with a character that [trim] keeps. *)
Definition starts_with_text (s : jsstring) : Prop :=
  match s with
  | c :: _ => JsString.is_white_space c = false
  | [] => False
  end.

(** [p] occurs in [s]. *)
Definition occurs_in (p s : jsstring) : Prop :=
  exists before after, s = before ++ p ++ after.

(** The paragraph citation of a chunk of a page with [count] paragraphs:
    the first paragraph is numbered from 1, and the range is that number
    alone or runs from it to a later paragraph of the page. *)
Definition cites_paragraphs (count : Z) (m : Metadata.t) : Prop :=
  1 <= Metadata.paragraphNumber m <= count
  /\ (Metadata.paragraphRange m = ParagraphSingle (Metadata.paragraphNumber m)
      \/ exists last,
           Metadata.paragraphRange m = ParagraphSpan (Metadata.paragraphNumber m) last
           /\ Metadata.paragraphNumber m < last <= count).

(** The number of paragraphs of a page. *)
Definition paragraph_count (pg : Page.t) : Z :=
  Z.of_nat (length (Chunker.paragraphs (Page.text pg))).

(** The variables of the chunker when the chunks [pre], [k] of them by
    the counter, were there already. *)
Definition after_chunks (pre : list Chunk.t) (k : Z) (st : Chunker.state)
  : Chunker.state :=
  {| Chunker.currentChunk := Chunker.currentChunk st;
     Chunker.chunkStartChar := Chunker.chunkStartChar st;
     Chunker.paragraphNumber := Chunker.paragraphNumber st;
     Chunker.chunkStartParagraph := Chunker.chunkStartParagraph st;
     Chunker.allChunks := pre ++ map (renumber k) (Chunker.allChunks st);
     Chunker.globalChunkIndex := k + Chunker.globalChunkIndex st |}.

(** The variables at the start of a page that is the first one. *)
Definition page_start (pg : Page.t) : Chunker.state :=
  {| Chunker.currentChunk := [];
     Chunker.chunkStartChar := Page.startChar pg;
     Chunker.paragraphNumber := 0;
     Chunker.chunkStartParagraph := 0;
     Chunker.allChunks := [];
     Chunker.globalChunkIndex := 0 |}.

(** A chunk that cites the page [pg] and paragraphs among its first
    [count], and starts no earlier than the page. *)
Definition chunk_of_page (pg : Page.t) (count : Z) (c : Chunk.t) : Prop :=
  Metadata.page (Chunk.metadata c) = Page.pageNumber pg
  /\ cites_paragraphs count (Chunk.metadata c)
  /\ Page.startChar pg <= Metadata.startChar (Chunk.metadata c).

(** A paragraph whose trimmed text is in one of the chunks [cs]. *)
Definition kept_in (cs : list Chunk.t) (p : jsstring) : Prop :=
  Exists (fun c => occurs_in (JsString.trim p) (Chunk.text c)) cs.

(** What holds of the variables of the loop over the paragraphs of the
    page [pg], started from [page_start], when the paragraphs [seen] have
    been consumed. *)
Record page_invariant (pg : Page.t) (seen : list jsstring)
  (st : Chunker.state) : Prop :=
  { inv_number : Chunker.paragraphNumber st = Z.of_nat (length seen);
    inv_start : Page.startChar pg <= Chunker.chunkStartChar st;
    inv_first :
      seen = [] -> Chunker.currentChunk st = [] /\ Chunker.allChunks st = [];
    inv_buffer :
      seen <> [] ->
      has_text (Chunker.currentChunk st)
      /\ 1 <= Chunker.chunkStartParagraph st <= Chunker.paragraphNumber st;
    inv_chunks :
      Forall (fun c =>
                chunk_of_page pg (Chunker.paragraphNumber st) c
                /\ Metadata.paragraphNumber (Chunk.metadata c)
                   < Chunker.chunkStartParagraph st)
        (Chunker.allChunks st);
    inv_sorted :
      StronglySorted Z.lt
        (map (fun c => Metadata.paragraphNumber (Chunk.metadata c))
           (Chunker.allChunks st));
    inv_count :
      seen <> [] ->
      Z.of_nat (length (Chunker.allChunks st)) < Chunker.chunkStartParagraph st;
    inv_kept :
      Forall (fun p => occurs_in p (Chunker.currentChunk st)
                       \/ kept_in (Chunker.allChunks st) p) seen }.

(** The number of paragraphs of a sequence of pages. *)
Definition paragraph_total (pages : list Page.t) : Z :=
  fold_right Z.add 0 (map paragraph_count pages).

(** The paragraph numbers the chunks cite, in emission order. *)
Definition cited_paragraphs (cs : list Chunk.t) : list Z :=
  map (fun c => Metadata.paragraphNumber (Chunk.metadata c)) cs.

(** The length of the longest paragraph of the pages, 0 when there is
    none. *)
Definition longest_paragraph (pages : list Page.t) : Z :=
  fold_right Z.max 0
    (map JsString.length
       (concat (map (fun pg => Chunker.paragraphs (Page.text pg)) pages))).

(** The buffer and the chunks saved are no longer than [bound]. *)
Definition buffer_bounded (bound : Z) (st : Chunker.state) : Prop :=
  JsString.length (Chunker.currentChunk st) <= bound
  /\ Forall (fun c => Metadata.chunkLength (Chunk.metadata c) <= bound)
       (Chunker.allChunks st).

(** The paragraphs joined by blank lines, as the buffer collects them. *)
Definition joined (ps : list jsstring) : jsstring :=
  match ps with
  | [] => []
  | p :: ps' => fold_left (fun acc q => acc ++ JsString.blank_line ++ q) ps' p
  end.

(** The buffers [currentChunk] of [splitIntoChunksWithMetadata] at the
    moments it pushes a chunk, in the order of the pushes. Inside the loop
    over the paragraphs of a page the buffer is pushed when the next
    paragraph does not fit, at the end of the page it is pushed once more,
    and in both places only when it is more than white space. The buffer
    itself is the one the loop of the code holds: [Chunker.step] takes it
    from one paragraph to the next. *)
Section Buffers.
Variables (chunkSize overlap : Z).

Fixpoint page_buffers (pg : Page.t) (paragraphs : list jsstring)
    (st : Chunker.state) : list jsstring :=
  match paragraphs with
  | [] =>
      if 0 <? JsString.length (JsString.trim (Chunker.currentChunk st))
      then [Chunker.currentChunk st] else []
  | paragraph :: rest =>
      (if (chunkSize <? JsString.length (Chunker.currentChunk st)
                        + JsString.length paragraph)
          && (0 <? JsString.length (JsString.trim (Chunker.currentChunk st)))
       then [Chunker.currentChunk st] else [])
      ++ page_buffers pg rest (Chunker.step chunkSize overlap pg st paragraph)
  end.

Definition pushed_buffers (pages : list Page.t) : list jsstring :=
  concat (map (fun pg => page_buffers pg (Chunker.paragraphs (Page.text pg))
                           (page_start pg))
            pages).
End Buffers.

(** ** The upload route of [backend/server.js] *)

Module Upload.

Definition estimatedCharsPerPage : Z := 2000.

(** [s.slice(start, end)]: negative positions count from the end of the
    string, both are clamped to it, and nothing is left when [end] is not
    after [start]. *)
Definition slice (s : jsstring) (start e : Z) : jsstring :=
  let len := JsString.length s in
  let from := if start <? 0 then Z.max (len + start) 0 else Z.min start len in
  let final := if e <? 0 then Z.max (len + e) 0 else Z.min e len in
  take (Z.to_nat (final - from)) (drop (Z.to_nat from) s).

(** The loop [while (currentPos < fullText.length)] of
    [extractPagesFromPDF], on [currentPos], [pageNum] and [pages]. *)
Equations? page_loop (fullText : jsstring) (currentPos pageNum : Z)
    (pages : list Page.t) : list Page.t
    by wf (Z.to_nat (JsString.length fullText - currentPos)) lt :=
  page_loop fullText currentPos pageNum pages
    with decide (currentPos < JsString.length fullText) => {
    | left _ :=
        let pageText :=
          slice fullText currentPos (currentPos + estimatedCharsPerPage) in
        page_loop fullText (currentPos + estimatedCharsPerPage) (pageNum + 1)
          (pages ++ [{| Page.pageNumber := pageNum;
                        Page.text := pageText;
                        Page.startChar := currentPos;
                        Page.endChar := currentPos + JsString.length pageText |}]);
    | right _ := pages
    }.
Proof. unfold estimatedCharsPerPage. lia. Qed.

(** What [extractPagesFromPDF] returns. *)
Record extracted := Extracted
  { pages : list Page.t; totalPages : Z; fullText : jsstring }.

(** The pages of a text: [extractPagesFromPDF] after [pdfParse]. *)
Definition pages_of_text (fullText : jsstring) : extracted :=
  let pages := page_loop fullText 0 1 [] in
  {| pages := pages; totalPages := Z.of_nat (length pages); fullText := fullText |}.

(** [req.file] as multer leaves it: the name of the file and its bytes. *)
Record file := File { originalname : jsstring; buffer : list Byte.byte }.

(** The JSON of the answers of the route (the constant [message] and
    [database] of the success answer left out). *)
Inductive body :=
| ErrorBody (error : jsstring)
| ProcessedBody (docId filename : jsstring)
    (textLength chunkCount totalPages : Z).

Record response := Response { status : Z; json : body }.

(** [documentsCollection.insertOne(document)]: the storage engine keeps
    [_id] unique and rejects a second document with the same one, with a
    message that starts like this one. *)
Definition insertOne (documents : list DocumentRecord.t) (document : DocumentRecord.t)
  : outcome (list DocumentRecord.t) :=
  match Server.findOne documents (DocumentRecord._id document) with
  | Some _ => Throw (str "E11000 duplicate key error")
  | None => Return (documents ++ [document])
  end.

(** [vectorCollection.insertMany(documents)] *)
Definition insertMany (vectors documents : list VectorRecord.t)
  : list VectorRecord.t :=
  vectors ++ documents.

(** An element of [vectorDocuments] ([createdAt] left out). *)
Definition vectorDocument (docId : jsstring) (chunk : Chunk.t)
    (embedding : vector) : VectorRecord.t :=
  let m := Chunk.metadata chunk in
  {| VectorRecord.docId := docId;
     VectorRecord.chunkIndex := Chunk.chunkIndex chunk;
     VectorRecord.text := Chunk.text chunk;
     VectorRecord.embedding := embedding;
     VectorRecord.metadata :=
       {| Metadata.page := Metadata.page m;
          Metadata.paragraphNumber := Metadata.paragraphNumber m;
          Metadata.paragraphRange := Metadata.paragraphRange m;
          Metadata.startChar := Metadata.startChar m;
          Metadata.endChar := Metadata.endChar m;
          Metadata.chunkLength := Metadata.chunkLength m |} |}.

Section Collaborators.
(** [pdfParse(buffer)] followed by [data.text], the embedding service, and
    [new Date().getTime()] at the time the document record is made. *)
Variable pdfParse : list Byte.byte -> outcome jsstring.
Variable embedContent : jsstring -> outcome vector.
Variable now : Z.

Definition extractPagesFromPDF (buffer : list Byte.byte) : outcome extracted :=
  fullText ← pdfParse buffer;
  Return (pages_of_text fullText).

(** The steps 1 to 3 of the route, which touch no collection. *)
Definition prepare (f : file)
  : outcome (extracted * list Chunk.t * list vector) :=
  extraction ← extractPagesFromPDF (buffer f);
  let chunksWithMetadata :=
    Chunker.splitIntoChunksWithMetadata Chunker.defaultChunkSize
      Chunker.defaultOverlap (pages extraction) in
  let texts := map Chunk.text chunksWithMetadata in
  embeddings ← Embeddings.generateEmbeddings embedContent texts;
  Return (extraction, chunksWithMetadata, embeddings).

Definition failed_to_process (message : jsstring) : response :=
  Response 500 (ErrorBody (str "Failed to process PDF: " ++ message)).

(** [app.post("/api/upload", ...)]: the database afterwards and the
    response. [embeddings[idx]] is read for every chunk; the two arrays
    have the same length whenever [generateEmbeddings] returns. *)
Definition upload (db : Db.t) (reqFile : option file) : Db.t * response :=
  match reqFile with
  | None => (db, Response 400 (ErrorBody (str "No file uploaded")))
  | Some f =>
      match prepare f with
      | Throw message => (db, failed_to_process message)
      | Return (extraction, chunksWithMetadata, embeddings) =>
          let docId := str (pretty now) in
          let documentRecord :=
            {| DocumentRecord._id := docId;
               DocumentRecord.filename := originalname f;
               DocumentRecord.textLength := JsString.length (fullText extraction);
               DocumentRecord.chunkCount := Z.of_nat (length chunksWithMetadata);
               DocumentRecord.totalPages := totalPages extraction |} in
          match insertOne (Db.documents db) documentRecord with
          | Throw message => (db, failed_to_process message)
          | Return documents =>
              let vectorDocuments :=
                zip_with (vectorDocument docId) chunksWithMetadata embeddings in
              ({| Db.documents := documents;
                  Db.vectors := insertMany (Db.vectors db) vectorDocuments |},
               Response 200
                 (ProcessedBody docId (originalname f)
                    (JsString.length (fullText extraction))
                    (Z.of_nat (length chunksWithMetadata))
                    (totalPages extraction)))
          end
      end
  end.
End Collaborators.

End Upload.

(** A page as [extractPagesFromPDF] cuts it from [fullText]: at most 2000
    characters and at least one, from [startChar] to [endChar], the
    pages numbered from 1 and 2000 characters apart. *)
Definition page_of_text (fullText : jsstring) (pg : Page.t) : Prop :=
  1 <= Page.pageNumber pg
  /\ Page.startChar pg = 2000 * (Page.pageNumber pg - 1)
  /\ Page.endChar pg = Page.startChar pg + JsString.length (Page.text pg)
  /\ 0 < JsString.length (Page.text pg) <= 2000
  /\ Page.endChar pg <= JsString.length fullText
  /\ Page.text pg
     = take (Z.to_nat (JsString.length (Page.text pg)))
         (drop (Z.to_nat (Page.startChar pg)) fullText).

(** A vector record stored for the document [docId] of [totalPages] pages:
    it carries that id, cites one of the pages, holds a trimmed text that
    is not empty, and the embedding the service [embedContent] returned for
    that text. *)
Definition stored_for (embedContent : jsstring -> outcome vector)
    (docId : jsstring) (totalPages : Z) (v : VectorRecord.t) : Prop :=
  VectorRecord.docId v = docId
  /\ 1 <= Metadata.page (VectorRecord.metadata v) <= totalPages
  /\ JsString.trim (VectorRecord.text v) = VectorRecord.text v
  /\ 0 < JsString.length (VectorRecord.text v)
  /\ embedContent (VectorRecord.text v) = Return (VectorRecord.embedding v).

(** A string of white space only. *)
Definition blank (s : jsstring) : Prop :=
  Forall (fun c => JsString.is_white_space c = true) s.

(** A PDF parser that finds the text of [page_ab_c], one that finds a
    line of spaces, and an uploaded file. *)
Definition parse_ab_c (_ : list Byte.byte) : outcome jsstring :=
  Return (Page.text page_ab_c).
Definition parse_spaces (_ : list Byte.byte) : outcome jsstring :=
  Return (str "   ").
Definition file_ab_c : Upload.file := Upload.File (str "ab.pdf") [].

(** A stored embedding of the dimension of the query. *)
Definition same_dimension (query embedding : vector) : Prop :=
  length embedding = length query.

(** The number of results [slice(0, topK)] keeps of [n]. *)
Definition kept (topK : Z) (n : nat) : nat :=
  Z.to_nat (if topK <? 0 then Z.max (Z.of_nat n + topK) 0
            else Z.min topK (Z.of_nat n)).

(** ** [/api/ask] with collections that may fail

    In [Server.ask] the two reads of the database, [findOne] and
    [find().limit(50).toArray()], are functions of the collections. The
    route awaits both inside its [try], and either may be rejected (a lost
    connection, a timeout). Here they are collaborators like the others:
    [findOne] is [documentsCollection.findOne({ _id: docId })],
    [aggregate] is [vectorCollection.aggregate(pipeline).toArray()] on the
    query vector, [numCandidates], [limit] and the [docId] of the filter,
    and [find] is [vectorCollection.find({ docId }).limit(50).toArray()]. *)

Module AskRoute.
Section Collaborators.
Variable findOne : jsstring -> outcome (option DocumentRecord.t).
Variable embedContent : jsstring -> outcome vector.
Variable aggregate : vector -> Z -> Z -> jsstring -> outcome (list ScoredChunk.t).
Variable find : jsstring -> outcome (list VectorRecord.t).
Variable generateContent : jsstring -> outcome jsstring.

(** The [catch] branch of the vector search. *)
Definition fallback (docId : jsstring) (questionEmbedding : vector)
  : outcome (list ScoredChunk.t) :=
  allChunks ← find docId;
  chunksWithScores ← mapM (Fallback.with_score questionEmbedding) allChunks;
  Return (JsArray.slice_to (JsArray.sort Fallback.by_score chunksWithScores)
            Fallback.topK).

Definition retrieve (docId : jsstring) (questionEmbedding : vector)
  : io (list ScoredChunk.t) :=
  io_try
    (perform (VectorSearch docId)
       (aggregate questionEmbedding (Fallback.topK * 10) Fallback.topK docId))
    (fun _ => perform (FindVectors docId) (fallback docId questionEmbedding)).

(** [app.post("/api/ask", ...)] *)
Definition ask (req : Server.request) : io response :=
  io_try
    (if (Server.missing (Server.docId req) || Server.missing (Server.question req))%bool
     then mret (Response 400 (ErrorBody (str "Missing docId or question")))
     else
       let docId := default [] (Server.docId req) in
       let question := default [] (Server.question req) in
       document ← perform (FindDocument docId) (findOne docId);
       match document with
       | None => mret (Response 404 (ErrorBody (str "Document not found")))
       | Some _ =>
           questionEmbedding ←
             perform (EmbedContent question)
               (Embeddings.generateSingleEmbedding embedContent question);
           relevantChunks ← retrieve docId questionEmbedding;
           if (length relevantChunks =? 0)%nat
           then mret (Response 200
                        (AnswerBody Server.no_relevant_information question docId
                           [] None))
           else
             let context :=
               Server.join (str " ") (imap Server.excerpt relevantChunks) in
             let prompt := Server.make_prompt context question in
             answer ← perform (GenerateContent prompt) (generateContent prompt);
             mret (Response 200
                     (AnswerBody answer question docId
                        (imap Server.source relevantChunks)
                        (Some {| Details.model := str "gemini-3-pro-preview";
                                 Details.promptLength := JsString.length prompt;
                                 Details.chunksUsed :=
                                   Z.of_nat (length relevantChunks);
                                 Details.version := str "6.0 - Optimized" |})))
       end)
    (fun message =>
       mret (Response 500 (ErrorBody (str "Failed to answer: " ++ message)))).
End Collaborators.
End AskRoute.

(** The answer of [/api/ask] to a failure inside its [try]. *)
Definition failed_to_answer (message : jsstring) : response :=
  Response 500 (ErrorBody (str "Failed to answer: " ++ message)).

(** The calls of [/api/ask] once the document [docId] is found: the
    lookup and the embedding of the question, then the vector search, the
    brute-force search if the former failed, and the chat model, each at
    most once, in this order, and none after one that was not made. *)
Definition ask_calls (docId question : jsstring) (cs : list call) : Prop :=
  exists searches generation,
    cs = FindDocument docId :: EmbedContent question :: searches ++ generation
    /\ (searches = [] \/ searches = [VectorSearch docId]
        \/ searches = [VectorSearch docId; FindVectors docId])
    /\ (generation = []
        \/ exists prompt,
             searches <> [] /\ generation = [GenerateContent prompt]).

(** An entry of [sources] as the route builds it: a preview of at most
    303 characters and a similarity that is a number. *)
Definition source_well_formed (s : Source.t) : Prop :=
  JsString.length (Source.text s) <= 303
  /\ PrimFloat.is_nan (Source.similarity s) = false.

(** The prompt [/api/ask] sends to the chat model for the chunks
    retrieved. *)
Definition prompt_for (chunks : list ScoredChunk.t) (question : jsstring)
  : jsstring :=
  Server.make_prompt (Server.join (str " ") (imap Server.excerpt chunks)) question.

(** A collection of 50 records of the document [d]. *)
Definition fifty_records : list VectorRecord.t := repeat half_record 50.

(** Collections that hold the document [d] and return one chunk of it
    from the vector search. *)
Definition findOne_d (_ : jsstring) : outcome (option DocumentRecord.t) :=
  Return (Some document_d).
Definition aggregate_one (_ : vector) (_ _ : Z) (_ : jsstring)
  : outcome (list ScoredChunk.t) :=
  Return [ScoredChunk.mk (str "match") metadata_of_page_1 1%float].
Definition find_nothing (_ : jsstring) : outcome (list VectorRecord.t) :=
  Return [].

(** * Properties *)

(** ** The string and array operations on concrete inputs *)

Example split_on_blank_lines :
  JsString.split (str "a" ++ [10; 10; 10]%N ++ str "b" ++ [10]%N ++ str "c"
                  ++ [10; 10]%N)
  = [str "a"; str "b" ++ [10]%N ++ str "c"; []].
Proof. reflexivity. Qed.

Example split_empty : JsString.split [] = [[]].
Proof. reflexivity. Qed.

Example trim_both_ends :
  JsString.trim (str "  a b " ++ [10]%N) = str "a b".
Proof. reflexivity. Qed.

Example indexOf_first_occurrence :
  JsString.indexOf (str "abcabc") (str "ca") = 2
  /\ JsString.indexOf (str "abc") (str "d") = -1.
Proof. split; reflexivity. Qed.

Example slice_from_the_end :
  JsString.slice_from (str "abcdef") (-2) = str "ef"
  /\ JsString.slice_from (str "ab") (-5) = str "ab"
  /\ JsString.slice_from (str "ab") 0 = str "ab".
Proof. repeat split; reflexivity. Qed.

Example slice_to_negative_end :
  JsArray.slice_to [1; 2; 3] 2 = [1; 2]
  /\ JsArray.slice_to [1; 2; 3] 5 = [1; 2; 3]
  /\ JsArray.slice_to [1; 2; 3] (-1) = [1; 2].
Proof. repeat split; reflexivity. Qed.

(** The scenario of the specification: the two short paragraphs of a page
    end up in one chunk with the paragraph range ["1-2"]. *)
Example two_short_paragraphs :
  map (fun c => (Chunk.text c, Metadata.paragraphRange (Chunk.metadata c)))
    (Chunker.splitIntoChunksWithMetadata
       Chunker.defaultChunkSize Chunker.defaultOverlap
       [Page.mk 1 (str "Intro." ++ JsString.blank_line ++ str "Body text here.")
          0 23])
  = [(str "Intro." ++ JsString.blank_line ++ str "Body text here.",
      ParagraphSpan 1 2)].
Proof. vm_compute. reflexivity. Qed.

(** ** The chunker *)

Module ChunkerFacts.
Import Chunker.

Lemma trimStart_length s :
  JsString.length (JsString.trimStart s) <= JsString.length s.
Proof.
  unfold JsString.length.
  induction s as [|c s IH]; simpl; [lia|].
  destruct (JsString.is_white_space c); simpl; lia.
Qed.

Lemma trim_length s : JsString.length (JsString.trim s) <= JsString.length s.
Proof.
  unfold JsString.trim, JsString.trimEnd.
  pose proof (trimStart_length s) as H1.
  pose proof (trimStart_length (rev (JsString.trimStart s))) as H2.
  unfold JsString.length in *.
  rewrite length_rev in *. lia.
Qed.

Lemma save_chunk_emitted pageNumber lastParagraph st :
  emitted (allChunks st) (globalChunkIndex st) ->
  emitted (allChunks (save_chunk pageNumber lastParagraph st))
          (globalChunkIndex (save_chunk pageNumber lastParagraph st)).
Proof.
  intros H. unfold save_chunk.
  destruct (0 <? _); simpl; [|exact H].
  now apply emitted_push.
Qed.

Lemma step_emitted chunkSize overlap pg st paragraph :
  emitted (allChunks st) (globalChunkIndex st) ->
  emitted (allChunks (step chunkSize overlap pg st paragraph))
          (globalChunkIndex (step chunkSize overlap pg st paragraph)).
Proof.
  intros H. unfold step.
  destruct (chunkSize <? _).
  - match goal with |- context [save_chunk ?a ?b ?s] =>
      pose proof (save_chunk_emitted a b s H) as Hs;
      destruct (overlap <? JsString.length (currentChunk (save_chunk a b s)))
    end; simpl; exact Hs.
  - destruct (0 <? _); simpl; exact H.
Qed.

Lemma fold_step_emitted chunkSize overlap pg paragraphs st :
  emitted (allChunks st) (globalChunkIndex st) ->
  let st' := fold_left (step chunkSize overlap pg) paragraphs st in
  emitted (allChunks st') (globalChunkIndex st').
Proof.
  revert st. induction paragraphs as [|p ps IH]; intros st H; simpl; [exact H|].
  apply IH. now apply step_emitted.
Qed.

Lemma process_page_emitted chunkSize overlap acc pg :
  emitted (fst acc) (snd acc) ->
  let acc' := process_page chunkSize overlap acc pg in
  emitted (fst acc') (snd acc').
Proof.
  intros H. unfold process_page. simpl.
  apply save_chunk_emitted. apply fold_step_emitted. simpl. exact H.
Qed.

Lemma pages_emitted chunkSize overlap pages acc :
  emitted (fst acc) (snd acc) ->
  let acc' := fold_left (process_page chunkSize overlap) pages acc in
  emitted (fst acc') (snd acc').
Proof.
  revert acc. induction pages as [|pg pgs IH]; intros acc H; simpl; [exact H|].
  apply IH. now apply process_page_emitted.
Qed.

Lemma split_emitted chunkSize overlap pages :
  exists n, emitted (splitIntoChunksWithMetadata chunkSize overlap pages) n.
Proof.
  eexists. unfold splitIntoChunksWithMetadata.
  apply (pages_emitted chunkSize overlap pages ([], 0)). constructor.
Qed.

Lemma emitted_counter cs i : emitted cs i -> i = Z.of_nat (length cs).
Proof.
  induction 1 as [|cs i pn st lp _ IH _]; [reflexivity|].
  rewrite length_app. simpl. lia.
Qed.

Lemma emitted_indices cs i :
  emitted cs i -> Chunk.chunkIndex <$> cs = seqZ 0 (Z.of_nat (length cs)).
Proof.
  induction 1 as [|cs i pn st lp He IH Hi]; [reflexivity|].
  rewrite fmap_app, IH, length_app. simpl length.
  rewrite Nat.add_1_r, seqZ_S. simpl.
  rewrite Hi, (emitted_counter _ _ He). reflexivity.
Qed.

Lemma emitted_Forall (P : Chunk.t -> Prop) cs i :
  (forall pageNumber st lastParagraph, P (make_chunk pageNumber st lastParagraph)) ->
  emitted cs i -> Forall P cs.
Proof.
  intros HP. induction 1; [constructor|].
  apply Forall_app. split; [assumption|]. constructor; [apply HP|constructor].
Qed.

End ChunkerFacts.

(** The character spans of a chunk sequence, in emission order. *)
Lemma spans_within_page pg cs :
  Forall (span_within_page pg) cs ->
  Forall (fun e => e <= Page.endChar pg)
    (map (fun c => Metadata.endChar (Chunk.metadata c)) cs).
Proof.
  induction 1 as [|c cs Hc _ IH]; simpl; constructor; [|exact IH].
  destruct Hc as (_ & _ & _ & H). exact H.
Qed.

(** C1, on the code: with the default [chunkSize = 1000] and
    [overlap = 200], a page of 1003 characters (offsets 0 to 1003) made of a
    paragraph of 201 characters and one of 800 characters yields two chunks
    with the spans [0, 201] and [2, 1004]: the second chunk, seeded with the
    overlap of the first, ends after the last character of its page. *)
Theorem overlap_chunk_span_leaves_page :
  map (fun c => (Metadata.startChar (Chunk.metadata c),
                 Metadata.endChar (Chunk.metadata c)))
    (Chunker.splitIntoChunksWithMetadata
       Chunker.defaultChunkSize Chunker.defaultOverlap [page_201_800])
  = [(0, 201); (2, 1004)]
  /\ ~ Forall (span_within_page page_201_800)
       (Chunker.splitIntoChunksWithMetadata
          Chunker.defaultChunkSize Chunker.defaultOverlap [page_201_800]).
Proof.
  split; [vm_compute; reflexivity|].
  intros H. apply spans_within_page in H.
  assert (E : map (fun c => Metadata.endChar (Chunk.metadata c))
                (Chunker.splitIntoChunksWithMetadata
                   Chunker.defaultChunkSize Chunker.defaultOverlap [page_201_800])
              = [201; 1004]) by (vm_compute; reflexivity).
  rewrite E in H. inversion H as [|? ? _ H']. inversion H' as [|? ? Hle _].
  simpl in Hle. lia.
Qed.

(** The same on the smallest input: the page [ab], blank line, [c] at
    offsets 0 to 5, with [chunkSize = 2] and [overlap = 1], gives the spans
    [0, 2] and [2, 6]. *)
Example overlap_chunk_span_small :
  map (fun c => (Chunk.text c, Metadata.startChar (Chunk.metadata c),
                 Metadata.endChar (Chunk.metadata c)))
    (Chunker.splitIntoChunksWithMetadata 2 1 [page_ab_c])
  = [(str "ab", 0, 2);
     (str "b" ++ JsString.blank_line ++ str "c", 2, 6)].
Proof. vm_compute. reflexivity. Qed.

(** Where the span of an overlap-seeded chunk comes from: whenever a chunk
    is cut and [0 < overlap < currentChunk.length], the new start offset is
    the previous one plus 2, whatever the lengths of the buffer, of the
    overlap and of the paragraph are. *)
Lemma overlap_start_is_previous_plus_2 chunkSize overlap pg st paragraph :
  chunkSize < JsString.length (Chunker.currentChunk st) + JsString.length paragraph ->
  0 < overlap < JsString.length (Chunker.currentChunk st) ->
  Chunker.chunkStartChar (Chunker.step chunkSize overlap pg st paragraph)
  = Chunker.chunkStartChar st + 2.
Proof.
  intros Hcut Hov. unfold Chunker.step.
  apply Z.ltb_lt in Hcut. rewrite Hcut.
  assert (Hsave : forall pn lp s,
             Chunker.currentChunk (Chunker.save_chunk pn lp s) = Chunker.currentChunk s
             /\ Chunker.chunkStartChar (Chunker.save_chunk pn lp s)
                = Chunker.chunkStartChar s).
  { intros pn lp s. unfold Chunker.save_chunk. destruct (0 <? _); split; reflexivity. }
  match goal with |- context [Chunker.save_chunk ?a ?b ?s] =>
    destruct (Hsave a b s) as [Hc Hs]; rewrite !Hc, !Hs
  end.
  cbn [Chunker.currentChunk Chunker.chunkStartChar].
  destruct (Z.ltb_spec overlap (JsString.length (Chunker.currentChunk st))); [|lia].
  cbn [Chunker.chunkStartChar].
  unfold JsString.slice_from, JsString.length in *.
  destruct (Z.ltb_spec (- overlap) 0); [|lia].
  rewrite !length_app, length_drop. cbn [length JsString.blank_line]. lia.
Qed.

(** The part of the span invariant that holds of every chunk: the start
    offset is at most the end offset. *)
Lemma startChar_le_endChar chunkSize overlap pages :
  Forall (fun c => Metadata.startChar (Chunk.metadata c)
                   <= Metadata.endChar (Chunk.metadata c))
    (Chunker.splitIntoChunksWithMetadata chunkSize overlap pages).
Proof.
  destruct (ChunkerFacts.split_emitted chunkSize overlap pages) as [n Hn].
  eapply ChunkerFacts.emitted_Forall; [|exact Hn].
  intros pn st lp. simpl. unfold JsString.length. lia.
Qed.

(** C2 as stated fails: the only chunk of a page whose text is a space
    followed by [a] has the text [a], of length 1, and [chunkLength = 2]. *)
Lemma chunkLength_text_length_counterexample :
  ~ Forall chunkLength_is_text_length
      (Chunker.splitIntoChunksWithMetadata
         Chunker.defaultChunkSize Chunker.defaultOverlap [page_space_a]).
Proof.
  intros H. vm_compute in H. inversion H as [|? ? Hc _]. discriminate Hc.
Qed.

(** C8: the [chunkIndex] values of the chunks of one call, in emission
    order, are 0, 1, 2, ... up to the number of chunks, whatever the pages
    they come from. *)
Theorem chunkIndex_counts_from_zero chunkSize overlap pages :
  Chunk.chunkIndex <$> Chunker.splitIntoChunksWithMetadata chunkSize overlap pages
  = seqZ 0 (Z.of_nat
              (length (Chunker.splitIntoChunksWithMetadata chunkSize overlap pages))).
Proof.
  destruct (ChunkerFacts.split_emitted chunkSize overlap pages) as [n Hn].
  exact (ChunkerFacts.emitted_indices _ _ Hn).
Qed.

(** Two pages: the counter is not reset at the page boundary. *)
Example chunkIndex_two_pages :
  map (fun c => (Metadata.page (Chunk.metadata c), Chunk.chunkIndex c))
    (Chunker.splitIntoChunksWithMetadata 2 1
       [page_ab_c; Page.mk 2 (str "de") 5 7])
  = [(1, 0); (1, 1); (2, 2)].
Proof. vm_compute. reflexivity. Qed.

(** ** Binary64 arithmetic

    Facts about the specification of IEEE 754 operations of the standard
    library, for any precision, and then about the primitive floats. *)

Module SpecFacts.
Section Format.
Variables prec emax : Z.
Hypothesis prec_pos : 0 < prec.

Lemma iter_pos_iter {A : Type} (f : A -> A) (n : positive) (x : A) :
  SpecFloat.iter_pos f n x = Nat.iter (Pos.to_nat n) f x.
Proof.
  revert x. induction n as [n IH|n IH|]; intros x; cbn [SpecFloat.iter_pos].
  - rewrite !IH. change (f x) with (Nat.iter 1 f x).
    rewrite <- !Nat.iter_add. f_equal. lia.
  - rewrite !IH, <- Nat.iter_add. f_equal. lia.
  - reflexivity.
Qed.

Lemma digits2_pos_bounds (m : positive) :
  2 ^ (Zpos (digits2_pos m) - 1) <= Zpos m < 2 ^ Zpos (digits2_pos m).
Proof.
  induction m as [m IH|m IH|]; simpl digits2_pos.
  - rewrite Pos2Z.inj_succ.
    replace (Z.succ (Z.pos (digits2_pos m)) - 1)
      with (Z.succ (Z.pos (digits2_pos m) - 1)) by lia.
    rewrite !Z.pow_succ_r by lia. lia.
  - rewrite Pos2Z.inj_succ.
    replace (Z.succ (Z.pos (digits2_pos m)) - 1)
      with (Z.succ (Z.pos (digits2_pos m) - 1)) by lia.
    rewrite !Z.pow_succ_r by lia. lia.
  - simpl. lia.
Qed.

(** Shifting a mantissa of [d] digits to the right by fewer than [d] places
    leaves a positive mantissa. *)
Lemma shr_1_pos mrs p :
  shr_m mrs = Zpos p -> (1 < digits2_pos p)%positive ->
  exists q, shr_m (shr_1 mrs) = Zpos q /\ Pos.succ (digits2_pos q) = digits2_pos p.
Proof.
  destruct mrs as [m r s]. simpl. intros -> Hd.
  destruct p as [p|p|]; simpl in *; [eexists; split; reflexivity..|lia].
Qed.

Lemma shr_iter_pos k : forall mrs p,
  shr_m mrs = Zpos p -> (k < Pos.to_nat (digits2_pos p))%nat ->
  exists q, shr_m (Nat.iter k shr_1 mrs) = Zpos q
            /\ (Pos.to_nat (digits2_pos q) + k = Pos.to_nat (digits2_pos p))%nat.
Proof.
  induction k as [|k IH]; intros mrs p Hm Hk.
  - exists p. simpl. split; [assumption|lia].
  - destruct (IH mrs p Hm) as (q & Hq & Hd); [lia|].
    destruct (shr_1_pos _ q Hq) as (q' & Hq' & Hd'); [lia|].
    exists q'. simpl. split; [assumption|]. lia.
Qed.

Lemma shr_m_of_loc m l : shr_m (shr_record_of_loc m l) = m.
Proof. destruct l as [|[]]; reflexivity. Qed.

(** At an exponent of at least [emin], the shift to the canonical exponent
    is by fewer places than the mantissa has digits. *)
Lemma shr_fexp_pos p e l :
  SpecFloat.emin prec emax <= e ->
  exists q, shr_m (fst (shr_fexp prec emax (Zpos p) e l)) = Zpos q
            /\ SpecFloat.emin prec emax <= snd (shr_fexp prec emax (Zpos p) e l).
Proof.
  intros He. unfold shr_fexp, shr. simpl Zdigits2.
  assert (Hn : fexp prec emax (Zpos (digits2_pos p) + e) - e
               <= Zpos (digits2_pos p) - prec
               \/ fexp prec emax (Zpos (digits2_pos p) + e) - e <= 0).
  { unfold fexp. lia. }
  destruct (fexp prec emax (Zpos (digits2_pos p) + e) - e) as [|n|n]; simpl.
  - exists p. split; [apply shr_m_of_loc|assumption].
  - rewrite iter_pos_iter.
    destruct (shr_iter_pos (Pos.to_nat n) (shr_record_of_loc (Zpos p) l) p)
      as (q & Hq & _); [apply shr_m_of_loc|lia|].
    exists q. split; [assumption|lia].
  - exists p. split; [apply shr_m_of_loc|assumption].
Qed.

Lemma round_nearest_even_pos p l :
  exists q, round_nearest_even (Zpos p) l = Zpos q.
Proof.
  destruct l as [|[]]; simpl; try (eexists; reflexivity).
  destruct p; simpl; eexists; reflexivity.
Qed.

(** Rounding a non-zero mantissa at an exponent of at least [emin] gives a
    finite non-zero or an infinite float of the same sign: with subnormal
    numbers, nothing non-zero is rounded to zero. *)
Lemma binary_round_aux_signed s p e l :
  SpecFloat.emin prec emax <= e ->
  signed s (binary_round_aux prec emax s (Zpos p) e l).
Proof.
  intros He. unfold binary_round_aux.
  destruct (shr_fexp_pos p e l He) as (q & Hq & He').
  destruct (shr_fexp prec emax (Zpos p) e l) as [mrs' e']. simpl in Hq, He'.
  rewrite Hq.
  destruct (round_nearest_even_pos q (loc_of_shr_record mrs')) as (q' & ->).
  destruct (shr_fexp_pos q' e' loc_Exact He') as (q'' & Hq'' & _).
  destruct (shr_fexp prec emax (Zpos q') e' loc_Exact) as [mrs'' e'']. simpl in Hq''.
  rewrite Hq''. destruct (e'' <=? emax - prec); reflexivity.
Qed.

Lemma binary_round_signed s p e :
  SpecFloat.emin prec emax <= e -> signed s (binary_round prec emax s p e).
Proof.
  intros He. unfold binary_round, shl_align.
  assert (SpecFloat.emin prec emax <= fexp prec emax (Zpos (digits2_pos p) + e))
    by (unfold fexp; lia).
  destruct (fexp prec emax (Zpos (digits2_pos p) + e) - e);
    apply binary_round_aux_signed; assumption.
Qed.

Lemma binary_normalize_sign m e :
  SpecFloat.emin prec emax <= e ->
  match m with
  | Z0 => binary_normalize prec emax m e false = S754_zero false
  | Zpos _ => signed false (binary_normalize prec emax m e false)
  | Zneg _ => signed true (binary_normalize prec emax m e false)
  end.
Proof.
  intros He. destruct m; simpl; [reflexivity|now apply binary_round_signed..].
Qed.

Lemma iter_xO_value m d : Zpos (Pos.iter xO m d) = Zpos m * 2 ^ Zpos d.
Proof.
  induction d as [|d IH] using Pos.peano_ind.
  - simpl. lia.
  - rewrite Pos.iter_succ, Pos2Z.inj_xO, IH, Pos2Z.inj_succ, Z.pow_succ_r; lia.
Qed.

Lemma shl_align_value m e ez :
  ez <= e -> Zpos (fst (shl_align m e ez)) = Zpos m * 2 ^ (e - ez).
Proof.
  intros H. unfold shl_align.
  destruct (ez - e) as [|d|d] eqn:E; cbn [fst]; try lia.
  - replace (e - ez) with 0 by lia. lia.
  - replace (e - ez) with (Zpos d) by lia. apply iter_xO_value.
Qed.

Lemma bounded_emin m e :
  SpecFloat.bounded prec emax m e = true -> SpecFloat.emin prec emax <= e.
Proof.
  unfold SpecFloat.bounded, canonical_mantissa, fexp. intros H.
  apply andb_prop in H as [H _]. apply Z.eqb_eq in H. lia.
Qed.

(** Of two canonical floats, the one with the smaller exponent has the
    smaller magnitude. *)
Lemma bounded_lt m e m' e' :
  SpecFloat.bounded prec emax m e = true ->
  SpecFloat.bounded prec emax m' e' = true ->
  e < e' -> Zpos m < Zpos m' * 2 ^ (e' - e).
Proof.
  intros H H' Hlt.
  pose proof (bounded_emin _ _ H) as Hmin.
  unfold SpecFloat.bounded, canonical_mantissa, fexp in H, H'.
  apply andb_prop in H as [H _]. apply Z.eqb_eq in H.
  apply andb_prop in H' as [H' _]. apply Z.eqb_eq in H'.
  pose proof (digits2_pos_bounds m) as [_ Hm].
  pose proof (digits2_pos_bounds m') as [Hm' _].
  assert (Hd' : Zpos (digits2_pos m') = prec) by lia.
  assert (Hd : Zpos (digits2_pos m) <= prec) by lia.
  rewrite Hd' in Hm'.
  assert (2 ^ Zpos (digits2_pos m) <= 2 ^ prec) by (apply Z.pow_le_mono_r; lia).
  assert (2 ^ 1 <= 2 ^ (e' - e)) by (apply Z.pow_le_mono_r; lia).
  assert (2 ^ prec = 2 ^ (prec - 1) * 2 ^ 1).
  { rewrite <- Z.pow_add_r by lia. f_equal. lia. }
  assert (0 < 2 ^ (prec - 1)) by (apply Z.pow_pos_nonneg; lia).
  nia.
Qed.

Lemma SFltb_zero_signed f :
  signed false f -> SFltb (S754_zero false) f = true.
Proof. destruct f as [|s| |s m e]; simpl; intros H; now subst. Qed.

Lemma SFltb_zero_signed_neg f :
  signed true f -> SFltb (S754_zero false) f = false.
Proof. destruct f as [|s| |s m e]; simpl; intros H; now subst. Qed.

Lemma SFltb_zero_normalize m e :
  SpecFloat.emin prec emax <= e ->
  SFltb (S754_zero false) (binary_normalize prec emax m e false) = (0 <? m).
Proof.
  intros He. pose proof (binary_normalize_sign m e He) as H.
  destruct m.
  - rewrite H. reflexivity.
  - now apply SFltb_zero_signed.
  - now apply SFltb_zero_signed_neg.
Qed.

(** The rounded difference [y - x] of two finite floats is positive
    exactly when [x < y]. *)
Lemma SFsub_finite_pos sx mx ex sy my ey :
  SpecFloat.bounded prec emax mx ex = true ->
  SpecFloat.bounded prec emax my ey = true ->
  SFltb (S754_zero false)
    (SFsub prec emax (S754_finite sy my ey) (S754_finite sx mx ex))
  = SFltb (S754_finite sx mx ex) (S754_finite sy my ey).
Proof.
  intros Hx Hy. cbn [SFsub].
  pose proof (bounded_emin _ _ Hx). pose proof (bounded_emin _ _ Hy).
  rewrite SFltb_zero_normalize by lia.
  rewrite !shl_align_value by lia.
  unfold SFltb, SFcompare.
  pose proof (Pos2Z.is_pos mx). pose proof (Pos2Z.is_pos my).
  destruct (Z.compare_spec ex ey) as [E|E|E].
  - subst ey. rewrite Z.min_id, Z.sub_diag, Z.pow_0_r, !Z.mul_1_r.
    rewrite Pos.compare_cont_spec. unfold Pos.switch_Eq.
    destruct sx, sy; cbn [cond_Zopp]; destruct (Pos.compare_spec mx my);
      solve_ltb.
  - pose proof (bounded_lt _ _ _ _ Hx Hy E).
    rewrite Z.min_r, Z.sub_diag, Z.pow_0_r, Z.mul_1_r by lia.
    assert (0 < Zpos my * 2 ^ (ey - ex)) by lia.
    destruct sx, sy; cbn [cond_Zopp]; solve_ltb.
  - pose proof (bounded_lt _ _ _ _ Hy Hx E).
    rewrite Z.min_l, Z.sub_diag, Z.pow_0_r, Z.mul_1_r by lia.
    assert (0 < Zpos mx * 2 ^ (ex - ey)) by lia.
    destruct sx, sy; cbn [cond_Zopp]; solve_ltb.
Qed.

Lemma SFsub_pos x y :
  SpecFloat.valid_binary prec emax x = true ->
  SpecFloat.valid_binary prec emax y = true ->
  SFltb (S754_zero false) (SFsub prec emax y x) = SFltb x y.
Proof.
  intros Hx Hy.
  destruct x as [sx|sx| |sx mx ex], y as [sy|sy| |sy my ey];
    try (now apply SFsub_finite_pos);
    try (destruct sx); try (destruct sy); reflexivity.
Qed.

Lemma SFcompare_antisym x y :
  SFcompare y x = option_map CompOpp (SFcompare x y).
Proof.
  destruct x as [sx|sx| |sx mx ex], y as [sy|sy| |sy my ey];
    try (destruct sx); try (destruct sy); try reflexivity; simpl;
    rewrite (Z.compare_antisym ex ey); destruct (ex ?= ey); simpl; try reflexivity;
    rewrite (Pos.compare_cont_antisym mx my Eq); simpl;
    try rewrite CompOpp_involutive; reflexivity.
Qed.

Lemma SFmul_comm x y : SFmul prec emax x y = SFmul prec emax y x.
Proof.
  destruct x as [sx|sx| |sx mx ex], y as [sy|sy| |sy my ey]; simpl;
    try rewrite (xorb_comm sx sy); try reflexivity.
  now rewrite Pos.mul_comm, Z.add_comm.
Qed.

End Format.
End SpecFacts.

Module Binary64.
Local Open Scope float_scope.

Lemma prec_pos : (0 < prec)%Z.
Proof. reflexivity. Qed.

Lemma mul_comm x y : x * y = y * x.
Proof.
  apply Prim2SF_inj. rewrite !FloatAxioms.mul_spec. apply SpecFacts.SFmul_comm.
Qed.

(** The sign of the comparator [y - x] tells whether [x < y]: a
    difference of two floats is never rounded to zero. *)
Lemma sub_pos x y : (0 <? y - x) = (x <? y).
Proof.
  rewrite !FloatAxioms.ltb_spec, FloatAxioms.sub_spec.
  change (Prim2SF 0) with (S754_zero false).
  apply (SpecFacts.SFsub_pos prec emax prec_pos); apply Prim2SF_valid.
Qed.

Lemma is_nan_spec x : is_nan x = false -> Prim2SF x <> S754_nan.
Proof.
  unfold is_nan. rewrite FloatAxioms.eqb_spec. intros H E. rewrite E in H.
  discriminate H.
Qed.

(** On floats other than [NaN] the order is total. *)
Lemma ltb_leb x y : (x <? y) = true -> (x <=? y) = true.
Proof.
  rewrite FloatAxioms.ltb_spec, FloatAxioms.leb_spec. unfold SFltb, SFleb.
  destruct (SFcompare (Prim2SF x) (Prim2SF y)) as [[]|]; congruence.
Qed.

Lemma SFcompare_some x y :
  x <> S754_nan -> y <> S754_nan -> exists c, SFcompare x y = Some c.
Proof.
  destruct x as [sx|sx| |sx mx ex], y as [sy|sy| |sy my ey]; intros Hx Hy;
    try congruence; simpl; eexists; reflexivity.
Qed.

Lemma nltb_leb x y :
  is_nan x = false -> is_nan y = false -> (x <? y) = false -> (y <=? x) = true.
Proof.
  intros Hx Hy. apply is_nan_spec in Hx, Hy.
  rewrite FloatAxioms.ltb_spec, FloatAxioms.leb_spec. unfold SFltb, SFleb.
  rewrite (SpecFacts.SFcompare_antisym (Prim2SF x) (Prim2SF y)).
  destruct (SFcompare_some _ _ Hx Hy) as [c ->]. destruct c; simpl; congruence.
Qed.

(** Sums, products, square roots and quotients of zeros. *)
Lemma zero_or_nan_zero : zero_or_nan 0.
Proof. exact I. Qed.

Lemma is_zero_zero_or_nan x : is_zero x = true -> zero_or_nan x.
Proof.
  unfold is_zero, zero_or_nan. rewrite FloatAxioms.eqb_spec.
  change (Prim2SF zero) with (S754_zero false).
  destruct (Prim2SF x) as [s|s| |s m e]; try destruct s; simpl;
    try trivial; discriminate.
Qed.

Lemma zero_or_nan_mul x y : zero_or_nan x -> zero_or_nan (x * y).
Proof.
  unfold zero_or_nan. rewrite FloatAxioms.mul_spec. unfold SF64mul.
  destruct (Prim2SF x) as [sx|sx| |sx mx ex], (Prim2SF y) as [sy|sy| |sy my ey];
    simpl; tauto.
Qed.

Lemma zero_or_nan_add x y : zero_or_nan x -> zero_or_nan y -> zero_or_nan (x + y).
Proof.
  unfold zero_or_nan. rewrite FloatAxioms.add_spec. unfold SF64add.
  destruct (Prim2SF x) as [sx|sx| |sx mx ex], (Prim2SF y) as [sy|sy| |sy my ey];
    simpl; try tauto; destruct sx, sy; tauto.
Qed.

Lemma zero_or_nan_sqrt x : zero_or_nan x -> zero_or_nan (PrimFloat.sqrt x).
Proof.
  unfold zero_or_nan. rewrite FloatAxioms.sqrt_spec. unfold SF64sqrt.
  destruct (Prim2SF x) as [sx|sx| |sx mx ex]; simpl; tauto.
Qed.

Lemma zero_or_nan_div x y : zero_or_nan x -> zero_or_nan y -> x / y = nan.
Proof.
  unfold zero_or_nan. intros Hx Hy. apply Prim2SF_inj.
  rewrite FloatAxioms.div_spec. unfold SF64div.
  change (Prim2SF nan) with S754_nan.
  destruct (Prim2SF x) as [sx|sx| |sx mx ex], (Prim2SF y) as [sy|sy| |sy my ey];
    simpl; trivial; contradiction.
Qed.

End Binary64.

(** ** Rounding in [sqrt], [*] and [/]

    What [sqrt n], [sqrt n * sqrt n] and [n / (sqrt n * sqrt n)] are for a
    positive finite [n], from the specification of the three operations:
    mantissas and exponents as integers, and the rounding to nearest of
    each operation as a bound on integers. *)

Module RoundingFacts.

Lemma digits_unique (m : positive) d :
  2 ^ (d - 1) <= Zpos m < 2 ^ d -> Zpos (digits2_pos m) = d.
Proof.
  intros [Hlo Hhi]. pose proof (SpecFacts.digits2_pos_bounds m) as [Hlo' Hhi'].
  set (d' := Zpos (digits2_pos m)) in *.
  assert (0 < d).
  { destruct d as [|d|d]; [simpl in Hhi; lia|lia|].
    rewrite (Z.pow_neg_r 2 (Z.neg d)) in Hhi by lia. lia. }
  destruct (Z.lt_trichotomy d' d) as [Hlt|[Heq|Hgt]]; [|assumption|].
  - assert (2 ^ d' <= 2 ^ (d - 1)) by (apply Z.pow_le_mono_r; lia). lia.
  - assert (2 ^ d <= 2 ^ (d' - 1)) by (apply Z.pow_le_mono_r; lia). lia.
Qed.

Lemma shr_1_m mrs : 0 <= shr_m mrs -> shr_m (shr_1 mrs) = shr_m mrs / 2.
Proof.
  destruct mrs as [m r s]. cbn [shr_m]. intros Hm.
  destruct m as [|[p|p|]|p]; cbn [shr_1 shr_m]; try lia; try reflexivity.
  - rewrite Pos2Z.inj_xI. apply Z.div_unique with (r := 1); lia.
  - rewrite Pos2Z.inj_xO. apply Z.div_unique with (r := 0); lia.
Qed.

Lemma shr_iter_m k : forall mrs,
  0 <= shr_m mrs ->
  shr_m (Nat.iter k shr_1 mrs) = shr_m mrs / 2 ^ Z.of_nat k.
Proof.
  induction k as [|k IH]; intros mrs Hm.
  - cbn. now rewrite Z.div_1_r.
  - change (Nat.iter (S k) shr_1 mrs) with (shr_1 (Nat.iter k shr_1 mrs)).
    rewrite shr_1_m.
    + rewrite IH by assumption. rewrite Z.div_div by lia.
      f_equal. rewrite Nat2Z.inj_succ, Z.pow_succ_r; lia.
    + rewrite IH by assumption. apply Z.div_pos; lia.
Qed.

Lemma round_nearest_even_cases m l :
  round_nearest_even m l = m \/ round_nearest_even m l = m + 1.
Proof. destruct l as [|[]]; cbn; try tauto. destruct (Z.even m); tauto. Qed.

Lemma loc_of_shr_record_of_loc m l :
  loc_of_shr_record (shr_record_of_loc m l) = l.
Proof. destruct l as [|[]]; reflexivity. Qed.

Lemma shr_iter mrs e n :
  0 <= n -> shr mrs e n = (Nat.iter (Z.to_nat n) shr_1 mrs, e + n).
Proof.
  intros Hn. destruct n as [|p|p]; [| |lia]; cbn [shr].
  - now rewrite Z.add_0_r.
  - now rewrite SpecFacts.iter_pos_iter.
Qed.

Lemma shr_none mrs e n : n <= 0 -> shr mrs e n = (mrs, e).
Proof. intros Hn. destruct n as [|p|p]; [reflexivity|lia|reflexivity]. Qed.

Lemma shifted_shr_1 M k mrs :
  0 <= shr_m mrs -> shifted M k mrs -> shifted M (S k) (shr_1 mrs).
Proof.
  intros Hm (t & HM & Ht & Hs).
  destruct mrs as [m r s]. cbn [shr_m shr_r shr_s] in *. unfold shifted.
  rewrite Nat2Z.inj_succ, Z.pow_succ_r by lia.
  set (P := 2 ^ Z.of_nat k) in *.
  exists (Z.b2z r * P + t).
  assert (0 < P) by (apply Z.pow_pos_nonneg; lia).
  destruct m as [|[p|p|]|p]; try lia; cbn [shr_1 shr_m shr_r shr_s];
    destruct r, s; cbn [Z.b2z orb] in *;
    repeat split; try lia; try discriminate; try tauto;
    try (intros ->; destruct Hs as [_ Hs]; specialize (Hs eq_refl); discriminate);
    try (destruct Hs as [Hs _]; specialize (Hs eq_refl); lia).
Qed.

Lemma shifted_iter M k : forall mrs,
  0 <= shr_m mrs -> shifted M 0 mrs -> shifted M k (Nat.iter k shr_1 mrs).
Proof.
  induction k as [|k IH]; intros mrs Hm H; [exact H|].
  change (Nat.iter (S k) shr_1 mrs) with (shr_1 (Nat.iter k shr_1 mrs)).
  apply shifted_shr_1; [|now apply IH].
  rewrite shr_iter_m by assumption. apply Z.div_pos; lia.
Qed.

Lemma shifted_exact M : shifted M 0 (Build_shr_record M false false).
Proof. exists 0. cbn. repeat split; lia. Qed.

(** Rounding to nearest: twice the rounded mantissa is within one of twice
    the exact quotient. *)
Lemma shifted_nearest M k mrs :
  shifted M k mrs ->
  let m2 := round_nearest_even (shr_m mrs) (loc_of_shr_record mrs) in
  (2 * m2 - 1) * 2 ^ Z.of_nat k <= 2 * M <= (2 * m2 + 1) * 2 ^ Z.of_nat k.
Proof.
  intros (t & HM & Ht & Hs). destruct mrs as [m r s].
  cbn [shr_m shr_r shr_s] in *.
  set (P := 2 ^ Z.of_nat k) in *.
  assert (0 < P) by (apply Z.pow_pos_nonneg; lia).
  destruct r, s; cbn [Z.b2z loc_of_shr_record round_nearest_even] in *.
  - lia.
  - assert (t = 0) by tauto. destruct (Z.even m); lia.
  - lia.
  - assert (t = 0) by tauto. lia.
Qed.

(** [binary_round_aux] on a mantissa of at least 53 digits: the mantissa is
    shifted to 53 digits (or to the exponent -1074), rounded, and shifted
    once more when the rounding carried to [2^53]. *)
Lemma binary_round_aux_value sx (M : positive) e l :
  let d := Zpos (digits2_pos M) in
  let K := Z.max (d - 53) (-1074 - e) in
  let mrs := Nat.iter (Z.to_nat K) shr_1 (shr_record_of_loc (Zpos M) l) in
  let m2 := round_nearest_even (shr_m mrs) (loc_of_shr_record mrs) in
  53 <= d -> 0 < m2 ->
  exists m3 e3,
    binary_round_aux prec emax sx (Zpos M) e l
    = (if e3 <=? 971 then S754_finite sx m3 e3 else S754_infinity sx)
    /\ Zpos m3 * 2 ^ (e3 - e - K) = m2
    /\ 0 <= e3 - e - K <= 1
    /\ (e3 - e - K = 1 -> m2 = 2 ^ 53)
    /\ Zpos m3 < 2 ^ 53
    /\ (-1074 - e <= d - 53 -> 2 ^ 52 <= Zpos m3).
Proof.
  intros d K mrs m2 Hd Hm2.
  assert (HK : 0 <= K) by lia.
  unfold binary_round_aux, shr_fexp. cbn [Zdigits2]. fold d.
  replace (fexp prec emax (d + e) - e) with K
    by (unfold fexp, SpecFloat.emin, prec, emax; lia).
  rewrite shr_iter by assumption. fold mrs. fold m2.
  assert (Hm1 : shr_m mrs = Zpos M / 2 ^ K).
  { unfold mrs. rewrite shr_iter_m by (rewrite SpecFacts.shr_m_of_loc; lia).
    rewrite SpecFacts.shr_m_of_loc, Z2Nat.id by assumption. reflexivity. }
  pose proof (SpecFacts.digits2_pos_bounds M) as [HMlo HMhi]. fold d in HMlo, HMhi.
  assert (HP : 0 < 2 ^ K) by (apply Z.pow_pos_nonneg; lia).
  assert (Hhi : shr_m mrs < 2 ^ 53).
  { rewrite Hm1. apply Z.div_lt_upper_bound; [assumption|].
    rewrite <- Z.pow_add_r by lia.
    assert (2 ^ d <= 2 ^ (K + 53)) by (apply Z.pow_le_mono_r; lia). lia. }
  assert (Hlo : -1074 - e <= d - 53 -> 2 ^ 52 <= shr_m mrs).
  { intros HKd. rewrite Hm1. apply Z.div_le_lower_bound; [assumption|].
    rewrite <- Z.pow_add_r by lia.
    replace (K + 52) with (d - 1) by lia. assumption. }
  destruct (round_nearest_even_cases (shr_m mrs) (loc_of_shr_record mrs)) as [Hr|Hr];
    fold m2 in Hr.
  - (* no carry *)
    destruct m2 as [|q2|q2] eqn:Eq2; try lia.
    assert (Hd2 : Zpos (digits2_pos q2) <= 53).
    { pose proof (SpecFacts.digits2_pos_bounds q2) as [Hq _].
      destruct (Z.le_gt_cases (Zpos (digits2_pos q2)) 53) as [|Hgt]; [assumption|].
      assert (2 ^ 53 <= 2 ^ (Zpos (digits2_pos q2) - 1))
        by (apply Z.pow_le_mono_r; lia). lia. }
    cbn [Zdigits2]. rewrite shr_none
      by (unfold fexp, SpecFloat.emin, prec, emax; lia).
    cbn [shr_record_of_loc shr_m].
    exists q2, (e + K). change (emax - prec) with 971.
    replace (e + K - e - K) with 0 by lia. rewrite Z.mul_1_r.
    repeat split; try lia.
  - destruct (Z.eq_dec (shr_m mrs + 1) (2 ^ 53)) as [Hc|Hc].
    + (* carry *)
      rewrite Hr, Hc. change (2 ^ 53) with (Zpos (2 ^ 53)%positive).
      cbn [Zdigits2].
      replace (fexp prec emax (Zpos (digits2_pos (2 ^ 53)) + (e + K)) - (e + K))
        with 1 by (change (Zpos (digits2_pos (2 ^ 53))) with 54;
                   unfold fexp, SpecFloat.emin, prec, emax; lia).
      cbn [shr shr_record_of_loc]. change (Z.pos (2 ^ 53)) with (Z.pos (2 ^ 52)~0).
      cbn [SpecFloat.iter_pos shr_1 shr_m].
      exists (2 ^ 52)%positive, (e + K + 1). change (emax - prec) with 971.
      replace (e + K + 1 - e - K) with 1 by lia.
      repeat split; try lia; try reflexivity.
    + destruct m2 as [|q2|q2] eqn:Eq2; try lia.
      assert (Hd2 : Zpos (digits2_pos q2) <= 53).
      { pose proof (SpecFacts.digits2_pos_bounds q2) as [Hq _].
        destruct (Z.le_gt_cases (Zpos (digits2_pos q2)) 53) as [|Hgt]; [assumption|].
        assert (2 ^ 53 <= 2 ^ (Zpos (digits2_pos q2) - 1))
          by (apply Z.pow_le_mono_r; lia). lia. }
      cbn [Zdigits2]. rewrite shr_none
        by (unfold fexp, SpecFloat.emin, prec, emax; lia).
      cbn [shr_record_of_loc shr_m].
      exists q2, (e + K). change (emax - prec) with 971.
      replace (e + K - e - K) with 0 by lia. rewrite Z.mul_1_r.
      repeat split; lia.
Qed.

Lemma bounded_canonical m e :
  SpecFloat.bounded prec emax m e = true ->
  -1074 <= e <= 971
  /\ ((Zpos (digits2_pos m) = 53) \/ (e = -1074 /\ Zpos (digits2_pos m) < 53)).
Proof.
  unfold SpecFloat.bounded, canonical_mantissa, fexp, SpecFloat.emin, prec, emax.
  intros H. apply andb_prop in H as [H1 H2].
  apply Z.eqb_eq in H1. apply Z.leb_le in H2. lia.
Qed.

Lemma pow2_pos k : 0 <= k -> 0 < 2 ^ k.
Proof. intros. apply Z.pow_pos_nonneg; lia. Qed.

(** The square root: the mantissa is shifted to 105 or 106 digits, its
    integer square root [q0] has 53 digits, and the result is [q0] or
    [q0 + 1], whichever is nearer. *)
Lemma SFsqrt_value (m : positive) e :
  SpecFloat.bounded prec emax m e = true ->
  let d := Zpos (digits2_pos m) in
  let e' := (d + e + 1) / 2 - 53 in
  let sh := e - 2 * e' in
  let m' := Zpos m * 2 ^ sh in
  let q0 := Z.sqrt m' in
  exists ms es c,
    SFsqrt prec emax (S754_finite false m e) = S754_finite false ms es
    /\ (c = 0 \/ c = 1)
    /\ (c = 1 <-> q0 < m' - q0 * q0)
    /\ Zpos ms * 2 ^ (es - e') = q0 + c
    /\ 0 <= es - e' <= 1
    /\ 2 ^ 52 <= Zpos ms < 2 ^ 53
    /\ 104 <= d - 1 + sh <= 105
    /\ 2 ^ (d - 1 + sh) <= m' < 2 ^ (d + sh)
    /\ 2 ^ 52 <= q0 < 2 ^ 53.
Proof.
  intros Hb d e' sh m' q0.
  destruct (bounded_canonical m e Hb) as [He Hd]. fold d in Hd.
  pose proof (SpecFacts.digits2_pos_bounds m) as [Hmlo Hmhi]. fold d in Hmlo, Hmhi.
  assert (Hd1 : 1 <= d) by (unfold d; lia).
  assert (Hsh : 104 <= d - 1 + sh <= 105) by (unfold sh, e'; div_lia).
  assert (Hsh0 : 0 < sh) by lia.
  assert (Hm' : 2 ^ (d - 1 + sh) <= m' < 2 ^ (d + sh)).
  { unfold m'. rewrite !Z.pow_add_r by lia.
    pose proof (pow2_pos sh). nia. }
  assert (Hm'104 : 2 ^ 104 <= m' < 2 ^ 106).
  { assert (2 ^ 104 <= 2 ^ (d - 1 + sh)) by (apply Z.pow_le_mono_r; lia).
    assert (2 ^ (d + sh) <= 2 ^ 106) by (apply Z.pow_le_mono_r; lia). lia. }
  assert (Hq0 : 2 ^ 52 <= q0 < 2 ^ 53).
  { unfold q0. split.
    - apply Z.sqrt_le_square; [lia|lia|]. change (2 ^ 52 * 2 ^ 52) with (2 ^ 104). lia.
    - apply Z.sqrt_lt_square; [lia|lia|]. change (2 ^ 53 * 2 ^ 53) with (2 ^ 106). lia. }
  pose proof (Z.sqrtrem_spec m' ltac:(lia)) as Hspec.
  pose proof (Z.sqrtrem_sqrt m') as Hfst.
  cbn [SFsqrt]. unfold SFsqrt_core_binary. cbn [Zdigits2]. fold d.
  rewrite !Z.div2_div.
  replace (Z.min (fexp prec emax ((d + e + 1) / 2)) (e / 2)) with e'
    by (unfold e', fexp, SpecFloat.emin, prec, emax; div_lia).
  fold sh. destruct sh as [|psh|psh] eqn:Esh; try lia.
  rewrite Z.shiftl_mul_pow2 by lia. fold m'.
  destruct (Z.sqrtrem m') as [q r]. cbn [fst] in Hfst. fold q0 in Hfst. subst q.
  destruct Hspec as [Hqr Hr].
  destruct q0 as [|pq|pq] eqn:Eq0; try lia.
  assert (Hdq : Zpos (digits2_pos pq) = 53) by (apply digits_unique; lia).
  set (l := if r =? 0 then loc_Exact else loc_Inexact (if r <=? Z.pos pq then Lt else Gt)).
  pose proof (binary_round_aux_value false pq e' l) as HG. cbv zeta in HG.
  rewrite Hdq in HG.
  replace (Z.max (53 - 53) (-1074 - e')) with 0 in HG by (unfold e'; div_lia).
  change (Nat.iter (Z.to_nat 0) shr_1 (shr_record_of_loc (Z.pos pq) l))
    with (shr_record_of_loc (Z.pos pq) l) in HG.
  rewrite SpecFacts.shr_m_of_loc, loc_of_shr_record_of_loc in HG.
  assert (Hc : exists c, round_nearest_even (Z.pos pq) l = Z.pos pq + c
                         /\ (c = 0 \/ c = 1) /\ (c = 1 <-> Z.pos pq < r)).
  { unfold l. destruct (Z.eqb_spec r 0) as [Hr0|Hr0].
    - exists 0. cbn. split; [lia|]. split; [now left|]. lia.
    - destruct (Z.leb_spec r (Z.pos pq)).
      + exists 0. cbn. split; [lia|]. split; [now left|]. lia.
      + exists 1. cbn. split; [lia|]. split; [now right|]. lia. }
  destruct Hc as (c & Hround & Hc01 & Hc1). rewrite Hround in HG.
  destruct HG as (m3 & e3 & Hres & Hval & He3 & _ & Hm3hi & Hm3lo); [lia|lia|].
  rewrite Z.sub_0_r in Hval, He3.
  exists m3, e3, c. rewrite Hres.
  assert (e3 <= 971) by (unfold e' in He3; div_lia).
  destruct (Z.leb_spec e3 971); [|lia].
  split; [reflexivity|]. split; [assumption|].
  split; [rewrite Hc1; lia|]. split; [assumption|]. split; [assumption|].
  split; [lia|]. split; [lia|]. split; [assumption|lia].
Qed.

(** The product of a 53-digit float with itself: the square of the
    mantissa, rounded to nearest at the shift [K]. *)
Lemma SFmul_self_value (ms : positive) es :
  2 ^ 52 <= Zpos ms < 2 ^ 53 ->
  let d2 := Zpos (digits2_pos (ms * ms)) in
  let K := Z.max (d2 - 53) (-1074 - 2 * es) in
  2 ^ K < 2 * (Zpos ms * Zpos ms) ->
  exists P mp ep,
    SFmul prec emax (S754_finite false ms es) (S754_finite false ms es)
    = (if ep <=? 971 then S754_finite false mp ep else S754_infinity false)
    /\ 0 < P
    /\ (2 * P - 1) * 2 ^ K <= 2 * (Zpos ms * Zpos ms) <= (2 * P + 1) * 2 ^ K
    /\ Zpos mp * 2 ^ (ep - 2 * es - K) = P
    /\ 0 <= ep - 2 * es - K <= 1
    /\ (ep - 2 * es - K = 1 -> P = 2 ^ 53)
    /\ Zpos mp < 2 ^ 53
    /\ (-1074 - 2 * es <= d2 - 53 -> 2 ^ 52 <= Zpos mp)
    /\ 105 <= d2 <= 106.
Proof.
  intros Hms d2 K HK.
  assert (HM2 : 2 ^ 104 <= Zpos (ms * ms) < 2 ^ 106).
  { rewrite Pos2Z.inj_mul.
    change (2 ^ 104) with (2 ^ 52 * 2 ^ 52). change (2 ^ 106) with (2 ^ 53 * 2 ^ 53).
    split; [apply Z.mul_le_mono_nonneg|apply Z.mul_lt_mono_nonneg]; lia. }
  assert (Hd2 : 105 <= d2 <= 106).
  { pose proof (SpecFacts.digits2_pos_bounds (ms * ms)) as [Hlo Hhi]. fold d2 in Hlo, Hhi.
    split.
    - destruct (Z.le_gt_cases 105 d2) as [|Hlt]; [assumption|].
      assert (2 ^ d2 <= 2 ^ 104) by (apply Z.pow_le_mono_r; lia). lia.
    - destruct (Z.le_gt_cases d2 106) as [|Hgt]; [assumption|].
      assert (2 ^ 106 <= 2 ^ (d2 - 1)) by (apply Z.pow_le_mono_r; lia). lia. }
  assert (HK0 : 0 <= K) by lia.
  cbn [SFmul xorb].
  pose proof (binary_round_aux_value false (ms * ms) (es + es) loc_Exact) as HG.
  cbv zeta in HG. fold d2 in HG.
  replace (-1074 - (es + es)) with (-1074 - 2 * es) in HG by lia. fold K in HG.
  cbn [shr_record_of_loc] in HG.
  set (mrs := Nat.iter (Z.to_nat K) shr_1 (Build_shr_record (Zpos (ms * ms)) false false))
    in *.
  pose proof (shifted_nearest (Zpos (ms * ms)) (Z.to_nat K) mrs) as Hnear.
  cbv zeta in Hnear. rewrite Z2Nat.id in Hnear by assumption.
  specialize (Hnear (shifted_iter (Zpos (ms * ms)) (Z.to_nat K)
                       (Build_shr_record (Zpos (ms * ms)) false false)
                       ltac:(cbn; lia) (shifted_exact _))).
  set (P := round_nearest_even (shr_m mrs) (loc_of_shr_record mrs)) in *.
  rewrite Pos2Z.inj_mul in Hnear.
  assert (HP : 0 < P).
  { destruct (Z.lt_ge_cases 0 P) as [|Hle]; [assumption|exfalso].
    pose proof (pow2_pos K HK0).
    assert ((2 * P + 1) * 2 ^ K <= 1 * 2 ^ K)
      by (apply Z.mul_le_mono_nonneg_r; lia). lia. }
  destruct HG as (m3 & e3 & Hres & Hval & He3 & Hcarry & Hm3hi & Hm3lo); [lia|lia|].
  exists P, m3, e3. rewrite Hres.
  replace (e3 - 2 * es - K) with (e3 - (es + es) - K) by lia.
  repeat split; try assumption; try lia.
Qed.

(** The integer quotient [Q] of [X * c] by [Y], for [X] and [Y] within
    [2^-49] of each other. *)
Lemma quotient_lower X Y Q c L :
  0 < Y -> 0 <= c ->
  - X <= (X - Y) * 2 ^ 49 -> X * c < Y * (Q + 1) ->
  L * (2 ^ 49 + 1) <= c * 2 ^ 49 ->
  L <= Q.
Proof.
  intros HY Hc Hclose HQ HL.
  destruct (Z.le_gt_cases L Q) as [|Hlt]; [assumption|exfalso].
  assert (H1 : Y * (Q + 1) <= Y * L) by (apply Z.mul_le_mono_nonneg_l; lia).
  assert (H2 : c * (Y * 2 ^ 49) <= c * (X * (2 ^ 49 + 1)))
    by (apply Z.mul_le_mono_nonneg_l; lia).
  assert (H3 : Y * (L * (2 ^ 49 + 1)) <= Y * (c * 2 ^ 49))
    by (apply Z.mul_le_mono_nonneg_l; lia).
  assert (H4 : X * c * (2 ^ 49 + 1) < Y * L * (2 ^ 49 + 1))
    by (apply Z.mul_lt_mono_pos_r; lia).
  lia.
Qed.

Lemma quotient_upper X Y Q c U :
  0 < Y -> 0 <= c ->
  (X - Y) * 2 ^ 49 <= X -> Y * Q <= X * c ->
  c * 2 ^ 49 < U * (2 ^ 49 - 1) ->
  Q < U.
Proof.
  intros HY Hc Hclose HQ HU.
  destruct (Z.lt_ge_cases Q U) as [|Hge]; [assumption|exfalso].
  assert (H1 : Y * U <= Y * Q) by (apply Z.mul_le_mono_nonneg_l; lia).
  assert (H2 : c * (X * (2 ^ 49 - 1)) <= c * (Y * 2 ^ 49))
    by (apply Z.mul_le_mono_nonneg_l; lia).
  assert (H3 : Y * (c * 2 ^ 49) < Y * (U * (2 ^ 49 - 1)))
    by (apply Z.mul_lt_mono_pos_l; lia).
  assert (H4 : Y * U * (2 ^ 49 - 1) <= X * c * (2 ^ 49 - 1))
    by (apply Z.mul_le_mono_nonneg_r; lia).
  lia.
Qed.

(** The quotient of two floats that differ by at most [2^-49] of the
    first lies between [1 - 2^-48] and [1 + 2^-48]. *)
Lemma SFdiv_near_one (m : positive) e (mp : positive) ep u v :
  SpecFloat.bounded prec emax m e = true ->
  SpecFloat.bounded prec emax mp ep = true ->
  0 <= u -> 0 <= v -> e - ep = u - v ->
  - (Zpos m * 2 ^ u) <= (Zpos m * 2 ^ u - Zpos mp * 2 ^ v) * 2 ^ 49
                     <= Zpos m * 2 ^ u ->
  exists mq eq,
    SFdiv prec emax (S754_finite false m e) (S754_finite false mp ep)
    = S754_finite false mq eq
    /\ ((eq = -53 /\ 2 ^ 53 - 32 <= Zpos mq < 2 ^ 53)
        \/ (eq = -52 /\ 2 ^ 52 <= Zpos mq <= 2 ^ 52 + 16)).
Proof.
  intros Hb Hbp Hu Hv Huv Hclose.
  destruct (bounded_canonical m e Hb) as [He Hd].
  destruct (bounded_canonical mp ep Hbp) as [Hep Hdp].
  set (d1 := Zpos (digits2_pos m)) in *. set (d2 := Zpos (digits2_pos mp)) in *.
  pose proof (SpecFacts.digits2_pos_bounds m) as [Hmlo Hmhi]. fold d1 in Hmlo, Hmhi.
  pose proof (SpecFacts.digits2_pos_bounds mp) as [Hplo Hphi]. fold d2 in Hplo, Hphi.
  assert (Hd1 : 1 <= d1 <= 53) by (unfold d1; lia).
  assert (Hd2 : 1 <= d2 <= 53) by (unfold d2; lia).
  set (X := Zpos m * 2 ^ u) in *. set (Y := Zpos mp * 2 ^ v) in *.
  pose proof (pow2_pos u Hu) as HPu. pose proof (pow2_pos v Hv) as HPv.
  assert (HX : 2 ^ (d1 - 1 + u) <= X < 2 ^ (d1 + u)).
  { unfold X. rewrite !Z.pow_add_r by lia. nia. }
  assert (HY : 2 ^ (d2 - 1 + v) <= Y < 2 ^ (d2 + v)).
  { unfold Y. rewrite !Z.pow_add_r by lia. nia. }
  set (z := d1 + e - (d2 + ep)).
  assert (Hz : -1 <= z <= 1).
  { assert (Hz' : z = (d1 + u) - (d2 + v)) by (unfold z; lia).
    split.
    - destruct (Z.le_gt_cases (-1) z) as [|Hlt]; [assumption|exfalso].
      assert (2 ^ (d1 + u + 1) <= 2 ^ (d2 - 1 + v)) by (apply Z.pow_le_mono_r; lia).
      rewrite (Z.pow_add_r 2 (d1 + u) 1) in * by lia. lia.
    - destruct (Z.le_gt_cases z 1) as [|Hgt]; [assumption|exfalso].
      assert (2 ^ (d2 + v + 1) <= 2 ^ (d1 - 1 + u)) by (apply Z.pow_le_mono_r; lia).
      rewrite (Z.pow_add_r 2 (d2 + v) 1) in * by lia. lia. }
  set (s := 53 - d1 + d2).
  assert (Hs : 0 < s) by (unfold s; lia).
  pose proof (pow2_pos s ltac:(lia)) as HPs.
  (* the quotient of the mantissas *)
  pose proof (Z_div_mod (Zpos m * 2 ^ s) (Zpos mp) ltac:(lia)) as Hdiv.
  cbn [SFdiv xorb]. unfold SFdiv_core_binary. cbn [Zdigits2]. fold d1 d2.
  replace (Z.min (fexp prec emax (d1 + e - (d2 + ep))) (e - ep)) with (z - 53)
    by (unfold z, fexp, SpecFloat.emin, prec, emax; lia).
  replace (e - ep - (z - 53)) with s by (unfold s, z; lia).
  destruct s as [|ps|ps] eqn:Es; try lia.
  rewrite Z.shiftl_mul_pow2 by lia.
  destruct (Z.div_eucl (Zpos m * 2 ^ Zpos ps) (Zpos mp)) as [Q0 R].
  destruct Hdiv as [HQR HR].
  (* the quotient against the two values *)
  assert (Hscale : Zpos m * 2 ^ Zpos ps * 2 ^ v = X * 2 ^ (53 - z)).
  { unfold X. rewrite <- !Z.mul_assoc, <- !Z.pow_add_r by lia.
    f_equal. f_equal. unfold z. lia. }
  assert (HQlo : Y * Q0 <= X * 2 ^ (53 - z)).
  { rewrite <- Hscale, HQR. unfold Y. nia. }
  assert (HQhi : X * 2 ^ (53 - z) < Y * (Q0 + 1)).
  { rewrite <- Hscale, HQR. unfold Y. nia. }
  assert (HQ52 : 2 ^ 52 <= Q0 < 2 ^ 54).
  { assert (Hnum : 2 ^ 52 * 2 ^ d2 <= Zpos m * 2 ^ Zpos ps < 2 ^ 54 * 2 ^ (d2 - 1)).
    { rewrite <- !Z.pow_add_r by lia.
      replace (52 + d2) with (d1 - 1 + Zpos ps) by lia.
      replace (54 + (d2 - 1)) with (d1 + Zpos ps) by lia.
      rewrite !Z.pow_add_r by lia. nia. }
    split.
    - destruct (Z.le_gt_cases (2 ^ 52) Q0) as [|Hlt]; [assumption|exfalso]. nia.
    - destruct (Z.lt_ge_cases Q0 (2 ^ 54)) as [|Hge]; [assumption|exfalso]. nia. }
  destruct Q0 as [|pQ|pQ] eqn:EQ0; try lia.
  set (l := new_location (Zpos mp) R).
  pose proof (binary_round_aux_value false pQ (z - 53) l) as HG. cbv zeta in HG.
  set (d3 := Zpos (digits2_pos pQ)) in *.
  pose proof (SpecFacts.digits2_pos_bounds pQ) as [HQdlo HQdhi]. fold d3 in HQdlo, HQdhi.
  assert (Hd3 : d3 = 53 \/ d3 = 54).
  { assert (53 <= d3).
    { destruct (Z.le_gt_cases 53 d3) as [|Hlt]; [assumption|exfalso].
      assert (2 ^ d3 <= 2 ^ 52) by (apply Z.pow_le_mono_r; lia). lia. }
    assert (d3 <= 54).
    { destruct (Z.le_gt_cases d3 54) as [|Hgt]; [assumption|exfalso].
      assert (2 ^ 54 <= 2 ^ (d3 - 1)) by (apply Z.pow_le_mono_r; lia). lia. }
    lia. }
  replace (Z.max (d3 - 53) (-1074 - (z - 53))) with (d3 - 53) in HG
    by (clear - Hd3 Hz; lia).
  set (mrs := Nat.iter (Z.to_nat (d3 - 53)) shr_1 (shr_record_of_loc (Zpos pQ) l)) in *.
  assert (Hm1 : shr_m mrs = Zpos pQ / 2 ^ (d3 - 53)).
  { unfold mrs. rewrite shr_iter_m by (rewrite SpecFacts.shr_m_of_loc; lia).
    rewrite SpecFacts.shr_m_of_loc, Z2Nat.id by lia. reflexivity. }
  set (m2 := round_nearest_even (shr_m mrs) (loc_of_shr_record mrs)) in *.
  assert (Hm2 : m2 = shr_m mrs \/ m2 = shr_m mrs + 1)
    by apply round_nearest_even_cases.
  assert (Hm1lo : 2 ^ 52 <= shr_m mrs).
  { rewrite Hm1. apply Z.div_le_lower_bound; [apply pow2_pos; clear - Hd3; lia|].
    rewrite <- Z.pow_add_r by (clear - Hd3; lia).
    replace (d3 - 53 + 52) with (d3 - 1) by (clear; lia).
    assumption. }
  destruct HG as (mq & eq & Hres & Hval & Heq & Hcarry & Hmqhi & Hmqlo);
    [clear - Hd3; lia|clear - Hm2 Hm1lo; lia|].
  specialize (Hmqlo ltac:(clear - Hz Hd3; lia)).
  exists mq, eq. rewrite Hres.
  assert (Heq971 : eq <= 971) by (clear - Heq Hz Hd3; lia).
  destruct (Z.leb_spec eq 971) as [_|Hgt]; [|exfalso; clear - Hgt Heq971; lia].
  split; [reflexivity|].
  (* the three positions of the exponents *)
  assert (HY0 : 0 < Y) by (unfold Y; apply Z.mul_pos_pos; [reflexivity|assumption]).
  assert (Hj : eq - (z - 53) - (d3 - 53) = 0 \/ eq - (z - 53) - (d3 - 53) = 1)
    by (clear - Heq; lia).
  assert (Hc0 : 0 <= 2 ^ (53 - z))
    by (apply Z.lt_le_incl, pow2_pos; clear - Hz; lia).
  assert (Hlow : forall L, L * (2 ^ 49 + 1) <= 2 ^ (53 - z) * 2 ^ 49 -> L <= Zpos pQ).
  { intros L HL.
    exact (quotient_lower X Y _ _ L HY0 Hc0 (proj1 Hclose) HQhi HL). }
  assert (Hupp : forall U, 2 ^ (53 - z) * 2 ^ 49 < U * (2 ^ 49 - 1) -> Zpos pQ < U).
  { intros U HU.
    exact (quotient_upper X Y _ _ U HY0 Hc0 (proj2 Hclose) HQlo HU). }
  clearbody mrs m2 d3 z X Y.
  clear - Hz Hd3 Hm1 Hm2 Hm1lo Hval Heq Hcarry Hmqhi Hmqlo HQ52 Hlow Hupp Hj
          HQdlo HQdhi.
  assert (Hzc : z = -1 \/ z = 0 \/ z = 1) by lia.
  destruct Hzc as [Hzc|[Hzc|Hzc]]; subst z.
  - (* the divisor is in the binade above *)
    change (2 ^ (53 - -1)) with (2 ^ 54) in *.
    pose proof (Hlow (2 ^ 54 - 32) ltac:(lia)) as HQ.
    destruct Hd3 as [Hd3|Hd3]; subst d3.
    + exfalso. lia.
    + change (2 ^ (54 - 53)) with 2 in *.
      assert (2 ^ 53 - 17 <= shr_m mrs < 2 ^ 53) by (rewrite Hm1; div_lia).
      destruct Hj as [Hj|Hj]; rewrite Hj in Hval.
      * left. lia.
      * right. lia.
  - change (2 ^ (53 - 0)) with (2 ^ 53) in *.
    pose proof (Hlow (2 ^ 53 - 16) ltac:(lia)) as HQa.
    pose proof (Hupp (2 ^ 53 + 17) ltac:(lia)) as HQb.
    destruct Hd3 as [Hd3|Hd3]; subst d3.
    + change (2 ^ (53 - 53)) with 1 in *. rewrite Z.div_1_r in Hm1.
      destruct Hj as [Hj|Hj]; rewrite Hj in Hval.
      * left. lia.
      * right. lia.
    + change (2 ^ (54 - 53)) with 2 in *.
      assert (2 ^ 52 <= shr_m mrs <= 2 ^ 52 + 8) by (rewrite Hm1; div_lia).
      destruct Hj as [Hj|Hj]; rewrite Hj in Hval.
      * right. lia.
      * exfalso. lia.
  - (* the divisor is in the binade below *)
    change (2 ^ (53 - 1)) with (2 ^ 52) in *.
    pose proof (Hupp (2 ^ 52 + 9) ltac:(lia)) as HQ.
    destruct Hd3 as [Hd3|Hd3]; subst d3.
    + change (2 ^ (53 - 53)) with 1 in *. rewrite Z.div_1_r in Hm1.
      destruct Hj as [Hj|Hj]; rewrite Hj in Hval.
      * right. lia.
      * exfalso. lia.
    + exfalso. change (2 ^ (54 - 1)) with (2 ^ 53) in *. lia.
Qed.

(** ** The product [sqrt n * sqrt n] against [n], on integers *)

(** The nearest square root [S] of [m']: its square is within [S] of [m']. *)
Lemma nearest_sqrt m' c :
  0 <= m' -> (c = 0 \/ c = 1) ->
  (c = 1 <-> Z.sqrt m' < m' - Z.sqrt m' * Z.sqrt m') ->
  let S := Z.sqrt m' + c in
  - S <= m' - S * S <= S.
Proof.
  intros Hm Hc Hc1 S. pose proof (Z.sqrt_spec m' Hm) as Hspec.
  pose proof (Z.sqrt_nonneg m') as Hq. unfold S.
  set (q := Z.sqrt m') in *. unfold Z.succ in Hspec.
  destruct Hc as [-> | ->].
  - assert (~ q < m' - q * q) by (intros H; apply Hc1 in H; discriminate).
    rewrite Z.add_0_r. lia.
  - assert (q < m' - q * q) by (now apply Hc1).
    replace ((q + 1) * (q + 1)) with (q * q + 2 * q + 1) in * by ring. lia.
Qed.

Lemma small_factor D W B k :
  0 <= W -> D * W <= B -> B < k * W -> D < k.
Proof.
  intros HW HD HB. destruct (Z.lt_ge_cases D k) as [|Hge]; [assumption|exfalso].
  assert (k * W <= D * W) by (apply Z.mul_le_mono_nonneg_r; lia). lia.
Qed.

(** For a normal [n]: the product is within [2^-49] of [n]. *)
Lemma product_close_normal m' S ms t d2 P mp jc :
  2 ^ 104 <= m' ->
  - S <= m' - S * S <= S -> S <= 2 ^ 53 ->
  Zpos ms * 2 ^ t = S -> (t = 0 \/ t = 1) ->
  (d2 = 105 \/ d2 = 106) ->
  (2 * P - 1) * 2 ^ (d2 - 53) <= 2 * (Zpos ms * Zpos ms)
                              <= (2 * P + 1) * 2 ^ (d2 - 53) ->
  Zpos mp * 2 ^ jc = P -> (jc = 0 \/ jc = 1) ->
  - m' <= (m' - Zpos mp * 2 ^ (jc + (d2 - 53) + 2 * t)) * 2 ^ 49 <= m'.
Proof.
  intros Hm' HS HS53 Hms Ht Hd2 HP Hmp Hjc.
  destruct Ht as [-> | ->], Hd2 as [-> | ->], Hjc as [-> | ->];
    cbn [Z.add Z.sub Z.mul Z.opp Z.pos_sub Pos.add Pos.mul Pos.succ
         Pos.pred_double Z.succ_double Z.pred_double Z.double] in *;
    rewrite ?Z.pow_0_r, ?Z.pow_1_r, ?Z.mul_1_r in Hms, Hmp; subst S P; lia.
Qed.

(** For a subnormal [n]: the product is [n], or differs from it by one
    unit in the last place when [n] has at least 51 digits. *)
Lemma product_close_subnormal m sh S ms t P mp jc :
  0 < m -> 53 <= sh -> 2 ^ 104 <= m * 2 ^ sh ->
  - S <= m * 2 ^ sh - S * S <= S -> S <= 2 ^ 53 ->
  Zpos ms * 2 ^ t = S -> (t = 0 \/ t = 1) ->
  (2 * P - 1) * 2 ^ (sh - 2 * t) <= 2 * (Zpos ms * Zpos ms)
                                 <= (2 * P + 1) * 2 ^ (sh - 2 * t) ->
  Zpos mp * 2 ^ jc = P -> (jc = 0 \/ jc = 1) -> (jc = 1 -> P = 2 ^ 53) ->
  m < 2 ^ 52 ->
  jc = 0 /\ - m <= (m - Zpos mp) * 2 ^ 49 <= m.
Proof.
  intros Hm Hsh Hm' HS HS53 Hms Ht HP Hmp Hjc Hcarry Hm52.
  set (W := 2 ^ sh) in *.
  assert (HW : 2 ^ 53 <= W) by (apply Z.pow_le_mono_r; lia).
  assert (HPW : (2 * P - 1) * W <= 2 * (S * S) <= (2 * P + 1) * W).
  { destruct Ht as [-> | ->].
    - rewrite Z.pow_0_r, Z.mul_1_r in Hms. subst S.
      replace (sh - 2 * 0) with sh in HP by lia. exact HP.
    - rewrite Z.pow_1_r in Hms. subst S.
      assert (HW4 : W = 2 ^ (sh - 2 * 1) * 4).
      { unfold W. change 4 with (2 ^ 2). rewrite <- Z.pow_add_r by lia.
        f_equal. lia. }
      rewrite HW4. lia. }
  assert (H1 : (2 * P - 1 - 2 * m) * W <= 2 ^ 54) by lia.
  assert (H2 : (2 * m - 2 * P - 1) * W <= 2 ^ 54) by lia.
  pose proof (small_factor _ W _ 3 ltac:(lia) H1 ltac:(lia)) as H1'.
  pose proof (small_factor _ W _ 3 ltac:(lia) H2 ltac:(lia)) as H2'.
  assert (Hnear : P = m \/ 2 ^ 50 <= m).
  { destruct (Z.le_gt_cases 55 sh) as [H55|H55].
    - left. assert (2 ^ 55 <= W) by (apply Z.pow_le_mono_r; lia).
      pose proof (small_factor _ W _ 1 ltac:(lia) H1 ltac:(lia)).
      pose proof (small_factor _ W _ 1 ltac:(lia) H2 ltac:(lia)). lia.
    - right. assert (W <= 2 ^ 54) by (apply Z.pow_le_mono_r; lia).
      assert (m * W <= m * 2 ^ 54) by (apply Z.mul_le_mono_nonneg_l; lia). lia. }
  assert (jc = 0) by (destruct Hjc as [|Hj1]; [assumption|specialize (Hcarry Hj1); lia]).
  subst jc. rewrite Z.pow_0_r, Z.mul_1_r in Hmp. subst P.
  split; [reflexivity|]. lia.
Qed.

Lemma square_bounds (ms : positive) :
  2 ^ 52 <= Zpos ms < 2 ^ 53 -> 2 ^ 104 <= Zpos ms * Zpos ms < 2 ^ 106.
Proof.
  intros Hms.
  change (2 ^ 104) with (2 ^ 52 * 2 ^ 52). change (2 ^ 106) with (2 ^ 53 * 2 ^ 53).
  split; [apply Z.mul_le_mono_nonneg|apply Z.mul_lt_mono_nonneg]; lia.
Qed.

(** When [n] is in the top binade, its square root is below [2^53]. *)
Lemma nearest_sqrt_top m' c :
  0 <= m' <= 2 ^ 106 - 2 ^ 53 -> (c = 0 \/ c = 1) ->
  (c = 1 <-> Z.sqrt m' < m' - Z.sqrt m' * Z.sqrt m') ->
  Z.sqrt m' < 2 ^ 53 ->
  Z.sqrt m' + c < 2 ^ 53.
Proof.
  intros Hm Hc Hc1 Hq. set (q := Z.sqrt m') in *.
  destruct Hc as [-> | ->]; [lia|].
  assert (Hr : q < m' - q * q) by (now apply Hc1).
  destruct (Z.eq_dec q (2 ^ 53 - 1)) as [E|E]; [|lia].
  exfalso. rewrite E in Hr. lia.
Qed.

(** The exponent of the product of a normal [n] is at most one above
    that of [n], and not above it in the top binade. *)
Lemma product_exponent_normal m' sh S ms t d2 P mp jc :
  (sh = 52 \/ sh = 53) ->
  2 ^ 104 <= m' < 2 ^ (53 + sh) ->
  - S <= m' - S * S <= S -> S <= 2 ^ 53 -> (sh = 53 -> S < 2 ^ 53) ->
  Zpos ms * 2 ^ t = S -> (t = 0 \/ t = 1) ->
  (d2 = 105 \/ d2 = 106) ->
  (2 * P - 1) * 2 ^ (d2 - 53) <= 2 * (Zpos ms * Zpos ms)
                              <= (2 * P + 1) * 2 ^ (d2 - 53) ->
  Zpos mp * 2 ^ jc = P -> (jc = 0 \/ jc = 1) ->
  2 ^ 52 <= Zpos ms -> 2 ^ 52 <= Zpos mp ->
  jc + (d2 - 53) + 2 * t <= 53.
Proof.
  intros Hsh Hm' HS HS53 Htop Hms Ht Hd2 HP Hmp Hjc Hms52 Hmp52.
  assert (Hsq : Zpos ms < 2 ^ 53 -> Zpos ms * Zpos ms <= (2 ^ 53 - 1) * (2 ^ 53 - 1))
    by (intros; apply Z.mul_le_mono_nonneg; lia).
  destruct Hsh as [-> | ->];
    [change (2 ^ (53 + 52)) with (2 ^ 105) in Hm'
    |change (2 ^ (53 + 53)) with (2 ^ 106) in Hm'; specialize (Htop eq_refl)];
    destruct Ht as [-> | ->], Hd2 as [-> | ->], Hjc as [-> | ->];
    cbn [Z.add Z.sub Z.mul Z.opp Z.pos_sub Pos.add Pos.mul Pos.succ
         Pos.pred_double Z.succ_double Z.pred_double Z.double] in *;
    rewrite ?Z.pow_0_r, ?Z.pow_1_r, ?Z.mul_1_r in Hms, Hmp; subst S P;
    try lia; exfalso;
    try (specialize (Hsq ltac:(lia))); lia.
Qed.

(** ** [sqrt n * sqrt n] against [n] *)

Lemma self_product_close (m : positive) e :
  SpecFloat.bounded prec emax m e = true ->
  exists mp ep u v,
    SFmul prec emax (SFsqrt prec emax (S754_finite false m e))
                    (SFsqrt prec emax (S754_finite false m e))
    = S754_finite false mp ep
    /\ 0 <= u /\ 0 <= v /\ e - ep = u - v
    /\ - (Zpos m * 2 ^ u) <= (Zpos m * 2 ^ u - Zpos mp * 2 ^ v) * 2 ^ 49
                          <= Zpos m * 2 ^ u.
Proof.
  intros Hb.
  destruct (SFsqrt_value m e Hb)
    as (ms & es & c & Hsqrt & Hc & Hc1 & Hs & Ht & Hms & Hsh & Hm' & Hq0).
  destruct (bounded_canonical m e Hb) as [He Hd].
  pose proof (SpecFacts.digits2_pos_bounds m) as [Hmlo Hmhi].
  set (d := Zpos (digits2_pos m)) in *.
  set (e' := (d + e + 1) / 2 - 53) in *.
  set (sh := e - 2 * e') in *.
  set (m' := Zpos m * 2 ^ sh) in *.
  set (q0 := Z.sqrt m') in *.
  set (t := es - e') in *.
  assert (Hd1 : 1 <= d) by (unfold d; lia).
  assert (Hm'104 : 2 ^ 104 <= m' < 2 ^ 106).
  { assert (2 ^ 104 <= 2 ^ (d - 1 + sh)) by (apply Z.pow_le_mono_r; lia).
    assert (2 ^ (d + sh) <= 2 ^ 106) by (apply Z.pow_le_mono_r; lia).
    clear - Hm' H H0. lia. }
  pose proof (nearest_sqrt m' c ltac:(clear - Hm'104; lia) Hc Hc1) as HS.
  cbv zeta in HS. fold q0 in HS.
  assert (HS53 : q0 + c <= 2 ^ 53) by (clear - Hq0 Hc; lia).
  assert (Ht01 : t = 0 \/ t = 1) by (clear - Ht; lia).
  pose proof (square_bounds ms Hms) as Hsq.
  pose proof (SpecFacts.digits2_pos_bounds (ms * ms)) as [Hd2lo Hd2hi].
  rewrite Pos2Z.inj_mul in Hd2lo, Hd2hi.
  pose proof (SFmul_self_value ms es Hms) as Hmul. cbv zeta in Hmul.
  set (d2 := Zpos (digits2_pos (ms * ms))) in *.
  assert (Hd2 : d2 = 105 \/ d2 = 106).
  { assert (105 <= d2).
    { destruct (Z.le_gt_cases 105 d2) as [|Hlt]; [assumption|exfalso].
      assert (2 ^ d2 <= 2 ^ 104) by (apply Z.pow_le_mono_r; lia).
      clear - Hsq Hd2hi H. lia. }
    assert (d2 <= 106).
    { destruct (Z.le_gt_cases d2 106) as [|Hgt]; [assumption|exfalso].
      assert (2 ^ 106 <= 2 ^ (d2 - 1)) by (apply Z.pow_le_mono_r; lia).
      clear - Hsq Hd2lo H0. lia. }
    lia. }
  assert (Hes : es = e' + t) by (unfold t; lia).
  rewrite Hsqrt.
  destruct Hd as [Hd|[Hemin Hd]].
  - (* a normal [n] *)
    assert (Hsh' : sh = 52 \/ sh = 53) by (clear - Hsh Hd; lia).
    assert (HK : Z.max (d2 - 53) (-1074 - 2 * es) = d2 - 53).
    { apply Z.max_l. rewrite Hes. unfold e'. rewrite Hd.
      clear - He Hd2 Ht01. div_lia. }
    rewrite HK in Hmul.
    destruct Hmul as (P & mp & ep & Hres & HP0 & HP & Hmp & Hjc & Hcarry & Hmphi & Hmplo & _).
    { assert (2 ^ (d2 - 53) <= 2 ^ 53) by (apply Z.pow_le_mono_r; clear - Hd2; lia).
      clear - Hsq H. lia. }
    specialize (Hmplo ltac:(rewrite <- HK; apply Z.le_max_r)).
    set (jc := ep - 2 * es - (d2 - 53)) in *.
    assert (Hjc01 : jc = 0 \/ jc = 1) by (clear - Hjc; lia).
    assert (Hm'top : m' < 2 ^ (53 + sh)).
    { rewrite Hd in Hm'. apply Hm'. }
    assert (Htop : sh = 53 -> q0 + c < 2 ^ 53).
    { intros Hsh53. apply nearest_sqrt_top; [|assumption|assumption|apply Hq0].
      split; [clear - Hm'104; lia|].
      unfold m'. rewrite Hsh53. rewrite Hd in Hmhi. clear - Hmhi. lia. }
    pose proof (product_exponent_normal m' sh (q0 + c) ms t d2 P mp jc
                  Hsh' (conj (proj1 Hm'104) Hm'top) HS HS53 Htop Hs Ht01 Hd2 HP Hmp
                  Hjc01 (proj1 Hms) Hmplo) as Hv.
    pose proof (product_close_normal m' (q0 + c) ms t d2 P mp jc
                  (proj1 Hm'104) HS HS53 Hs Ht01 Hd2 HP Hmp Hjc01) as Hclose.
    assert (Hep : ep = e - sh + (jc + (d2 - 53) + 2 * t))
      by (unfold jc, sh; rewrite Hes; clear; lia).
    assert (Hep971 : ep <= 971).
    { rewrite Hep. unfold sh, e' in *. rewrite Hd in *.
      clear - He Hsh' Hv. div_lia. }
    exists mp, ep, sh, (jc + (d2 - 53) + 2 * t). rewrite Hres.
    destruct (Z.leb_spec ep 971) as [_|Hgt]; [|exfalso; clear - Hgt Hep971; lia].
    split; [reflexivity|].
    split; [clear - Hsh'; lia|].
    split; [clear - Hjc01 Hd2 Ht01; lia|].
    split; [rewrite Hep; clear; lia|].
    exact Hclose.
  - (* a subnormal [n] *)
    assert (Hsh53 : 53 <= sh) by (clear - Hsh Hd; lia).
    assert (HK : Z.max (d2 - 53) (-1074 - 2 * es) = sh - 2 * t).
    { replace (-1074 - 2 * es) with (sh - 2 * t)
        by (unfold sh; rewrite Hes, Hemin; clear; lia).
      apply Z.max_r.
      destruct Ht01 as [Ht0|Ht1]; [clear - Ht0 Hd2 Hsh53; lia|].
      rewrite Ht1 in Hs. rewrite Z.pow_1_r in Hs.
      assert (Hms' : Zpos ms = 2 ^ 52) by (clear - Hs HS53 Hms; lia).
      assert (Hd2' : d2 = 105).
      { rewrite Hms' in Hd2lo. clear - Hd2lo Hd2.
        destruct Hd2 as [-> | ->]; [reflexivity|exfalso].
        change (2 ^ (106 - 1)) with (2 ^ 105) in Hd2lo. lia. }
      assert (Hbig : 2 ^ 105 <= m').
      { rewrite <- Hs, Hms' in HS. clear - HS. lia. }
      assert (106 <= d + sh).
      { destruct (Z.le_gt_cases 106 (d + sh)) as [|Hlt]; [assumption|exfalso].
        assert (2 ^ (d + sh) <= 2 ^ 105) by (apply Z.pow_le_mono_r; lia).
        clear - Hm' Hbig H. lia. }
      clear - Hd2' Ht1 Hd H. lia. }
    rewrite HK in Hmul.
    destruct Hmul as (P & mp & ep & Hres & HP0 & HP & Hmp & Hjc & Hcarry & Hmphi & _).
    { destruct Ht01 as [Ht0|Ht1].
      - rewrite Ht0 in *. rewrite Z.pow_0_r, Z.mul_1_r in Hs.
        replace (sh - 2 * 0) with sh by lia.
        destruct (Z.le_gt_cases sh 104) as [Hle|Hgt].
        + assert (2 ^ sh <= 2 ^ 104) by (apply Z.pow_le_mono_r; lia).
          clear - Hsq H. lia.
        + assert (Hsh105 : sh = 105) by (clear - Hgt Hsh Hd1; lia).
          assert (2 ^ 105 <= m').
          { assert (2 ^ 105 <= 2 ^ (d - 1 + sh)) by (apply Z.pow_le_mono_r; lia).
            clear - Hm' H. lia. }
          rewrite Hsh105. rewrite <- Hs in HS. clear - HS H HS53 Hs. lia.
      - assert (2 ^ (sh - 2 * t) <= 2 ^ 104)
          by (apply Z.pow_le_mono_r; clear - Hsh Hd1 Ht1; lia).
        clear - Hsq H. lia. }
    set (jc := ep - 2 * es - (sh - 2 * t)) in *.
    assert (Hjc01 : jc = 0 \/ jc = 1) by (clear - Hjc; lia).
    assert (Hm52 : Zpos m < 2 ^ 52).
    { assert (2 ^ d <= 2 ^ 52) by (apply Z.pow_le_mono_r; lia).
      clear - Hmhi H. lia. }
    destruct (product_close_subnormal (Zpos m) sh (q0 + c) ms t P mp jc
                ltac:(reflexivity) Hsh53 (proj1 Hm'104) HS HS53 Hs Ht01 HP Hmp
                Hjc01 Hcarry Hm52) as [Hjc0 Hclose].
    assert (Hep : ep = e) by (unfold jc, sh in Hjc0; rewrite Hes in Hjc0; clear - Hjc0; lia).
    exists mp, ep, 0, 0. rewrite Hres.
    destruct (Z.leb_spec ep 971) as [_|Hgt]; [|exfalso; clear - Hgt Hep He; lia].
    split; [reflexivity|].
    split; [lia|]. split; [lia|]. split; [rewrite Hep; lia|].
    rewrite !Z.pow_0_r, !Z.mul_1_r. exact Hclose.
Qed.

Lemma self_ratio_bounds (m : positive) e :
  SpecFloat.bounded prec emax m e = true ->
  SpecFloat.valid_binary prec emax
    (SFmul prec emax (SFsqrt prec emax (S754_finite false m e))
                     (SFsqrt prec emax (S754_finite false m e))) = true ->
  exists mq eq,
    SFdiv prec emax (S754_finite false m e)
      (SFmul prec emax (SFsqrt prec emax (S754_finite false m e))
                       (SFsqrt prec emax (S754_finite false m e)))
    = S754_finite false mq eq
    /\ ((eq = -53 /\ 2 ^ 53 - 32 <= Zpos mq < 2 ^ 53)
        \/ (eq = -52 /\ 2 ^ 52 <= Zpos mq <= 2 ^ 52 + 16)).
Proof.
  intros Hb Hvalid.
  destruct (self_product_close m e Hb) as (mp & ep & u & v & Hp & Hu & Hv & Huv & Hclose).
  rewrite Hp in *. cbn [valid_binary] in Hvalid.
  now apply SFdiv_near_one with (u := u) (v := v).
Qed.

End RoundingFacts.


(** ** The similarity engine *)

Module SimilarityFacts.

Section AnyArithmetic.
Context {num : Type} (ar : Arith.t num).

Lemma accumulate_swap vecA : forall vecB dotProduct normA normB,
  (forall x y, Arith.mul ar x y = Arith.mul ar y x) ->
  accumulate ar vecB vecA (dotProduct, normB, normA)
  = let '(d, na, nb) := accumulate ar vecA vecB (dotProduct, normA, normB) in
    (d, nb, na).
Proof.
  induction vecA as [|a vecA IH]; intros [|b vecB] d na nb Hc; try reflexivity.
  cbn [accumulate]. rewrite (Hc b a). now apply IH.
Qed.

Lemma cosineSimilarity_over_sym vecA vecB :
  (forall x y, Arith.mul ar x y = Arith.mul ar y x) ->
  cosineSimilarity_over ar vecA vecB = cosineSimilarity_over ar vecB vecA.
Proof.
  intros Hc. unfold cosineSimilarity_over.
  rewrite (Nat.eqb_sym (length vecB)).
  destruct (length vecA =? length vecB)%nat; [|reflexivity]. cbn [negb].
  rewrite (accumulate_swap vecA vecB _ _ _ Hc).
  destruct (accumulate ar vecA vecB _) as [[d na] nb].
  now rewrite (Hc (Arith.sqrt ar nb)).
Qed.

Lemma accumulate_self v : forall n,
  accumulate ar v v (n, n, n)
  = let s := fold_left (fun n a => Arith.add ar n (Arith.mul ar a a)) v n in
    (s, s, s).
Proof.
  induction v as [|a v IH]; intros n; [reflexivity|].
  cbn [accumulate fold_left]. apply IH.
Qed.

Lemma cosineSimilarity_over_self v :
  cosineSimilarity_over ar v v
  = let n := sum_of_squares ar v in
    Return (Arith.div ar n (Arith.mul ar (Arith.sqrt ar n) (Arith.sqrt ar n))).
Proof.
  unfold cosineSimilarity_over, sum_of_squares.
  rewrite Nat.eqb_refl, accumulate_self. reflexivity.
Qed.
End AnyArithmetic.

(** In exact arithmetic the sum of the squares of a vector with a
    non-zero component is positive. *)
Lemma exact_squares_nonneg v : forall n : R,
  (n <= fold_left (fun n a => n + a * a) v n)%R.
Proof.
  induction v as [|a v IH]; intros n; cbn [fold_left]; [lra|].
  specialize (IH (n + a * a)%R). pose proof (Rle_0_sqr a) as H.
  unfold Rsqr in H. lra.
Qed.

Lemma exact_squares_pos v : forall n : R,
  Exists (fun x => x <> 0%R) v ->
  (n < fold_left (fun n a => n + a * a) v n)%R.
Proof.
  induction v as [|a v IH]; intros n Hex; cbn [fold_left].
  - inversion Hex.
  - apply Exists_cons in Hex as [Ha|Hv].
    + pose proof (exact_squares_nonneg v (n + a * a)%R).
      assert (0 < a * a)%R by (apply Rsqr_pos_lt in Ha; exact Ha). lra.
    + specialize (IH (n + a * a)%R Hv). pose proof (Rle_0_sqr a) as H.
      unfold Rsqr in H. lra.
Qed.

Lemma exact_self v :
  Exists (fun x => x <> 0%R) v ->
  cosineSimilarity_over exact_arithmetic v v = Return 1%R.
Proof.
  intros Hex. rewrite cosineSimilarity_over_self. cbv zeta. f_equal.
  unfold sum_of_squares. cbn [Arith.add Arith.mul Arith.div Arith.sqrt Arith.zero
                              exact_arithmetic].
  pose proof (exact_squares_pos v 0%R Hex) as Hpos.
  rewrite sqrt_sqrt by lra. field. lra.
Qed.

Local Open Scope float_scope.

Lemma binary64_mul_comm x y :
  Arith.mul binary64 x y = Arith.mul binary64 y x.
Proof. apply Binary64.mul_comm. Qed.

Lemma binary64_sym vecA vecB :
  cosineSimilarity vecA vecB = cosineSimilarity vecB vecA.
Proof. apply cosineSimilarity_over_sym, binary64_mul_comm. Qed.

(** With a first operand of zeros only, the dot product and the first
    norm stay zero or [NaN]. *)
Lemma accumulate_zeros vecA : forall vecB dotProduct normA normB,
  Forall (fun x => is_zero x = true) vecA ->
  zero_or_nan dotProduct -> zero_or_nan normA ->
  let '(d, na, _) := accumulate binary64 vecA vecB (dotProduct, normA, normB) in
  zero_or_nan d /\ zero_or_nan na.
Proof.
  induction vecA as [|a vecA IH]; intros [|b vecB] d na nb Hz Hd Hna;
    cbn [accumulate]; try (split; assumption).
  apply Forall_cons in Hz as [Ha Hz].
  apply IH; [assumption|..];
    apply Binary64.zero_or_nan_add; try assumption;
    apply Binary64.zero_or_nan_mul, Binary64.is_zero_zero_or_nan, Ha.
Qed.

Lemma zeros_left vecA vecB :
  length vecA = length vecB ->
  Forall (fun x => is_zero x = true) vecA ->
  cosineSimilarity vecA vecB = Return nan.
Proof.
  intros Hlen Hz. unfold cosineSimilarity, cosineSimilarity_over.
  rewrite Hlen, Nat.eqb_refl. cbn [negb].
  pose proof (accumulate_zeros vecA vecB 0 0 0 Hz
                Binary64.zero_or_nan_zero Binary64.zero_or_nan_zero) as H.
  cbn [Arith.zero binary64].
  destruct (accumulate binary64 vecA vecB (0, 0, 0)) as [[d na] nb].
  destruct H as [Hd Hna]. f_equal.
  apply Binary64.zero_or_nan_div; [assumption|].
  apply Binary64.zero_or_nan_mul, Binary64.zero_or_nan_sqrt, Hna.
Qed.

End SimilarityFacts.

(** C6 as stated fails: with a first operand of zeros the call returns a
    number, [NaN], and raises nothing. *)
Lemma cosineSimilarity_zero_vector_returns :
  cosineSimilarity [0; 0]%float [1; 2]%float = Return nan.
Proof. vm_compute. reflexivity. Qed.

(** C6, amended: the only error of [cosineSimilarity] is the one for
    operands of different lengths; on operands of the same length it returns
    a number, and when all components of one operand are zero that number is
    [NaN]. *)
Theorem cosineSimilarity_throws_on_length_mismatch_only (vecA vecB : vector) :
  (length vecA <> length vecB ->
   cosineSimilarity vecA vecB = Throw (str "Vectors must have same length"))
  /\ (length vecA = length vecB ->
      exists similarity,
        cosineSimilarity vecA vecB = Return similarity
        /\ (Forall (fun x => is_zero x = true) vecA
            \/ Forall (fun x => is_zero x = true) vecB ->
            similarity = nan)).
Proof.
  split.
  - intros Hne. unfold cosineSimilarity, cosineSimilarity_over.
    apply Nat.eqb_neq in Hne. now rewrite Hne.
  - intros Hlen.
    assert (Hret : exists similarity, cosineSimilarity vecA vecB = Return similarity).
    { unfold cosineSimilarity, cosineSimilarity_over.
      rewrite Hlen, Nat.eqb_refl. cbn [negb].
      destruct (accumulate binary64 vecA vecB _) as [[d na] nb]. eexists. reflexivity. }
    destruct Hret as [similarity Hs]. exists similarity. split; [assumption|].
    intros [Hz|Hz].
    + rewrite (SimilarityFacts.zeros_left vecA vecB Hlen Hz) in Hs. congruence.
    + rewrite SimilarityFacts.binary64_sym,
        (SimilarityFacts.zeros_left vecB vecA (eq_sym Hlen) Hz) in Hs. congruence.
Qed.

(** The amended C6 on the operands [(0, 0)] and [(1, 2)]. *)
Lemma cosineSimilarity_throws_on_length_mismatch_only_witness :
  exists similarity,
    cosineSimilarity [0; 0]%float [1; 2]%float = Return similarity
    /\ similarity = nan.
Proof.
  destruct (proj2 (cosineSimilarity_throws_on_length_mismatch_only
                     [0; 0]%float [1; 2]%float) eq_refl) as (s & Hs & Hnan).
  exists s. split; [exact Hs|].
  apply Hnan. left. repeat constructor.
Defined.

(** ** The similarity of a vector with itself *)

Module SelfFacts.
Local Open Scope float_scope.

(** Squares and their sums are never negative. *)
Lemma binary_round_aux_nonnegative m e l :
  nonnegative (binary_round_aux prec emax false m e l).
Proof.
  unfold binary_round_aux.
  destruct (shr_fexp prec emax m e l) as [mrs' e'].
  destruct (shr_fexp prec emax _ e' loc_Exact) as [mrs'' e''].
  destruct (shr_m mrs''); [reflexivity| |exact I].
  destruct (e'' <=? emax - prec)%Z; reflexivity.
Qed.

Lemma square_nonnegative x : nonnegative (Prim2SF (x * x)).
Proof.
  rewrite FloatAxioms.mul_spec. unfold SF64mul.
  destruct (Prim2SF x) as [s|s| |s m e]; cbn [SFmul nonnegative];
    rewrite ?xorb_nilpotent; try reflexivity.
  apply binary_round_aux_nonnegative.
Qed.

Lemma add_nonnegative x y :
  nonnegative (Prim2SF x) -> nonnegative (Prim2SF y) ->
  nonnegative (Prim2SF (x + y)).
Proof.
  rewrite FloatAxioms.add_spec. unfold SF64add.
  destruct (Prim2SF x) as [sx|sx| |sx mx ex], (Prim2SF y) as [sy|sy| |sy my ey];
    cbn [nonnegative SFadd]; intros Hx Hy; subst; try reflexivity.
  cbn [cond_Zopp].
  set (a := fst (shl_align mx ex (Z.min ex ey))).
  set (b := fst (shl_align my ey (Z.min ex ey))).
  change (Zpos a + Zpos b)%Z with (Zpos (a + b)).
  cbn [binary_normalize]. unfold binary_round.
  destruct (shl_align (a + b) _ _) as [mz ez]. apply binary_round_aux_nonnegative.
Qed.

Lemma fold_squares_nonnegative v : forall n,
  nonnegative (Prim2SF n) ->
  nonnegative (Prim2SF (fold_left (fun n a => n + a * a) v n)).
Proof.
  induction v as [|a v IH]; intros n Hn; [exact Hn|].
  cbn [fold_left]. apply IH, add_nonnegative; [exact Hn|apply square_nonnegative].
Qed.

Lemma sum_of_squares_nonnegative v :
  nonnegative (Prim2SF (sum_of_squares binary64 v)).
Proof. apply fold_squares_nonnegative. reflexivity. Qed.

(** A float that is not negative is positive and finite, zero, infinite
    or [NaN]. *)
Lemma nonnegative_cases n :
  nonnegative (Prim2SF n) ->
  ((0 <? n) = true /\ (n <? infinity) = true)
  \/ n = 0 \/ n = infinity \/ n = nan.
Proof.
  intros Hn. rewrite !FloatAxioms.ltb_spec.
  destruct (Prim2SF n) as [s|s| |s m e] eqn:E; cbn [nonnegative] in Hn; subst.
  - right. left. apply Prim2SF_inj. now rewrite E.
  - right. right. left. apply Prim2SF_inj. now rewrite E.
  - right. right. right. apply Prim2SF_inj. now rewrite E.
  - left. split; reflexivity.
Qed.

Lemma positive_finite n :
  (0 <? n) = true -> (n <? infinity) = true ->
  exists m e, Prim2SF n = S754_finite false m e
              /\ SpecFloat.bounded prec emax m e = true.
Proof.
  rewrite !FloatAxioms.ltb_spec. pose proof (Prim2SF_valid n) as Hv.
  change (Prim2SF 0) with (S754_zero false).
  change (Prim2SF infinity) with (S754_infinity false).
  destruct (Prim2SF n) as [s|s| |s m e]; try destruct s; try discriminate.
  intros _ _. now exists m, e.
Qed.

(** The floats from [1 - 2^-48] to [1 + 2^-48], one by one. *)
Lemma near_one_below (k : nat) :
  (k < 32)%nat ->
  (abs (SF2Prim (S754_finite false (Z.to_pos (2 ^ 53 - 32 + Z.of_nat k)) (-53)) - 1)
   <=? rounding_tolerance) = true.
Proof.
  intros Hk. do 32 (destruct k as [|k]; [vm_compute; reflexivity|]). lia.
Qed.

Lemma near_one_above (k : nat) :
  (k < 17)%nat ->
  (abs (SF2Prim (S754_finite false (Z.to_pos (2 ^ 52 + Z.of_nat k)) (-52)) - 1)
   <=? rounding_tolerance) = true.
Proof.
  intros Hk. do 17 (destruct k as [|k]; [vm_compute; reflexivity|]). lia.
Qed.

(** For a positive finite [n], the quotient [n / (PrimFloat.sqrt n * PrimFloat.sqrt n)] is
    within [2^-48] of 1. *)
Lemma self_ratio_near_one n :
  (0 <? n) = true -> (n <? infinity) = true ->
  (abs (n / (PrimFloat.sqrt n * PrimFloat.sqrt n) - 1) <=? rounding_tolerance) = true.
Proof.
  intros Hpos Hfin.
  destruct (positive_finite n Hpos Hfin) as (m & e & Hn & Hb).
  pose proof (Prim2SF_valid (PrimFloat.sqrt n * PrimFloat.sqrt n)) as Hv.
  rewrite FloatAxioms.mul_spec, FloatAxioms.sqrt_spec, Hn in Hv.
  unfold SF64mul, SF64sqrt in Hv.
  destruct (RoundingFacts.self_ratio_bounds m e Hb Hv) as (mq & eq & Hq & Hrange).
  set (c := n / (PrimFloat.sqrt n * PrimFloat.sqrt n)).
  assert (Hc : Prim2SF c = S754_finite false mq eq).
  { unfold c. rewrite FloatAxioms.div_spec, FloatAxioms.mul_spec,
      FloatAxioms.sqrt_spec, Hn. exact Hq. }
  rewrite <- (SF2Prim_Prim2SF c), Hc.
  destruct Hrange as [[-> Hm]|[-> Hm]].
  - replace mq
      with (Z.to_pos (2 ^ 53 - 32 + Z.of_nat (Z.to_nat (Zpos mq - (2 ^ 53 - 32))))).
    + apply near_one_below. lia.
    + apply Pos2Z.inj. rewrite Z2Pos.id by lia. lia.
  - replace mq
      with (Z.to_pos (2 ^ 52 + Z.of_nat (Z.to_nat (Zpos mq - 2 ^ 52)))).
    + apply near_one_above. lia.
    + apply Pos2Z.inj. rewrite Z2Pos.id by lia. lia.
Qed.

(** A sum of squares is zero only when every square is. *)
Lemma zero_spec x : x = 0 <-> Prim2SF x = S754_zero false.
Proof.
  split; [now intros ->|]. intros H. apply Prim2SF_inj. now rewrite H.
Qed.

Lemma add_zero x y :
  nonnegative (Prim2SF x) -> nonnegative (Prim2SF y) ->
  x + y = 0 <-> x = 0 /\ y = 0.
Proof.
  intros Hx Hy. rewrite !zero_spec, FloatAxioms.add_spec. unfold SF64add.
  pose proof (Prim2SF_valid x) as Hvx. pose proof (Prim2SF_valid y) as Hvy.
  destruct (Prim2SF x) as [sx|sx| |sx mx ex], (Prim2SF y) as [sy|sy| |sy my ey];
    cbn [nonnegative] in Hx, Hy; subst; cbn [SFadd];
    try (split; [discriminate|intros [? ?]; discriminate]);
    try (split; [tauto|intros [? ?]; reflexivity]).
  split; [|intros [? ?]; discriminate].
  cbn [cond_Zopp valid_binary] in *.
  pose proof (SpecFacts.bounded_emin _ _ _ _ Hvx).
  pose proof (SpecFacts.bounded_emin _ _ _ _ Hvy).
  set (a := fst (shl_align mx ex (Z.min ex ey))).
  set (b := fst (shl_align my ey (Z.min ex ey))).
  change (Zpos a + Zpos b)%Z with (Zpos (a + b)).
  pose proof (SpecFacts.binary_normalize_sign prec emax Binary64.prec_pos
                (Zpos (a + b)) (Z.min ex ey) ltac:(lia)) as Hs.
  cbv beta iota in Hs. intros E. rewrite E in Hs. contradiction.
Qed.

Lemma fold_squares_zero v : forall n,
  nonnegative (Prim2SF n) ->
  fold_left (fun n a => n + a * a) v n = 0
  <-> n = 0 /\ Forall (fun x => x * x = 0) v.
Proof.
  induction v as [|a v IH]; intros n Hn; cbn [fold_left].
  - split; [intros ->; split; [reflexivity|constructor]|tauto].
  - rewrite IH by (apply add_nonnegative; [exact Hn|apply square_nonnegative]).
    rewrite add_zero by (exact Hn || apply square_nonnegative).
    rewrite Forall_cons. tauto.
Qed.

Lemma sum_of_squares_zero v :
  sum_of_squares binary64 v = 0 <-> Forall (fun x => x * x = 0) v.
Proof.
  unfold sum_of_squares. cbn [Arith.add Arith.mul Arith.zero binary64].
  rewrite fold_squares_zero by reflexivity. tauto.
Qed.

End SelfFacts.

(** C9 as stated fails on its second half: the vector with the single
    component [2^-600] is not zero, its square underflows to zero, and its
    similarity with itself is [NaN], which is within no tolerance of 1. *)
Lemma cosineSimilarity_self_underflow :
  Forall (fun x => is_zero x = false) tiny_vector
  /\ cosineSimilarity tiny_vector tiny_vector = Return nan
  /\ forall tolerance : float, (abs (nan - 1) <=? tolerance)%float = false.
Proof.
  split; [repeat constructor|]. split; [vm_compute; reflexivity|].
  intros tolerance. rewrite FloatAxioms.leb_spec.
  change (Prim2SF (abs (nan - 1))) with S754_nan. reflexivity.
Qed.

(** C9, amended: [cosineSimilarity] is symmetric, exactly, in binary64
    arithmetic. The similarity of a vector with itself is
    [n / (sqrt n * sqrt n)] for the sum [n] of the squares of its components
    as the loop computes it, in binary64: it is within [2^-48] of 1 whenever
    [n] is positive and finite, and it is [NaN] in every other case, that is
    when [n] is zero, infinite or [NaN]; [n] is zero exactly when the square
    of every component is zero (the component is zero, or its square
    underflows). In exact arithmetic the similarity of a vector that has a
    non-zero component with itself is 1. *)
Theorem cosineSimilarity_symmetric_and_self :
  (forall vecA vecB : vector,
      cosineSimilarity vecA vecB = cosineSimilarity vecB vecA)
  /\ (forall v : vector,
         let n := sum_of_squares binary64 v in
         let similarity := (n / (PrimFloat.sqrt n * PrimFloat.sqrt n))%float in
         cosineSimilarity v v = Return similarity
         /\ ((0 <? n)%float = true -> (n <? infinity)%float = true ->
             (abs (similarity - 1) <=? rounding_tolerance)%float = true)
         /\ (n = 0%float \/ n = infinity \/ n = nan -> similarity = nan)
         /\ (((0 <? n)%float = true /\ (n <? infinity)%float = true)
             \/ n = 0%float \/ n = infinity \/ n = nan)
         /\ (n = 0%float <-> Forall (fun x => (x * x)%float = 0%float) v))
  /\ (forall v : list R,
         Exists (fun x => x <> 0%R) v ->
         cosineSimilarity_over exact_arithmetic v v = Return 1%R).
Proof.
  split; [exact SimilarityFacts.binary64_sym|].
  split; [|exact SimilarityFacts.exact_self].
  intros v n similarity.
  split; [apply (SimilarityFacts.cosineSimilarity_over_self binary64)|].
  split; [apply SelfFacts.self_ratio_near_one|].
  split.
  - unfold similarity. intros [E|[E|E]]; rewrite E; vm_compute; reflexivity.
  - split.
    + apply SelfFacts.nonnegative_cases, SelfFacts.sum_of_squares_nonnegative.
    + apply SelfFacts.sum_of_squares_zero.
Qed.

(** The amended C9 on concrete vectors: [(3, 4)] against [(4, 3)]; the
    vector of the doubles nearest 0.3, 0.5, 0.7 and 0.11, whose similarity
    with itself is [1 + 2^-52]; the vector of [2^600], whose square
    overflows; and the exact vector [(3, 4)]. *)
Lemma cosineSimilarity_symmetric_and_self_witness :
  cosineSimilarity [3; 4]%float [4; 3]%float = cosineSimilarity [4; 3]%float [3; 4]%float
  /\ (exists similarity,
         cosineSimilarity decimal_vector decimal_vector = Return similarity
         /\ similarity = 0x1.0000000000001p0%float
         /\ (abs (similarity - 1) <=? rounding_tolerance)%float = true)
  /\ cosineSimilarity huge_vector huge_vector = Return nan
  /\ cosineSimilarity_over exact_arithmetic [3; 4]%R [3; 4]%R = Return 1%R.
Proof.
  destruct cosineSimilarity_symmetric_and_self as (Hsym & Hself & Hexact).
  split; [apply Hsym|]. split; [|split].
  - destruct (Hself decimal_vector) as (Hret & Hnear & _).
    eexists. split; [exact Hret|]. split; [vm_compute; reflexivity|].
    apply Hnear; vm_compute; reflexivity.
  - destruct (Hself huge_vector) as (Hret & _ & Hnan & _).
    rewrite Hret. apply f_equal, Hnan. right. left. vm_compute. reflexivity.
  - apply Hexact. left. lra.
Defined.

(** ** Sorting by score and truncating *)

Module SearchFacts.
Local Open Scope float_scope.

Lemma mapM_elem_of {A B : Type} (f : A -> outcome B) (l : list A) :
  forall rs r, mapM f l = Return rs -> r ∈ rs -> exists a, a ∈ l /\ f a = Return r.
Proof.
  induction l as [|a l IH]; intros rs r; cbn [mapM].
  - intros [= <-] Hr. inversion Hr.
  - destruct (f a) as [b|] eqn:Eb; [|discriminate]. cbn.
    destruct (mapM f l) as [bs|]; [|discriminate]. cbn. intros [= <-] Hr.
    apply elem_of_cons in Hr as [->|Hr].
    + exists a. split; [left|assumption].
    + destruct (IH bs r eq_refl Hr) as (a' & Ha' & Hf).
      exists a'. split; [now right|assumption].
Qed.

Lemma slice_to_take {A : Type} (l : list A) (e : Z) :
  exists n, JsArray.slice_to l e = take n l
            /\ ((0 <= e)%Z -> (Z.of_nat n <= e)%Z).
Proof.
  unfold JsArray.slice_to. eexists. split; [reflexivity|].
  intros He. destruct (Z.ltb_spec e 0); lia.
Qed.

Lemma slice_to_length {A : Type} (l : list A) (e : Z) :
  (0 <= e)%Z -> (Z.of_nat (length (JsArray.slice_to l e)) <= e)%Z.
Proof.
  intros He. destruct (slice_to_take l e) as (n & -> & Hn).
  rewrite length_take. specialize (Hn He). lia.
Qed.

Lemma descending_take n (scores : list float) :
  descending scores -> descending (take n scores).
Proof.
  unfold descending. revert n.
  induction scores as [|s scores IH]; intros [|n] Hs; cbn [take]; try constructor.
  - apply IH. now inversion Hs.
  - inversion Hs as [|? ? _ Hhd]; subst.
    destruct scores as [|s' scores], n as [|n]; cbn [take]; constructor.
    now inversion Hhd.
Qed.

Section ByKey.
Context {A : Type} (key : A -> float) (comparefn : A -> A -> float).
Hypothesis comparefn_key : forall a b, comparefn a b = key b - key a.

Lemma placed_after_lt x y :
  JsArray.placed_after comparefn x y = (key x <? key y).
Proof.
  unfold JsArray.placed_after. rewrite comparefn_key. apply Binary64.sub_pos.
Qed.

Lemma insert_perm x l : JsArray.insert comparefn x l ≡ₚ x :: l.
Proof.
  induction l as [|y l IH]; cbn [JsArray.insert]; [reflexivity|].
  destruct (JsArray.placed_after comparefn x y); [|reflexivity].
  rewrite IH. apply Permutation_swap.
Qed.

Lemma sort_perm l : JsArray.sort comparefn l ≡ₚ l.
Proof.
  induction l as [|x l IH]; cbn [JsArray.sort fold_right]; [reflexivity|].
  rewrite insert_perm. now constructor.
Qed.

Lemma insert_hd (R : float -> float -> Prop) a x l :
  R a (key x) -> HdRel R a (key <$> l) ->
  HdRel R a (key <$> JsArray.insert comparefn x l).
Proof.
  intros Hx Hl. destruct l as [|y l]; cbn [JsArray.insert].
  - now constructor.
  - destruct (JsArray.placed_after comparefn x y); constructor;
      [now inversion Hl|assumption].
Qed.

Lemma insert_descending x l :
  is_nan (key x) = false -> Forall (fun y => is_nan (key y) = false) l ->
  descending (key <$> l) -> descending (key <$> JsArray.insert comparefn x l).
Proof.
  unfold descending. intros Hx Hl Hs.
  induction l as [|y l IH]; cbn [JsArray.insert].
  - repeat constructor.
  - apply Forall_cons in Hl as [Hy Hl].
    rewrite placed_after_lt.
    destruct (key x <? key y) eqn:Hlt.
    + inversion Hs as [|? ? Hs' Hhd]; subst.
      rewrite fmap_cons. constructor; [now apply IH|].
      apply insert_hd; [now apply Binary64.ltb_leb|assumption].
    + rewrite fmap_cons. constructor; [exact Hs|].
      constructor. now apply Binary64.nltb_leb.
Qed.

Lemma sort_descending l :
  Forall (fun y => is_nan (key y) = false) l ->
  descending (key <$> JsArray.sort comparefn l).
Proof.
  induction l as [|x l IH]; intros Hl; cbn [JsArray.sort fold_right].
  - constructor.
  - apply Forall_cons in Hl as [Hx Hl].
    apply insert_descending; [assumption| |now apply IH].
    eapply Forall_forall. intros y Hy.
    eapply Forall_forall in Hl; [exact Hl|].
    now rewrite <- (sort_perm l).
Qed.

(** Scoring the candidates, sorting them and keeping the first [k]:
    the shape of both searches. *)
Lemma top_of_sorted {C : Type} (f : C -> outcome A) (l : list C) (k : Z)
    (results : list A) :
  (rs ← mapM f l; Return (JsArray.slice_to (JsArray.sort comparefn rs) k))
  = Return results ->
  ((0 <= k)%Z -> (Z.of_nat (length results) <= k)%Z)
  /\ Forall (fun r => exists a, a ∈ l /\ f a = Return r) results
  /\ (Forall (fun a => forall r, f a = Return r -> is_nan (key r) = false) l ->
      descending (key <$> results)).
Proof.
  destruct (mapM f l) as [rs|] eqn:Ers; [|discriminate]. cbn. intros [= <-].
  split; [apply slice_to_length|]. split.
  - apply Forall_forall. intros r Hr.
    apply (mapM_elem_of f l rs r Ers).
    destruct (slice_to_take (JsArray.sort comparefn rs) k) as (n & E & _).
    rewrite E in Hr. apply subseteq_take in Hr. now rewrite sort_perm in Hr.
  - intros Hnan.
    destruct (slice_to_take (JsArray.sort comparefn rs) k) as (n & -> & _).
    rewrite fmap_take. apply descending_take, sort_descending.
    apply Forall_forall. intros r Hr.
    destruct (mapM_elem_of f l rs r Ers Hr) as (a & Ha & Hf).
    eapply Forall_forall in Hnan; [|exact Ha]. now apply Hnan.
Qed.
End ByKey.

End SearchFacts.

(** ** The vector index *)

Module IndexFacts.

Lemma find_elem_of vectorCollection docId record :
  record ∈ Fallback.find vectorCollection docId ->
  record ∈ vectorCollection /\ VectorRecord.docId record = docId.
Proof.
  unfold Fallback.find. intros H. apply subseteq_take in H.
  apply list_elem_of_In, filter_In in H as [Hin Hd].
  split; [now apply list_elem_of_In|]. now apply bool_decide_eq_true in Hd.
Qed.

Lemma with_score_inv questionEmbedding record r :
  Fallback.with_score questionEmbedding record = Return r ->
  cosineSimilarity questionEmbedding (VectorRecord.embedding record)
  = Return (ScoredChunk.score r).
Proof.
  unfold Fallback.with_score.
  destruct (cosineSimilarity _ _) as [s|]; [|discriminate]. cbn. now intros [= <-].
Qed.

Lemma with_similarity_inv queryEmbedding chunk r :
  VectorStore.with_similarity queryEmbedding chunk = Return r ->
  cosineSimilarity queryEmbedding (StoredChunk.embedding chunk)
  = Return (SearchResult.similarity r).
Proof.
  unfold VectorStore.with_similarity.
  destruct (cosineSimilarity _ _) as [s|]; [|discriminate]. cbn. now intros [= <-].
Qed.

Lemma fallback_search vectorCollection docId questionEmbedding results :
  Fallback.search vectorCollection docId questionEmbedding = Return results ->
  Z.of_nat (length results) <= Fallback.topK
  /\ Forall (fun r => exists record,
                 record ∈ vectorCollection
                 /\ VectorRecord.docId record = docId
                 /\ Fallback.with_score questionEmbedding record = Return r)
       results
  /\ (Forall (fun record => forall s,
                  cosineSimilarity questionEmbedding (VectorRecord.embedding record)
                  = Return s -> PrimFloat.is_nan s = false)
        (Fallback.find vectorCollection docId) ->
      descending (ScoredChunk.score <$> results)).
Proof.
  intros H.
  destruct (SearchFacts.top_of_sorted ScoredChunk.score Fallback.by_score
              (fun a b => eq_refl) _ _ _ _ H) as (Hlen & Hfrom & Hdesc).
  split; [apply Hlen; unfold Fallback.topK; lia|]. split.
  - eapply Forall_impl; [exact Hfrom|]. intros r (record & Hin & Hr).
    apply find_elem_of in Hin as [Hin Hd]. now exists record.
  - intros Hnan. apply Hdesc.
    eapply Forall_impl; [exact Hnan|]. intros record Hs r Hr.
    now apply Hs, with_score_inv.
Qed.

Lemma store_search (store : VectorStore.t) docId queryEmbedding topK chunks results :
  0 <= topK ->
  store !! docId = Some chunks ->
  VectorStore.search store docId queryEmbedding topK = Return results ->
  Z.of_nat (length results) <= topK
  /\ Forall (fun r => exists chunk,
                 chunk ∈ chunks
                 /\ VectorStore.with_similarity queryEmbedding chunk = Return r)
       results
  /\ (Forall (fun chunk => forall s,
                  cosineSimilarity queryEmbedding (StoredChunk.embedding chunk)
                  = Return s -> PrimFloat.is_nan s = false)
        chunks ->
      descending (SearchResult.similarity <$> results)).
Proof.
  intros Hk Hchunks H. unfold VectorStore.search in H. rewrite Hchunks in H.
  destruct (SearchFacts.top_of_sorted SearchResult.similarity VectorStore.by_similarity
              (fun a b => eq_refl) _ _ _ _ H) as (Hlen & Hfrom & Hdesc).
  split; [now apply Hlen|]. split; [exact Hfrom|].
  intros Hnan. apply Hdesc.
  eapply Forall_impl; [exact Hnan|]. intros chunk Hs r Hr.
  now apply Hs, with_similarity_inv.
Qed.

End IndexFacts.

(** C4 as stated fails twice. A stored embedding of zeros has the score
    [NaN], which the comparator reads as a tie with every other score, so
    the brute-force search returns the [NaN] chunk ahead of the chunk that
    matches the query exactly: the scores [NaN, 1] are not in descending
    order. And [VectorStore.search] with the negative [topK = -1] drops the
    last result and returns the other one: more than [topK] results. *)
Lemma search_order_and_bound_counterexample :
  (exists results,
      Fallback.search [zero_record; match_record] (str "d") [1; 0]%float
      = Return results
      /\ ScoredChunk.score <$> results = [nan; 1%float]
      /\ ~ descending (ScoredChunk.score <$> results))
  /\ (exists results,
         VectorStore.search store_d (str "d") [1; 0]%float (-1) = Return results
         /\ ~ Z.of_nat (length results) <= -1).
Proof.
  split.
  - eexists. split; [vm_compute; reflexivity|]. split; [reflexivity|].
    cbn. intros H. inversion H as [|? ? _ Hhd]. inversion Hhd as [|? ? Hle].
    vm_compute in Hle. discriminate Hle.
  - eexists. split.
    + unfold VectorStore.search, store_d. rewrite lookup_insert_eq.
      vm_compute. reflexivity.
    + cbn. lia.
Qed.

(** C4, amended: the brute-force search of [/api/ask] returns at most
    [topK = 3] results, and [VectorStore.search] at most [topK] results for
    [topK >= 0]; every result is the text, metadata and cosine score of a
    stored chunk of the requested [docId]; and when no candidate has the
    score [NaN], the scores of the results are in descending order. *)
Theorem search_returns_top_k_of_document :
  (forall vectorCollection docId questionEmbedding results,
      Fallback.search vectorCollection docId questionEmbedding = Return results ->
      Z.of_nat (length results) <= Fallback.topK
      /\ Forall (fun r => exists record,
                     record ∈ vectorCollection
                     /\ VectorRecord.docId record = docId
                     /\ Fallback.with_score questionEmbedding record = Return r)
           results
      /\ (Forall (fun record => forall s,
                      cosineSimilarity questionEmbedding (VectorRecord.embedding record)
                      = Return s -> PrimFloat.is_nan s = false)
            (Fallback.find vectorCollection docId) ->
          descending (ScoredChunk.score <$> results)))
  /\ (forall (store : VectorStore.t) docId queryEmbedding topK chunks results,
         0 <= topK ->
         store !! docId = Some chunks ->
         VectorStore.search store docId queryEmbedding topK = Return results ->
         Z.of_nat (length results) <= topK
         /\ Forall (fun r => exists chunk,
                        chunk ∈ chunks
                        /\ VectorStore.with_similarity queryEmbedding chunk = Return r)
              results
         /\ (Forall (fun chunk => forall s,
                         cosineSimilarity queryEmbedding (StoredChunk.embedding chunk)
                         = Return s -> PrimFloat.is_nan s = false)
               chunks ->
             descending (SearchResult.similarity <$> results))).
Proof.
  split.
  - exact IndexFacts.fallback_search.
  - exact IndexFacts.store_search.
Qed.

(** The amended C4 on the collection [half, other, match], of which the
    document [d] owns the first and the last record, and on the store that
    maps [d] to the chunks [half, match], with [topK = 1]. *)
Lemma search_returns_top_k_of_document_witness :
  (exists results,
      Fallback.search [half_record; other_record; match_record] (str "d") [1; 0]%float
      = Return results
      /\ ScoredChunk.text <$> results = [str "match"; str "half"]
      /\ Z.of_nat (length results) <= Fallback.topK
      /\ descending (ScoredChunk.score <$> results))
  /\ (exists results,
         VectorStore.search (<[str "d" := [half_chunk; match_chunk]]> VectorStore.empty)
           (str "d") [1; 0]%float 1
         = Return results
         /\ SearchResult.text <$> results = [str "match"]
         /\ Z.of_nat (length results) <= 1
         /\ descending (SearchResult.similarity <$> results)).
Proof.
  destruct search_returns_top_k_of_document as [Hfallback Hstore].
  split.
  - eexists. split; [vm_compute; reflexivity|]. split; [reflexivity|].
    edestruct (Hfallback [half_record; other_record; match_record] (str "d")
                 [1; 0]%float) as (Hlen & _ & Hdesc); [vm_compute; reflexivity|].
    split; [exact Hlen|]. apply Hdesc.
    repeat constructor; intros s Hs; vm_compute in Hs; injection Hs as <-; reflexivity.
  - eexists. split.
    + unfold VectorStore.search. rewrite lookup_insert_eq. vm_compute. reflexivity.
    + split; [reflexivity|].
      edestruct (Hstore (<[str "d" := [half_chunk; match_chunk]]> VectorStore.empty)
                   (str "d") [1; 0]%float 1)
        as (Hlen & _ & Hdesc);
        [lia|apply lookup_insert_eq
        |unfold VectorStore.search; rewrite lookup_insert_eq; vm_compute; reflexivity|].
      split; [exact Hlen|]. apply Hdesc.
      repeat constructor; intros s Hs; vm_compute in Hs; injection Hs as <-; reflexivity.
Defined.

(** ** The embedding gateway *)

Module EmbeddingFacts.
Import Embeddings.

Lemma mapM_app {A B : Type} (f : A -> outcome B) (l1 l2 : list A) :
  mapM f (l1 ++ l2)
  = (r1 ← mapM f l1; r2 ← mapM f l2; Return (r1 ++ r2)).
Proof.
  induction l1 as [|a l1 IH]; cbn [mapM app].
  - destruct (mapM f l2); reflexivity.
  - destruct (f a) as [b|]; [|reflexivity]. cbn. rewrite IH.
    destruct (mapM f l1) as [bs|]; [|reflexivity]. cbn.
    destruct (mapM f l2); reflexivity.
Qed.

Lemma mapM_Forall2 {A B : Type} (f : A -> outcome B) (l : list A) :
  forall rs, mapM f l = Return rs -> Forall2 (fun a r => f a = Return r) l rs.
Proof.
  induction l as [|a l IH]; intros rs; cbn [mapM].
  - intros [= <-]. constructor.
  - destruct (f a) as [b|] eqn:Eb; [|discriminate]. cbn.
    destruct (mapM f l) as [bs|]; [|discriminate]. cbn. intros [= <-].
    constructor; [assumption|now apply IH].
Qed.

(** The loop returns what it had collected followed by the embeddings of
    the texts from [i] on, in their order, or throws when the service
    does. *)
Lemma batches_drop embedContent texts i allEmbeddings :
  batches embedContent texts i allEmbeddings
  = (rest ← mapM embedContent (drop i texts); Return (allEmbeddings ++ rest)).
Proof.
  funelim (batches embedContent texts i allEmbeddings).
  - clear Heqcall. unfold JsArray.slice.
    replace (i + batchSize - i)%nat with batchSize by lia.
    rewrite <- (take_drop batchSize (drop i texts)) at 2.
    rewrite mapM_app, drop_drop.
    destruct (mapM embedContent (take batchSize (drop i texts))) as [b|];
      [|reflexivity].
    change (batches embedContent texts (i + batchSize) (allEmbeddings ++ b)
            = (rest ← (r2 ← mapM embedContent (drop (i + batchSize) texts);
                       Return (b ++ r2));
               Return (allEmbeddings ++ rest))).
    rewrite H.
    destruct (mapM embedContent (drop (i + batchSize) texts)) as [r|];
      [|reflexivity].
    cbn. now rewrite app_assoc.
  - rewrite drop_ge by lia. cbn. now rewrite app_nil_r.
Qed.

(** On one text or more, [generateEmbeddings] returns the embeddings of
    the texts, one for each text and in their order, when the service
    returns all of them. *)
Lemma generateEmbeddings_nonempty embedContent texts embeddings :
  texts <> [] ->
  mapM embedContent texts = Return embeddings ->
  generateEmbeddings embedContent texts = Return embeddings
  /\ length embeddings = length texts
  /\ Forall2 (fun text embedding => embedContent text = Return embedding)
       texts embeddings.
Proof.
  intros Hne Hall.
  pose proof (mapM_Forall2 _ _ _ Hall) as H2.
  split; [|split; [symmetry; eapply Forall2_length; exact H2|exact H2]].
  unfold generateEmbeddings. rewrite batches_drop, drop_0, Hall. cbn.
  destruct embeddings as [|e es]; [|reflexivity].
  apply Forall2_length in H2. destruct texts; [congruence|discriminate].
Qed.

End EmbeddingFacts.

(** C3, on the code: for the empty sequence of texts the loop makes no
    request and collects nothing, the read of [allEmbeddings[0].length] for
    the log line throws, and [generateEmbeddings] throws the wrapped error
    instead of returning the empty sequence. *)
Theorem generateEmbeddings_empty_throws (embedContent : jsstring -> outcome vector) :
  Embeddings.generateEmbeddings embedContent []
  = Throw (str "Failed to generate embeddings: "
           ++ str "Cannot read properties of undefined (reading 'length')").
Proof.
  unfold Embeddings.generateEmbeddings.
  rewrite EmbeddingFacts.batches_drop. reflexivity.
Qed.

(** ** The [/api/ask] route *)

Module AskFacts.

Lemma bind_perform_return {A B : Type} (c : call) (a : A) (k : A -> io B) :
  (perform c (Return a) ≫= k) = IO (result (k a)) (c :: calls (k a)).
Proof. reflexivity. Qed.

Lemma bind_return {A B : Type} (m : io A) (a : A) (k : A -> io B) :
  result m = Return a ->
  (m ≫= k) = IO (result (k a)) (calls m ++ calls (k a)).
Proof. intros H. unfold mbind, io_bind. now rewrite H. Qed.

(** The retrieval calls the storage engine, once or twice, and nothing
    else. *)
Lemma retrieve_calls vectorSearch db docId questionEmbedding :
  Forall (fun c => c = VectorSearch docId \/ c = FindVectors docId)
    (calls (Server.retrieve vectorSearch db docId questionEmbedding)).
Proof.
  unfold Server.retrieve, io_try, perform. cbn [result calls].
  destruct (vectorSearch _ _ _ _ _); cbn [result calls app];
    repeat (apply Forall_cons; split); try apply Forall_nil; auto.
Qed.

End AskFacts.

(** C5: when the request names a document that exists and the retrieval
    returns no chunk, [/api/ask] answers with the fixed text and an empty
    [sources] array, and the chat model is not called. *)
Theorem no_chunks_no_generation
    (embedContent : jsstring -> outcome vector)
    (vectorSearch : list VectorRecord.t -> vector -> Z -> Z -> jsstring
                    -> outcome (list ScoredChunk.t))
    (generateContent : jsstring -> outcome jsstring)
    (db : Db.t) (docId question : jsstring) (document : DocumentRecord.t)
    (questionEmbedding : vector) :
  docId <> [] -> question <> [] ->
  Server.findOne (Db.documents db) docId = Some document ->
  Embeddings.generateSingleEmbedding embedContent question = Return questionEmbedding ->
  result (Server.retrieve vectorSearch db docId questionEmbedding) = Return [] ->
  let run := Server.ask embedContent vectorSearch generateContent db
               (Server.Request (Some docId) (Some question)) in
  result run
  = Return (Response 200
              (AnswerBody Server.no_relevant_information question docId [] None))
  /\ forall prompt, GenerateContent prompt ∉ calls run.
Proof.
  intros Hd Hq Hdoc Hemb Hret run. subst run. unfold Server.ask.
  cbn [Server.docId Server.question].
  change (default [] (Some docId)) with docId.
  change (default [] (Some question)) with question.
  assert (Hm : (Server.missing (Some docId) || Server.missing (Some question))%bool
               = false).
  { destruct docId, question; cbn; congruence. }
  rewrite Hm, AskFacts.bind_perform_return. cbv beta.
  rewrite Hdoc, Hemb, AskFacts.bind_perform_return. cbv beta.
  rewrite (AskFacts.bind_return _ _ _ Hret).
  cbn [length Nat.eqb result calls mret io_ret app io_try].
  split; [reflexivity|].
  intros prompt Hin. rewrite app_nil_r in Hin.
  apply elem_of_cons in Hin as [Hin|Hin]; [discriminate|].
  apply elem_of_cons in Hin as [Hin|Hin]; [discriminate|].
  pose proof (AskFacts.retrieve_calls vectorSearch db docId questionEmbedding) as Hc.
  eapply Forall_forall in Hc; [|exact Hin]. destruct Hc; discriminate.
Qed.

(** C5 on that database: the calls are the lookup of the document, the
    embedding of the question and the two searches. *)
Lemma no_chunks_no_generation_witness :
  let run := Server.ask embed_constant no_search_index chat_constant
               db_without_vectors
               (Server.Request (Some (str "d")) (Some (str "why?"))) in
  calls run = [FindDocument (str "d"); EmbedContent (str "why?");
               VectorSearch (str "d"); FindVectors (str "d")]
  /\ result run
     = Return (Response 200
                 (AnswerBody Server.no_relevant_information (str "why?") (str "d")
                    [] None))
  /\ forall prompt, GenerateContent prompt ∉ calls run.
Proof.
  split; [vm_compute; reflexivity|].
  apply (no_chunks_no_generation embed_constant no_search_index chat_constant
           db_without_vectors (str "d") (str "why?") document_d [1; 0]%float);
    try discriminate; vm_compute; reflexivity.
Defined.

(** With a chunk to retrieve, the chat model is called. *)
Example generation_with_chunks :
  let run := Server.ask embed_constant no_search_index chat_constant
               (Db.mk [document_d] [match_record])
               (Server.Request (Some (str "d")) (Some (str "why?"))) in
  exists prompt sources details,
    calls run = [FindDocument (str "d"); EmbedContent (str "why?");
                 VectorSearch (str "d"); FindVectors (str "d");
                 GenerateContent prompt]
    /\ result run
       = Return (Response 200
                   (AnswerBody (str "answer") (str "why?") (str "d") sources
                      (Some details)))
    /\ length sources = 1%nat.
Proof. do 3 eexists. vm_compute. repeat split. Qed.

(** ** Deleting a document *)

Module DeleteFacts.

Lemma deleteMany_find vectors docId :
  Fallback.find (Server.deleteMany vectors docId) docId = [].
Proof.
  unfold Fallback.find, Server.deleteMany.
  induction vectors as [|r vectors IH]; [reflexivity|]. cbn [List.filter].
  destruct (bool_decide (VectorRecord.docId r = docId)) eqn:E; cbn [negb]; [exact IH|].
  cbn [List.filter]. rewrite E. exact IH.
Qed.

Lemma deleteMany_other vectors docId other :
  other <> docId ->
  List.filter (fun r => bool_decide (VectorRecord.docId r = other))
    (Server.deleteMany vectors docId)
  = List.filter (fun r => bool_decide (VectorRecord.docId r = other)) vectors.
Proof.
  intros Hne. unfold Server.deleteMany.
  induction vectors as [|r vectors IH]; [reflexivity|]. cbn [List.filter].
  destruct (bool_decide_reflect (VectorRecord.docId r = docId)) as [E|E]; cbn [negb].
  - rewrite IH. rewrite bool_decide_eq_false_2; [reflexivity|congruence].
  - cbn [List.filter]. now rewrite IH.
Qed.

Lemma deleteMany_absent vectors docId :
  Forall (fun r => VectorRecord.docId r <> docId) vectors ->
  Server.deleteMany vectors docId = vectors.
Proof.
  unfold Server.deleteMany. induction 1 as [|r vectors Hr _ IH]; [reflexivity|].
  cbn [List.filter]. rewrite bool_decide_eq_false_2 by assumption. cbn [negb].
  now rewrite IH.
Qed.

Lemma deleteOne_absent documents docId :
  Forall (fun d => DocumentRecord._id d <> docId) documents ->
  Server.deleteOne documents docId = documents.
Proof.
  induction 1 as [|d documents Hd _ IH]; [reflexivity|].
  cbn [Server.deleteOne]. rewrite bool_decide_eq_false_2 by assumption.
  now rewrite IH.
Qed.

Lemma findOne_absent documents docId :
  Forall (fun d => DocumentRecord._id d <> docId) documents ->
  Server.findOne documents docId = None.
Proof.
  unfold Server.findOne. induction 1 as [|d documents Hd _ IH]; [reflexivity|].
  cbn [find]. now rewrite bool_decide_eq_false_2.
Qed.

(** With unique [_id]s, the document is gone once [deleteOne] has run. *)
Lemma findOne_deleteOne documents docId :
  NoDup (DocumentRecord._id <$> documents) ->
  Server.findOne (Server.deleteOne documents docId) docId = None.
Proof.
  induction documents as [|d documents IH]; intros Hnd; [reflexivity|].
  rewrite fmap_cons in Hnd. apply NoDup_cons in Hnd as [Hd Hnd].
  cbn [Server.deleteOne].
  destruct (bool_decide_reflect (DocumentRecord._id d = docId)) as [E|E].
  - apply findOne_absent, Forall_forall. intros d' Hd' E'. apply Hd.
    rewrite E, <- E'. now apply list_elem_of_fmap_2.
  - unfold Server.findOne. cbn [find]. rewrite bool_decide_eq_false_2 by assumption.
    now apply IH.
Qed.

(** At the level of the routes, a question about a deleted document is
    answered with "not found", before any search. *)
Lemma ask_after_delete_not_found embedContent vectorSearch generateContent
    (db : Db.t) (docId question : jsstring) :
  docId <> [] -> question <> [] ->
  NoDup (DocumentRecord._id <$> Db.documents db) ->
  Server.ask embedContent vectorSearch generateContent
    (fst (Server.delete_document db docId))
    (Server.Request (Some docId) (Some question))
  = IO (Return (Response 404 (ErrorBody (str "Document not found"))))
      [FindDocument docId].
Proof.
  intros Hd Hq Hnd. unfold Server.ask.
  cbn [Server.docId Server.question Server.delete_document fst Db.documents].
  change (default [] (Some docId)) with docId.
  change (default [] (Some question)) with question.
  assert (Hm : (Server.missing (Some docId) || Server.missing (Some question))%bool
               = false).
  { destruct docId, question; cbn; congruence. }
  rewrite Hm, AskFacts.bind_perform_return. cbv beta.
  rewrite (findOne_deleteOne _ _ Hnd). reflexivity.
Qed.

End DeleteFacts.

(** C7 as stated fails for the in-memory store: after [d] was stored and
    deleted, a search for [d] throws. *)
Lemma search_after_delete_throws :
  fst (VectorStore.deleteDocument store_d (str "d")) !! str "d" = None
  /\ VectorStore.search (fst (VectorStore.deleteDocument store_d (str "d")))
       (str "d") [1; 0]%float VectorStore.defaultTopK
     = Throw (str "Document d not found in vector store").
Proof.
  assert (H : fst (VectorStore.deleteDocument store_d (str "d")) !! str "d" = None)
    by apply lookup_delete_eq.
  split; [exact H|]. unfold VectorStore.search. rewrite H. reflexivity.
Qed.

(** C7, amended. After the delete route, no vector of [docId] is left, the
    brute-force search for [docId] returns the empty sequence, and the
    vectors of other documents are kept; when nothing is stored under
    [docId] the route leaves the database as it is, and it answers with a
    success message in every case. In the in-memory store,
    [deleteDocument] removes the entry of [docId] and keeps the others, and
    on an id that is not stored it returns [false] and leaves the store as
    it is; a search for a deleted [docId] throws "not found", while
    [getDocument] returns the empty array. *)
Theorem delete_then_search :
  (forall db docId questionEmbedding,
      let db' := fst (Server.delete_document db docId) in
      snd (Server.delete_document db docId)
      = Response 200 (MessageBody (str "Document deleted successfully"))
      /\ Forall (fun r => VectorRecord.docId r <> docId) (Db.vectors db')
      /\ Fallback.search (Db.vectors db') docId questionEmbedding = Return []
      /\ (forall other, other <> docId ->
            List.filter (fun r => bool_decide (VectorRecord.docId r = other))
              (Db.vectors db')
            = List.filter (fun r => bool_decide (VectorRecord.docId r = other))
                (Db.vectors db))
      /\ (Forall (fun d => DocumentRecord._id d <> docId) (Db.documents db) ->
          Forall (fun r => VectorRecord.docId r <> docId) (Db.vectors db) ->
          db' = db))
  /\ (forall (store : VectorStore.t) docId queryEmbedding topK,
         let store' := fst (VectorStore.deleteDocument store docId) in
         store' !! docId = None
         /\ (forall other, other <> docId -> store' !! other = store !! other)
         /\ VectorStore.getDocument store' docId = []
         /\ VectorStore.search store' docId queryEmbedding topK
            = Throw (str "Document " ++ docId ++ str " not found in vector store")
         /\ (store !! docId = None ->
             VectorStore.deleteDocument store docId = (store, false))).
Proof.
  split.
  - intros db docId questionEmbedding db'. subst db'. cbn [Server.delete_document fst snd Db.vectors].
    split; [reflexivity|]. split; [|split; [|split]].
    + unfold Server.deleteMany. apply Forall_forall. intros r Hr.
      apply list_elem_of_In, filter_In in Hr as [_ Hr].
      apply negb_true_iff, bool_decide_eq_false in Hr. exact Hr.
    + unfold Fallback.search. now rewrite DeleteFacts.deleteMany_find.
    + intros other Hne. now apply DeleteFacts.deleteMany_other.
    + intros Hdocs Hvecs. destruct db as [documents vectors].
      cbn [Db.documents Db.vectors] in *.
      now rewrite DeleteFacts.deleteOne_absent, DeleteFacts.deleteMany_absent.
  - intros store docId queryEmbedding topK store'. subst store'.
    cbn [VectorStore.deleteDocument fst].
    assert (H : delete docId store !! docId = None) by apply lookup_delete_eq.
    split; [exact H|]. split; [|split; [|split]].
    + intros other Hne. now apply lookup_delete_ne.
    + unfold VectorStore.getDocument. now rewrite H.
    + unfold VectorStore.search. now rewrite H.
    + intros Hnone. unfold VectorStore.deleteDocument.
      rewrite delete_id by assumption. rewrite Hnone. reflexivity.
Qed.

(** The amended C7 on the database that holds the document [d] with its
    records [zero] and [match] and a record of another document, and on
    the store that holds [d]. *)
Lemma delete_then_search_witness :
  (Db.vectors (fst (Server.delete_document
                      (Db.mk [document_d] [zero_record; other_record; match_record])
                      (str "d")))
   = [other_record]
   /\ Fallback.search
        (Db.vectors (fst (Server.delete_document
                            (Db.mk [document_d]
                               [zero_record; other_record; match_record])
                            (str "d"))))
        (str "d") [1; 0]%float
      = Return [])
  /\ VectorStore.deleteDocument VectorStore.empty (str "d")
     = (VectorStore.empty, false).
Proof.
  destruct delete_then_search as [Hroute Hstore].
  split.
  - split; [vm_compute; reflexivity|].
    apply (Hroute (Db.mk [document_d] [zero_record; other_record; match_record])
             (str "d") [1; 0]%float).
  - apply (Hstore VectorStore.empty (str "d") [] 0). apply lookup_empty.
Defined.

(** ** Adding documents to the in-memory store *)

(** C10: a call of [addDocuments] with as many embeddings as chunks maps
    [docId] to the enriched chunks of this call, whatever was stored under
    [docId] before, and leaves every other entry as it was. The enriched
    chunks are, position by position, the text, index and metadata of the
    chunk with the embedding of the same position. *)
Theorem addDocuments_replaces_entry (store : VectorStore.t) (docId : jsstring)
    (chunks : list Chunk.t) (embeddings : list vector) :
  length chunks = length embeddings ->
  exists store',
    VectorStore.addDocuments store docId chunks embeddings = Return store'
    /\ store' !! docId = Some (VectorStore.enrichedChunks chunks embeddings)
    /\ (forall other, other <> docId -> store' !! other = store !! other)
    /\ length (VectorStore.enrichedChunks chunks embeddings) = length chunks
    /\ (forall i chunk embedding,
          chunks !! i = Some chunk ->
          embeddings !! i = Some embedding ->
          VectorStore.enrichedChunks chunks embeddings !! i
          = Some {| StoredChunk.text := Chunk.text chunk;
                    StoredChunk.embedding := embedding;
                    StoredChunk.chunkIndex := Chunk.chunkIndex chunk;
                    StoredChunk.metadata := Chunk.metadata chunk |}).
Proof.
  intros Hlen. exists (<[docId := VectorStore.enrichedChunks chunks embeddings]> store).
  split; [|split; [|split; [|split]]].
  - unfold VectorStore.addDocuments. now rewrite Hlen, Nat.eqb_refl.
  - apply lookup_insert_eq.
  - intros other Hne. now apply lookup_insert_ne.
  - unfold VectorStore.enrichedChunks. now apply length_zip_with_l_eq.
  - intros i chunk embedding Hc He. unfold VectorStore.enrichedChunks.
    rewrite lookup_zip_with, Hc, He. cbn. f_equal. unfold VectorStore.enrich.
    destruct chunk as [text index [page pn pr sc ec cl]]. reflexivity.
Qed.

(** C10 on the store that already holds [d]: the two chunks stored for [d]
    are replaced by the one chunk of the call. *)
Lemma addDocuments_replaces_entry_witness :
  exists store',
    VectorStore.addDocuments store_d (str "d") [chunk_0] [[1; 0]%float] = Return store'
    /\ store' !! str "d"
       = Some [StoredChunk.mk (str "first") [1; 0]%float 0 metadata_of_page_1]
    /\ (forall other, other <> str "d" -> store' !! other = store_d !! other).
Proof.
  destruct (addDocuments_replaces_entry store_d (str "d") [chunk_0] [[1; 0]%float]
              eq_refl) as (store' & Hadd & Hd & Hother & _).
  exists store'. split; [exact Hadd|]. split; [exact Hd|exact Hother].
Defined.

(** A call with fewer embeddings than chunks throws and stores nothing. *)
Lemma addDocuments_length_mismatch (store : VectorStore.t) docId chunks embeddings :
  length chunks <> length embeddings ->
  VectorStore.addDocuments store docId chunks embeddings
  = Throw (str "Number of chunks and embeddings must match").
Proof.
  intros Hne. unfold VectorStore.addDocuments.
  apply Nat.eqb_neq in Hne. now rewrite Hne.
Qed.

(** * Further properties *)

(** ** Trimming and searching strings *)

Module StringFacts.

Lemma trimStart_app_text l c :
  JsString.is_white_space c = false ->
  JsString.trimStart (l ++ [c]) = JsString.trimStart l ++ [c].
Proof.
  intros Hc. induction l as [|a l IH]; cbn [app JsString.trimStart].
  - now rewrite Hc.
  - destruct (JsString.is_white_space a); [exact IH|reflexivity].
Qed.

Lemma trimStart_fixed s :
  match s with [] => True | c :: _ => JsString.is_white_space c = false end ->
  JsString.trimStart s = s.
Proof. destruct s as [|c s]; [reflexivity|]. cbn. now intros ->. Qed.

Lemma trimStart_head s :
  match JsString.trimStart s with
  | [] => True
  | c :: _ => JsString.is_white_space c = false
  end.
Proof.
  induction s as [|c s IH]; [exact I|]. cbn [JsString.trimStart].
  destruct (JsString.is_white_space c) eqn:E; [exact IH|exact E].
Qed.

Lemma trimStart_idem s :
  JsString.trimStart (JsString.trimStart s) = JsString.trimStart s.
Proof. apply trimStart_fixed, trimStart_head. Qed.

Lemma trimEnd_head s :
  match s with [] => True | c :: _ => JsString.is_white_space c = false end ->
  match s with
  | [] => JsString.trimEnd s = []
  | c :: _ => exists t, JsString.trimEnd s = c :: t
  end.
Proof.
  destruct s as [|c s]; [reflexivity|]. intros Hc. unfold JsString.trimEnd.
  cbn [rev]. rewrite trimStart_app_text by assumption.
  rewrite rev_app_distr. cbn. eexists. reflexivity.
Qed.

(** [trim] is idempotent: a trimmed string has no white space at either
    end. *)
Lemma trim_idem s : JsString.trim (JsString.trim s) = JsString.trim s.
Proof.
  unfold JsString.trim.
  assert (H1 : JsString.trimStart (JsString.trimEnd (JsString.trimStart s))
               = JsString.trimEnd (JsString.trimStart s)).
  { pose proof (trimStart_head s) as Hh.
    pose proof (trimEnd_head (JsString.trimStart s) Hh) as He.
    destruct (JsString.trimStart s) as [|c t].
    - now rewrite He.
    - destruct He as [u ->]. apply trimStart_fixed. exact Hh. }
  rewrite H1. unfold JsString.trimEnd. rewrite rev_involutive, trimStart_idem.
  reflexivity.
Qed.

Lemma trimStart_nil s :
  JsString.trimStart s = [] <-> ~ has_text s.
Proof.
  unfold has_text. induction s as [|c s IH]; cbn [JsString.trimStart].
  - split; [intros _ H; inversion H|reflexivity].
  - destruct (JsString.is_white_space c) eqn:E.
    + rewrite IH. split; intros H Hex.
      * apply Exists_cons in Hex as [Hc|Hs]; [congruence|now apply H].
      * apply H. now right.
    + split; [discriminate|]. intros H. exfalso. apply H. now left.
Qed.

(** [trim] leaves something exactly of the strings that hold a character
    other than white space. *)
Lemma trimStart_cons s c t : JsString.trimStart s = c :: t -> has_text s.
Proof.
  unfold has_text. induction s as [|a s IH]; cbn [JsString.trimStart];
    [discriminate|].
  destruct (JsString.is_white_space a) eqn:E; intros H.
  - right. now apply IH.
  - now left.
Qed.

Lemma trim_has_text s : 0 < JsString.length (JsString.trim s) <-> has_text s.
Proof.
  unfold JsString.trim.
  pose proof (trimStart_head s) as Hh.
  pose proof (trimEnd_head (JsString.trimStart s) Hh) as He.
  pose proof (trimStart_nil s) as Hn.
  pose proof (trimStart_cons s) as Hc.
  destruct (JsString.trimStart s) as [|c t].
  - rewrite He. unfold JsString.length. simpl. split; [lia|].
    intros H. exfalso. now apply (proj1 Hn).
  - destruct He as [u ->]. unfold JsString.length. split; [|simpl; lia].
    intros _. now apply (Hc c t).
Qed.

Lemma has_text_app_r a b : has_text b -> has_text (a ++ b).
Proof. unfold has_text. intros H. apply Exists_app. now right. Qed.

Lemma has_text_app_l a b : has_text a -> has_text (a ++ b).
Proof. unfold has_text. intros H. apply Exists_app. now left. Qed.

Lemma has_text_nonempty s : has_text s -> s <> [].
Proof. intros H ->. inversion H. Qed.

Lemma starts_with_app p s : JsString.starts_with p (p ++ s) = true.
Proof.
  induction p as [|c p IH]; [reflexivity|]. cbn. now rewrite N.eqb_refl, IH.
Qed.

Lemma indexOf_from_found p : forall before after i,
  i <= JsString.indexOf_from i (before ++ p ++ after) p.
Proof.
  induction before as [|c before IH]; intros after i; cbn [app].
  - destruct (p ++ after) eqn:E; cbn [JsString.indexOf_from];
      rewrite <- E, starts_with_app; lia.
  - cbn [JsString.indexOf_from].
    destruct (JsString.starts_with p (c :: before ++ p ++ after)); [lia|].
    specialize (IH after (i + 1)). lia.
Qed.

(** [indexOf] finds what occurs in the string. *)
Lemma indexOf_occurs p s : occurs_in p s -> 0 <= JsString.indexOf s p.
Proof. intros (before & after & ->). apply indexOf_from_found. Qed.

Lemma split_blank_lines_occur text : forall s insep cur before,
  (insep = true -> cur = []) ->
  text = before ++ cur ++ s ->
  Forall (fun piece => occurs_in piece text)
    (JsString.split_blank_lines insep cur s).
Proof.
  intros s. remember (length s) as n eqn:Hn. revert s Hn.
  induction n as [n IH] using (well_founded_induction lt_wf).
  assert (Happ : forall (a b : jsstring) x y, (a ++ b ++ [x]) ++ y = a ++ b ++ x :: y).
  { intros. now rewrite <- !app_assoc. }
  intros [|c s'] Hn insep cur before Hcur Htext; cbn [JsString.split_blank_lines].
  - constructor; [|constructor]. exists before, []. now rewrite app_nil_r in *.
  - destruct (insep && JsString.is_nl c) eqn:E.
    + apply andb_prop in E as [-> _]. rewrite (Hcur eq_refl) in *.
      apply (IH (length s')) with (before := before ++ [c]);
        [subst n; simpl; lia|reflexivity|auto|].
      rewrite Htext. simpl. now rewrite <- app_assoc.
    + destruct s' as [|c' s''].
      * constructor; [|constructor]. exists before, [].
        rewrite Htext, app_nil_r. reflexivity.
      * destruct (JsString.is_nl c && JsString.is_nl c').
        -- constructor.
           ++ exists before, (c :: c' :: s''). exact Htext.
           ++ apply (IH (length s'')) with (before := before ++ cur ++ [c; c']);
                [subst n; simpl; lia|reflexivity|auto|].
              rewrite Htext. simpl. now rewrite <- !app_assoc.
        -- apply (IH (length (c' :: s''))) with (before := before);
             [subst n; simpl; lia|reflexivity|discriminate|].
           rewrite Htext. now rewrite <- !app_assoc.
Qed.

(** Every paragraph of a page occurs in its text and holds a character
    other than white space. *)
Lemma paragraphs_spec text :
  Forall (fun p => occurs_in p text /\ has_text p) (Chunker.paragraphs text).
Proof.
  unfold Chunker.paragraphs, JsString.split.
  pose proof (split_blank_lines_occur text text false [] [] ltac:(discriminate)
                eq_refl) as H.
  induction H as [|p ps Hp _ IH]; cbn [List.filter]; [constructor|].
  destruct (0 <? JsString.length (JsString.trim p)) eqn:E; [|exact IH].
  constructor; [|exact IH]. split; [exact Hp|].
  apply trim_has_text. now apply Z.ltb_lt.
Qed.

Lemma trimStart_keeps x m y :
  starts_with_text m ->
  exists x', JsString.trimStart (x ++ m ++ y) = x' ++ m ++ y.
Proof.
  intros Hm. induction x as [|a x IH]; cbn [app JsString.trimStart].
  - exists []. destruct m as [|c m]; [destruct Hm|].
    cbn in *. now rewrite Hm.
  - destruct (JsString.is_white_space a); [exact IH|]. now exists (a :: x).
Qed.

Lemma trimEnd_keeps x m y :
  starts_with_text (rev m) ->
  exists y', JsString.trimEnd (x ++ m ++ y) = x ++ m ++ y'.
Proof.
  intros Hm. unfold JsString.trimEnd.
  rewrite !rev_app_distr, <- app_assoc.
  destruct (trimStart_keeps (rev y) (rev m) (rev x) Hm) as [y' ->].
  exists (rev y'). now rewrite !rev_app_distr, !rev_involutive, <- app_assoc.
Qed.

Lemma trimStart_suffix s : exists w, s = w ++ JsString.trimStart s.
Proof.
  induction s as [|c s [w IH]]; [now exists []|]. cbn [JsString.trimStart].
  destruct (JsString.is_white_space c); [|now exists []].
  exists (c :: w). cbn. now rewrite <- IH.
Qed.

Lemma trim_occurs_in_self p : occurs_in (JsString.trim p) p.
Proof.
  unfold JsString.trim, JsString.trimEnd.
  destruct (trimStart_suffix p) as [w1 H1].
  destruct (trimStart_suffix (rev (JsString.trimStart p))) as [w2 H2].
  exists w1, (rev w2). rewrite <- rev_app_distr, <- H2, rev_involutive.
  exact H1.
Qed.

Lemma trim_starts_with_text p :
  has_text p ->
  starts_with_text (JsString.trim p) /\ starts_with_text (rev (JsString.trim p)).
Proof.
  intros Hp. unfold JsString.trim.
  pose proof (trimStart_head p) as Hh.
  pose proof (trimEnd_head (JsString.trimStart p) Hh) as He.
  destruct (JsString.trimStart p) as [|c t] eqn:E.
  - apply trimStart_nil in E. contradiction.
  - destruct He as [u Hu]. split; [now rewrite Hu|].
    unfold JsString.trimEnd in *. rewrite rev_involutive.
    pose proof (trimStart_head (rev (c :: t))) as Hr.
    destruct (JsString.trimStart (rev (c :: t))); [discriminate|exact Hr].
Qed.

(** Trimming a string keeps the trimmed form of what occurs in it. *)
Lemma trim_occurs p s :
  has_text p -> occurs_in p s ->
  occurs_in (JsString.trim p) (JsString.trim s).
Proof.
  intros Hp (a & b & ->).
  destruct (trim_occurs_in_self p) as (w1 & w2 & Hw).
  destruct (trim_starts_with_text p Hp) as [H1 H2].
  set (m := JsString.trim p) in *.
  replace (a ++ p ++ b) with ((a ++ w1) ++ m ++ (w2 ++ b))
    by (rewrite Hw, <- !app_assoc; reflexivity).
  unfold JsString.trim at 1.
  destruct (trimStart_keeps (a ++ w1) m (w2 ++ b) H1) as [x' ->].
  destruct (trimEnd_keeps x' m (w2 ++ b) H2) as [y' ->].
  now exists x', y'.
Qed.

Lemma occurs_in_refl p : occurs_in p p.
Proof. exists [], []. cbn. now rewrite app_nil_r. Qed.

Lemma occurs_in_app_l p s t : occurs_in p s -> occurs_in p (s ++ t).
Proof.
  intros (a & b & ->). exists a, (b ++ t). now rewrite <- !app_assoc.
Qed.

Lemma occurs_in_app_r p s t : occurs_in p s -> occurs_in p (t ++ s).
Proof.
  intros (a & b & ->). exists (t ++ a), b. now rewrite <- !app_assoc.
Qed.

End StringFacts.

(** ** The chunker page by page *)

Module PageFacts.
Import Chunker.

Section Params.
Variables (chunkSize overlap : Z).

Lemma save_chunk_after pre k pageNumber lastParagraph st :
  save_chunk pageNumber lastParagraph (after_chunks pre k st)
  = after_chunks pre k (save_chunk pageNumber lastParagraph st).
Proof.
  unfold save_chunk, after_chunks. cbn [currentChunk].
  destruct (0 <? _); cbn; [|reflexivity].
  rewrite map_app, app_assoc, Z.add_assoc. reflexivity.
Qed.

Lemma step_after pre k pg st p :
  step chunkSize overlap pg (after_chunks pre k st) p
  = after_chunks pre k (step chunkSize overlap pg st p).
Proof.
  unfold step.
  set (s0 := {| currentChunk := currentChunk st;
                chunkStartChar := chunkStartChar st;
                paragraphNumber := paragraphNumber st + 1;
                chunkStartParagraph := chunkStartParagraph st;
                allChunks := allChunks st;
                globalChunkIndex := globalChunkIndex st |}).
  change (currentChunk (after_chunks pre k st)) with (currentChunk st).
  destruct (chunkSize <? _).
  - change (save_chunk (Page.pageNumber pg) (paragraphNumber (after_chunks pre k st) + 1 - 1) _)
      with (save_chunk (Page.pageNumber pg) (paragraphNumber st + 1 - 1)
              (after_chunks pre k s0)).
    rewrite save_chunk_after.
    generalize (save_chunk (Page.pageNumber pg) (paragraphNumber st + 1 - 1) s0).
    intros st'.
    change (currentChunk (after_chunks pre k st')) with (currentChunk st').
    destruct (overlap <? _); reflexivity.
  - destruct (0 <? _); reflexivity.
Qed.

Lemma fold_step_after pre k pg ps : forall st,
  fold_left (step chunkSize overlap pg) ps (after_chunks pre k st)
  = after_chunks pre k (fold_left (step chunkSize overlap pg) ps st).
Proof.
  induction ps as [|p ps IH]; intros st; [reflexivity|].
  cbn [fold_left]. rewrite step_after. apply IH.
Qed.

Lemma process_page_after pre k pg :
  process_page chunkSize overlap (pre, k) pg
  = (pre ++ map (renumber k) (fst (process_page chunkSize overlap ([], 0) pg)),
     k + snd (process_page chunkSize overlap ([], 0) pg)).
Proof.
  unfold process_page. cbn [fst snd].
  change {| currentChunk := []; chunkStartChar := Page.startChar pg;
            paragraphNumber := 0; chunkStartParagraph := 0;
            allChunks := []; globalChunkIndex := 0 |} with (page_start pg).
  replace {| currentChunk := []; chunkStartChar := Page.startChar pg;
             paragraphNumber := 0; chunkStartParagraph := 0;
             allChunks := pre; globalChunkIndex := k |}
    with (after_chunks pre k (page_start pg)).
  2:{ unfold after_chunks, page_start. cbn. now rewrite app_nil_r, Z.add_0_r. }
  rewrite fold_step_after.
  change (paragraphNumber (after_chunks pre k ?s)) with (paragraphNumber s).
  rewrite save_chunk_after. reflexivity.
Qed.

Lemma renumber_renumber j k c : renumber j (renumber k c) = renumber (j + k) c.
Proof. unfold renumber. cbn. now rewrite Z.add_assoc. Qed.

Lemma pages_after ps : forall pre k,
  fold_left (process_page chunkSize overlap) ps (pre, k)
  = (pre ++ map (renumber k)
              (fst (fold_left (process_page chunkSize overlap) ps ([], 0))),
     k + snd (fold_left (process_page chunkSize overlap) ps ([], 0))).
Proof.
  induction ps as [|pg ps IH]; intros pre k.
  - cbn. now rewrite app_nil_r, Z.add_0_r.
  - cbn [fold_left]. rewrite process_page_after.
    destruct (process_page chunkSize overlap ([], 0) pg) as [cs1 k1].
    cbn [fst snd]. rewrite (IH (pre ++ map (renumber k) cs1) (k + k1)).
    rewrite (IH cs1 k1). cbn [fst snd].
    rewrite map_app, map_map, app_assoc, Z.add_assoc.
    f_equal. f_equal. apply map_ext. intros c. now rewrite renumber_renumber.
Qed.

Lemma pages_counter ps :
  snd (fold_left (process_page chunkSize overlap) ps ([], 0))
  = Z.of_nat (length (splitIntoChunksWithMetadata chunkSize overlap ps)).
Proof.
  apply ChunkerFacts.emitted_counter.
  apply (ChunkerFacts.pages_emitted chunkSize overlap ps ([], 0)). constructor.
Qed.

Lemma split_app ps1 ps2 :
  splitIntoChunksWithMetadata chunkSize overlap (ps1 ++ ps2)
  = splitIntoChunksWithMetadata chunkSize overlap ps1
    ++ map (renumber
              (Z.of_nat (length (splitIntoChunksWithMetadata chunkSize overlap ps1))))
         (splitIntoChunksWithMetadata chunkSize overlap ps2).
Proof.
  unfold splitIntoChunksWithMetadata at 1. rewrite fold_left_app.
  destruct (fold_left (process_page chunkSize overlap) ps1 ([], 0))
    as [cs k] eqn:E.
  rewrite pages_after. cbn [fst].
  pose proof (pages_counter ps1) as Hk. rewrite E in Hk. cbn [snd] in Hk.
  unfold splitIntoChunksWithMetadata in *. rewrite E in *. cbn [fst] in *. rewrite Hk. reflexivity.
Qed.

Lemma slice_from_length s start :
  JsString.length (JsString.slice_from s start)
  = JsString.length s
    - (if start <? 0 then Z.max (JsString.length s + start) 0
       else Z.min start (JsString.length s)).
Proof.
  unfold JsString.slice_from, JsString.length. rewrite length_drop.
  destruct (start <? 0) eqn:E; lia.
Qed.

Lemma app_length_Z (a b : jsstring) :
  JsString.length (a ++ b) = JsString.length a + JsString.length b.
Proof. unfold JsString.length. rewrite length_app. lia. Qed.

Lemma seed_start s (o : Z) :
  o < JsString.length s ->
  2 <= JsString.length (JsString.slice_from s (- o)) + 2 - o.
Proof.
  intros H. rewrite slice_from_length. pose proof (Nat2Z.is_nonneg (length s)).
  unfold JsString.length in *. destruct (- o <? 0) eqn:E; lia.
Qed.

Lemma page_start_invariant pg : page_invariant pg [] (page_start pg).
Proof.
  split; cbn; try lia; try (now constructor); try congruence; auto.
Qed.

Lemma cites_paragraphs_mono n n' m :
  n <= n' -> cites_paragraphs n m -> cites_paragraphs n' m.
Proof.
  unfold cites_paragraphs. intros Hn [H1 [H2|(last & H2 & H3)]].
  - split; [lia|now left].
  - split; [lia|]. right. exists last. split; [assumption|lia].
Qed.

Lemma chunk_of_page_mono pg n n' c :
  n <= n' -> chunk_of_page pg n c -> chunk_of_page pg n' c.
Proof.
  unfold chunk_of_page. intros Hn (H1 & H2 & H3).
  eauto using cites_paragraphs_mono.
Qed.

Lemma make_chunk_of_page pg st last :
  Page.startChar pg <= chunkStartChar st ->
  1 <= chunkStartParagraph st <= last ->
  chunk_of_page pg last (make_chunk (Page.pageNumber pg) st last).
Proof.
  intros Hs Hp. unfold chunk_of_page, cites_paragraphs, make_chunk. cbn.
  split; [reflexivity|]. split; [|assumption]. split; [lia|].
  destruct (Z.eqb_spec (chunkStartParagraph st) last); [now left|].
  right. exists last. split; [reflexivity|lia].
Qed.

Lemma sorted_snoc (l : list Z) x :
  StronglySorted Z.lt l -> Forall (fun y => y < x) l ->
  StronglySorted Z.lt (l ++ [x]).
Proof.
  induction 1 as [|a l Hl IH Ha]; intros Hx; cbn.
  - constructor; constructor.
  - inversion Hx; subst. constructor; [now apply IH|].
    apply Forall_app. split; [assumption|]. now constructor.
Qed.

Lemma kept_in_app cs cs' p : kept_in cs p -> kept_in (cs ++ cs') p.
Proof. unfold kept_in. intros H. apply Exists_app. now left. Qed.

(** The chunks after the buffer was saved, when [seen] is not empty: every
    paragraph seen is in one of them. [n] is the number of the paragraph
    at hand, which the saved chunk does not record. *)
Lemma flush_invariant pg seen st n :
  Forall has_text seen ->
  page_invariant pg seen st ->
  let st1 := save_chunk (Page.pageNumber pg) (paragraphNumber st)
               {| currentChunk := currentChunk st;
                  chunkStartChar := chunkStartChar st;
                  paragraphNumber := n;
                  chunkStartParagraph := chunkStartParagraph st;
                  allChunks := allChunks st;
                  globalChunkIndex := globalChunkIndex st |} in
  currentChunk st1 = currentChunk st
  /\ chunkStartChar st1 = chunkStartChar st
  /\ Forall (fun c => chunk_of_page pg (paragraphNumber st) c
                      /\ Metadata.paragraphNumber (Chunk.metadata c)
                         <= paragraphNumber st)
       (allChunks st1)
  /\ StronglySorted Z.lt
       (map (fun c => Metadata.paragraphNumber (Chunk.metadata c))
          (allChunks st1))
  /\ Z.of_nat (length (allChunks st1)) <= paragraphNumber st
  /\ Forall (kept_in (allChunks st1)) seen
  /\ (allChunks st1 = [] <-> seen = []).
Proof.
  intros Hseen [Hnum Hstart Hfirst Hbuf Hchunks Hsorted Hcount Hkept] st1.
  assert (Hn : 0 <= paragraphNumber st) by lia.
  assert (Hold : Forall (fun c => chunk_of_page pg (paragraphNumber st) c
                   /\ Metadata.paragraphNumber (Chunk.metadata c)
                      <= paragraphNumber st)
                   (allChunks st)).
  { destruct seen as [|p0 seen'].
    - destruct (Hfirst eq_refl) as [_ ->]. constructor.
    - destruct (Hbuf ltac:(discriminate)) as [_ Hcsp].
      eapply Forall_impl; [exact Hchunks|]. cbn beta. intros c [H1 H2].
      split; [exact H1|lia]. }
  subst st1. unfold save_chunk. cbn [currentChunk].
  destruct (0 <? JsString.length (JsString.trim (currentChunk st))) eqn:Eg;
    cbn [currentChunk chunkStartChar allChunks].
  - assert (Htxt : has_text (currentChunk st))
      by (apply StringFacts.trim_has_text; lia).
    assert (Hs : seen <> []).
    { intros ->. destruct (Hfirst eq_refl) as [Hc _]. rewrite Hc in Htxt.
      inversion Htxt. }
    destruct (Hbuf Hs) as [_ Hcsp]. specialize (Hcount Hs).
    split; [reflexivity|]. split; [reflexivity|].
    split; [|split; [|split; [|split]]].
    + apply Forall_app. split; [exact Hold|]. constructor; [|constructor].
      split.
      * apply make_chunk_of_page; cbn; lia.
      * cbn. lia.
    + rewrite map_app. apply sorted_snoc; [exact Hsorted|].
      apply Forall_map. eapply Forall_impl; [exact Hchunks|].
      cbn. intros c [_ H]. exact H.
    + rewrite length_app. cbn. lia.
    + apply Forall_forall. intros p Hin.
      pose proof (proj1 (Forall_forall _ _) Hkept p Hin) as [Hin_cur|Hin_cs].
      * apply Exists_app. right. constructor. cbn.
        apply StringFacts.trim_occurs; [|exact Hin_cur].
        exact (proj1 (Forall_forall _ _) Hseen p Hin).
      * now apply kept_in_app.
    + split; [|contradiction]. intros H. now apply app_eq_nil in H as [_ H].
  - assert (Hs : seen = []).
    { destruct seen as [|p0 seen']; [reflexivity|].
      destruct (Hbuf ltac:(discriminate)) as [Htxt _].
      apply StringFacts.trim_has_text in Htxt. lia. }
    destruct (Hfirst Hs) as [_ Hcs]. subst seen. rewrite Hcs in *.
    repeat split; try constructor. cbn. lia.
Qed.

(** A buffer that starts with the paragraph [p], after the chunks [cs]
    that keep every paragraph before it. *)
Lemma fresh_buffer pg seen p cur start cs g n :
  n = Z.of_nat (length (seen ++ [p])) ->
  has_text cur -> occurs_in p cur -> Page.startChar pg <= start ->
  Forall (fun c => chunk_of_page pg n c
                   /\ Metadata.paragraphNumber (Chunk.metadata c) < n) cs ->
  StronglySorted Z.lt
    (map (fun c => Metadata.paragraphNumber (Chunk.metadata c)) cs) ->
  Z.of_nat (length cs) < n ->
  Forall (kept_in cs) seen ->
  page_invariant pg (seen ++ [p])
    {| currentChunk := cur; chunkStartChar := start; paragraphNumber := n;
       chunkStartParagraph := n; allChunks := cs; globalChunkIndex := g |}.
Proof.
  intros Hn Hcur Hp Hstart Hcs Hsorted Hcount Hkept.
  assert (Hne : seen ++ [p] <> []) by (destruct seen; discriminate).
  assert (H1 : 1 <= n) by (rewrite Hn, length_app; cbn; lia).
  split; cbn; try assumption; try contradiction.
  - intros _. split; [assumption|lia].
  - intros _. assumption.
  - apply Forall_app. split.
    + eapply Forall_impl; [exact Hkept|]. cbn. intros q Hq. now right.
    + constructor; [now left|constructor].
Qed.

Lemma step_invariant pg seen st p :
  occurs_in p (Page.text pg) -> has_text p -> Forall has_text seen ->
  page_invariant pg seen st ->
  page_invariant pg (seen ++ [p]) (step chunkSize overlap pg st p).
Proof.
  intros Hocc Hp Hseen Hinv.
  pose proof (flush_invariant pg seen st (paragraphNumber st + 1) Hseen Hinv)
    as Hflush.
  pose proof (StringFacts.indexOf_occurs _ _ Hocc) as Hidx.
  pose proof Hinv as [Hnum Hstart Hfirst Hbuf Hchunks Hsorted Hcount Hkept].
  assert (Hlen : paragraphNumber st + 1 = Z.of_nat (length (seen ++ [p])))
    by (rewrite length_app; cbn; lia).
  unfold step. rewrite Z.add_simpl_r. destruct (chunkSize <? _) eqn:Esize.
  - cbn zeta in Hflush.
    destruct Hflush as (Hcur & Hst & Hcs0 & Hso & Hco0 & Hke & _).
    assert (Hcs : Forall (fun c => chunk_of_page pg (paragraphNumber st + 1) c
                   /\ Metadata.paragraphNumber (Chunk.metadata c)
                      < paragraphNumber st + 1)
                   (allChunks
                      (save_chunk (Page.pageNumber pg) (paragraphNumber st)
                         {| currentChunk := currentChunk st;
                            chunkStartChar := chunkStartChar st;
                            paragraphNumber := paragraphNumber st + 1;
                            chunkStartParagraph := chunkStartParagraph st;
                            allChunks := allChunks st;
                            globalChunkIndex := globalChunkIndex st |}))).
    { eapply Forall_impl; [exact Hcs0|]. cbn beta. intros c [H1 H2].
      split; [|lia].
      apply (chunk_of_page_mono pg (paragraphNumber st)); [lia|exact H1]. }
    assert (Hco : Z.of_nat (length (allChunks
                      (save_chunk (Page.pageNumber pg) (paragraphNumber st)
                         {| currentChunk := currentChunk st;
                            chunkStartChar := chunkStartChar st;
                            paragraphNumber := paragraphNumber st + 1;
                            chunkStartParagraph := chunkStartParagraph st;
                            allChunks := allChunks st;
                            globalChunkIndex := globalChunkIndex st |})))
                  < paragraphNumber st + 1) by lia.
    destruct (overlap <? _) eqn:Eov.
    + apply fresh_buffer; try assumption.
      * apply StringFacts.has_text_app_r, StringFacts.has_text_app_r, Hp.
      * apply StringFacts.occurs_in_app_r, StringFacts.occurs_in_app_r,
          StringFacts.occurs_in_refl.
      * apply Z.ltb_lt in Eov. pose proof (seed_start _ _ Eov) as Hseed.
        rewrite !app_length_Z. rewrite Hst.
        change (JsString.length JsString.blank_line) with 2. lia.
    + apply fresh_buffer; try assumption.
      * apply StringFacts.occurs_in_refl.
      * lia.
  - destruct (0 <? JsString.length (currentChunk st)) eqn:Ecur.
    + assert (Hs : seen <> []).
      { intros ->. destruct (Hfirst eq_refl) as [Hc _]. rewrite Hc in Ecur.
        discriminate. }
      destruct (Hbuf Hs) as [Htxt Hcsp]. specialize (Hcount Hs).
      assert (Hne : seen ++ [p] <> []) by (destruct seen; discriminate).
      split;
        cbn [currentChunk chunkStartChar paragraphNumber chunkStartParagraph
             allChunks globalChunkIndex];
        try assumption; try contradiction; try lia.
      * intros _. split; [now apply StringFacts.has_text_app_l|lia].
      * eapply Forall_impl; [exact Hchunks|]. cbn. intros c [H1 H2].
        split; [|exact H2].
        apply (chunk_of_page_mono pg (paragraphNumber st)); [lia|exact H1].
      * apply Forall_app. split.
        -- eapply Forall_impl; [exact Hkept|]. cbn. intros q [Hq|Hq];
             [left; now apply StringFacts.occurs_in_app_l|now right].
        -- constructor; [|constructor]. left.
           apply StringFacts.occurs_in_app_r, StringFacts.occurs_in_app_r,
             StringFacts.occurs_in_refl.
    + assert (Hs : seen = []).
      { destruct seen as [|p0 seen']; [reflexivity|].
        destruct (Hbuf ltac:(discriminate)) as [Htxt _].
        apply StringFacts.has_text_nonempty in Htxt.
        destruct (currentChunk st); [contradiction|discriminate]. }
      destruct (Hfirst Hs) as [_ Hcs]. rewrite Hcs. subst seen.
      apply fresh_buffer; try assumption; try (now constructor).
      * apply StringFacts.occurs_in_refl.
      * lia.
      * cbn. lia.
Qed.

Lemma fold_step_invariant pg ps : forall seen st,
  Forall (fun p => occurs_in p (Page.text pg) /\ has_text p) ps ->
  Forall has_text seen ->
  page_invariant pg seen st ->
  page_invariant pg (seen ++ ps) (fold_left (step chunkSize overlap pg) ps st).
Proof.
  induction ps as [|p ps IH]; intros seen st Hps Hseen Hinv.
  - now rewrite app_nil_r.
  - inversion Hps as [|? ? [Hocc Hp] Hps']; subst. cbn [fold_left].
    replace (seen ++ p :: ps) with ((seen ++ [p]) ++ ps)
      by (now rewrite <- app_assoc).
    apply IH; [assumption| |now apply step_invariant].
    apply Forall_app. split; [assumption|]. now constructor.
Qed.

(** The chunks of a page that is the only one. *)
Lemma split_single pg :
  splitIntoChunksWithMetadata chunkSize overlap [pg]
  = allChunks
      (save_chunk (Page.pageNumber pg) (paragraph_count pg)
         (fold_left (step chunkSize overlap pg) (paragraphs (Page.text pg))
            (page_start pg))).
Proof.
  unfold splitIntoChunksWithMetadata, process_page. cbn [fold_left fst snd].
  fold (page_start pg).
  pose proof (fold_step_invariant pg (paragraphs (Page.text pg)) []
                (page_start pg) (StringFacts.paragraphs_spec _)
                ltac:(constructor) (page_start_invariant pg)) as [Hn _ _ _ _ _ _ _].
  cbn [app] in Hn. rewrite Hn. reflexivity.
Qed.

(** What the chunks of one page are to its paragraphs. *)
Lemma page_chunks pg :
  let cs := splitIntoChunksWithMetadata chunkSize overlap [pg] in
  Forall (chunk_of_page pg (paragraph_count pg)) cs
  /\ StronglySorted Z.lt
       (map (fun c => Metadata.paragraphNumber (Chunk.metadata c)) cs)
  /\ Z.of_nat (length cs) <= paragraph_count pg
  /\ Forall (kept_in cs) (paragraphs (Page.text pg))
  /\ (cs = [] <-> paragraphs (Page.text pg) = []).
Proof.
  cbn zeta. rewrite split_single.
  pose proof (StringFacts.paragraphs_spec (Page.text pg)) as Hps.
  pose proof (fold_step_invariant pg (paragraphs (Page.text pg)) []
                (page_start pg) Hps ltac:(constructor)
                (page_start_invariant pg)) as Hinv.
  cbn [app] in Hinv.
  assert (Htext : Forall has_text (paragraphs (Page.text pg))).
  { eapply Forall_impl; [exact Hps|]. cbn beta. now intros p [_ H]. }
  revert Hinv.
  generalize (fold_left (step chunkSize overlap pg) (paragraphs (Page.text pg))
                (page_start pg)).
  intros st Hinv.
  pose proof (flush_invariant pg _ st (paragraphNumber st) Htext Hinv) as Hflush.
  cbn zeta in Hflush. destruct Hinv as [Hn _ _ _ _ _ _ _].
  unfold paragraph_count. rewrite <- Hn. destruct st. cbn in *.
  destruct Hflush as (_ & _ & Hcs & Hso & Hco & Hke & Hnil).
  repeat split; try assumption; try apply Hnil.
  eapply Forall_impl; [exact Hcs|]. cbn beta. now intros c [H _].
Qed.

Lemma renumber_0 c : renumber 0 c = c.
Proof. now destruct c. Qed.

(** Every chunk of a page on its own is, up to its index, a chunk of the
    pages it is one of. *)
Lemma split_pages_elem pages : forall pg c,
  In pg pages ->
  In c (splitIntoChunksWithMetadata chunkSize overlap [pg]) ->
  exists k, In (renumber k c)
              (splitIntoChunksWithMetadata chunkSize overlap pages).
Proof.
  induction pages as [|pg0 pages IH]; intros pg c Hpg Hc; [destruct Hpg|].
  change (pg0 :: pages) with ([pg0] ++ pages). rewrite split_app.
  destruct Hpg as [->|Hpg].
  - exists 0. apply in_or_app. left. now rewrite renumber_0.
  - destruct (IH pg c Hpg Hc) as [k Hk]. eexists. apply in_or_app. right.
    rewrite <- renumber_renumber. apply in_map. exact Hk.
Qed.

(** Every chunk of a sequence of pages is, up to its index, a chunk of one
    of the pages on its own. *)
Lemma split_pages_inv pages : forall c,
  In c (splitIntoChunksWithMetadata chunkSize overlap pages) ->
  exists pg c' k,
    In pg pages
    /\ In c' (splitIntoChunksWithMetadata chunkSize overlap [pg])
    /\ c = renumber k c'.
Proof.
  induction pages as [|pg0 pages IH]; intros c Hc; [destruct Hc|].
  change (pg0 :: pages) with ([pg0] ++ pages) in Hc. rewrite split_app in Hc.
  apply in_app_or in Hc as [Hc|Hc].
  - exists pg0, c, 0. rewrite renumber_0. repeat split; [now left|exact Hc].
  - apply in_map_iff in Hc as (c1 & <- & Hc1).
    destruct (IH c1 Hc1) as (pg & c' & k & Hpg & Hc' & ->).
    exists pg, c'. eexists. rewrite renumber_renumber.
    repeat split; [now right|exact Hc'].
Qed.

Lemma save_chunk_guarded (P : Chunk.t -> Prop) pageNumber lastParagraph st :
  (forall pageNumber st lastParagraph,
     0 < JsString.length (JsString.trim (currentChunk st)) ->
     P (make_chunk pageNumber st lastParagraph)) ->
  Forall P (allChunks st) ->
  Forall P (allChunks (save_chunk pageNumber lastParagraph st)).
Proof.
  intros HP H. unfold save_chunk.
  destruct (0 <? _) eqn:E; cbn; [|exact H].
  apply Forall_app. split; [exact H|]. constructor; [|constructor].
  apply HP. lia.
Qed.

Lemma pages_guarded (P : Chunk.t -> Prop) pages :
  (forall pageNumber st lastParagraph,
     0 < JsString.length (JsString.trim (currentChunk st)) ->
     P (make_chunk pageNumber st lastParagraph)) ->
  Forall P (splitIntoChunksWithMetadata chunkSize overlap pages).
Proof.
  intros HP. unfold splitIntoChunksWithMetadata.
  assert (Hstep : forall pg ps st, Forall P (allChunks st) ->
            Forall P (allChunks (fold_left (step chunkSize overlap pg) ps st))).
  { intros pg ps. induction ps as [|p ps IH]; intros st H; [exact H|].
    cbn [fold_left]. apply IH. unfold step.
    destruct (chunkSize <? _).
    - match goal with |- context [save_chunk ?a ?b ?s] =>
        pose proof (save_chunk_guarded P a b s HP H) as Hs;
        destruct (overlap <? JsString.length (currentChunk (save_chunk a b s)))
      end; exact Hs.
    - destruct (0 <? _); exact H. }
  assert (Hpages : forall acc, Forall P (fst acc) ->
            Forall P (fst (fold_left (process_page chunkSize overlap) pages acc))).
  { induction pages as [|pg pages IH]; intros acc H; [exact H|].
    cbn [fold_left]. apply IH. unfold process_page. cbn [fst].
    apply save_chunk_guarded; [exact HP|]. apply Hstep. exact H. }
  apply Hpages. constructor.
Qed.

(** Every chunk cites one of the pages. *)
Lemma split_cites pages :
  Forall (fun c => exists pg,
            In pg pages /\ chunk_of_page pg (paragraph_count pg) c)
    (splitIntoChunksWithMetadata chunkSize overlap pages).
Proof.
  apply List.Forall_forall. intros c Hc.
  apply split_pages_inv in Hc as (pg & c' & k & Hpg & Hc' & ->).
  exists pg. split; [exact Hpg|].
  destruct (page_chunks pg) as (Hcs & _).
  exact (proj1 (List.Forall_forall _ _) Hcs c' Hc').
Qed.

(** The text of a chunk is trimmed and not empty. *)
Lemma texts_trimmed pages :
  Forall (fun c => JsString.trim (Chunk.text c) = Chunk.text c
                   /\ 0 < JsString.length (Chunk.text c))
    (splitIntoChunksWithMetadata chunkSize overlap pages).
Proof.
  apply pages_guarded. intros pageNumber st lastParagraph H. cbn.
  split; [apply StringFacts.trim_idem|exact H].
Qed.

(** There is no chunk exactly when no page has a paragraph. *)
Lemma split_nil pages :
  splitIntoChunksWithMetadata chunkSize overlap pages = []
  <-> Forall (fun pg => paragraphs (Page.text pg) = []) pages.
Proof.
  induction pages as [|pg pages IH]; [split; [constructor|reflexivity]|].
  change (pg :: pages) with ([pg] ++ pages). rewrite split_app.
  destruct (page_chunks pg) as (_ & _ & _ & _ & Hnil). cbn zeta in Hnil.
  split.
  - intros H. apply app_eq_nil in H as [H1 H2]. constructor.
    + now apply Hnil.
    + apply IH. now destruct (splitIntoChunksWithMetadata _ _ pages).
  - intros H. inversion H as [|? ? Hpg Hpages]; subst.
    rewrite (proj2 Hnil Hpg), (proj2 IH Hpages). reflexivity.
Qed.

(** The chunks pushed while a page is processed, next to the buffers
    they were made from. [R] is any relation that holds of a chunk and the
    buffer of the state it is made from. *)
Section Pushes.
Variable R : Chunk.t -> jsstring -> Prop.
Hypothesis R_make_chunk : forall pageNumber st lastParagraph,
  R (make_chunk pageNumber st lastParagraph) (currentChunk st).
Hypothesis R_renumber : forall k c buffer, R c buffer -> R (renumber k c) buffer.

Lemma save_chunk_buffer pageNumber lastParagraph st :
  exists new,
    allChunks (save_chunk pageNumber lastParagraph st) = allChunks st ++ new
    /\ Forall2 R new
         (if 0 <? JsString.length (JsString.trim (currentChunk st))
          then [currentChunk st] else []).
Proof.
  unfold save_chunk. destruct (0 <? _); cbn [allChunks].
  - eexists. split; [reflexivity|]. constructor; [apply R_make_chunk|constructor].
  - exists []. split; [now rewrite app_nil_r|constructor].
Qed.

Lemma step_buffer pg st p :
  exists new,
    allChunks (step chunkSize overlap pg st p) = allChunks st ++ new
    /\ Forall2 R new
         (if (chunkSize <? JsString.length (currentChunk st) + JsString.length p)
             && (0 <? JsString.length (JsString.trim (currentChunk st)))
          then [currentChunk st] else []).
Proof.
  unfold step. destruct (chunkSize <? _); cbn [andb].
  - match goal with |- context [save_chunk ?a ?b ?s] =>
      destruct (save_chunk_buffer a b s) as (new & Hnew & HR);
      cbn [currentChunk allChunks] in Hnew, HR;
      destruct (overlap <? JsString.length (currentChunk (save_chunk a b s)))
    end; cbn [allChunks]; exists new; now split.
  - exists []. split; [|constructor].
    destruct (0 <? _); cbn [allChunks]; now rewrite app_nil_r.
Qed.

Lemma fold_step_buffers pg ps : forall st pageNumber lastParagraph,
  exists new,
    allChunks (save_chunk pageNumber lastParagraph
                 (fold_left (step chunkSize overlap pg) ps st))
    = allChunks st ++ new
    /\ Forall2 R new (page_buffers chunkSize overlap pg ps st).
Proof.
  induction ps as [|p ps IH]; intros st pageNumber lastParagraph.
  - apply save_chunk_buffer.
  - cbn [fold_left page_buffers].
    destruct (step_buffer pg st p) as (new1 & Hnew1 & HR1).
    destruct (IH (step chunkSize overlap pg st p) pageNumber lastParagraph)
      as (new2 & Hnew2 & HR2).
    exists (new1 ++ new2). split.
    + now rewrite Hnew2, Hnew1, app_assoc.
    + now apply Forall2_app.
Qed.

Lemma split_buffers pages :
  Forall2 R (splitIntoChunksWithMetadata chunkSize overlap pages)
    (pushed_buffers chunkSize overlap pages).
Proof.
  induction pages as [|pg pages IH]; [constructor|].
  change (pg :: pages) with ([pg] ++ pages). rewrite split_app.
  unfold pushed_buffers in *. cbn [app map concat].
  apply Forall2_app.
  - rewrite split_single.
    destruct (fold_step_buffers pg (paragraphs (Page.text pg)) (page_start pg)
                (Page.pageNumber pg) (paragraph_count pg)) as (new & -> & HR).
    exact HR.
  - revert IH. generalize (splitIntoChunksWithMetadata chunkSize overlap pages).
    generalize (concat (map (fun pg => page_buffers chunkSize overlap pg
                                         (paragraphs (Page.text pg)) (page_start pg))
                          pages)).
    intros bs cs H. induction H; cbn [map]; constructor; auto.
Qed.
End Pushes.

End Params.

End PageFacts.

(** C2, amended: every chunk is made from the buffer the code holds when it
    pushes the chunk. Its [text] is that buffer trimmed and its
    [chunkLength] is the length of that buffer, before trimming; so
    [chunkLength] is [endChar - startChar] and at least the length of
    [text], with equality when trimming leaves the buffer as it is. The
    buffers are those of [pushed_buffers], one for each chunk, in order. *)
Theorem chunkLength_is_buffer_length chunkSize overlap pages :
  Forall2 (fun c buffer =>
             let m := Chunk.metadata c in
             Chunk.text c = JsString.trim buffer
             /\ Metadata.chunkLength m = JsString.length buffer
             /\ Metadata.chunkLength m = Metadata.endChar m - Metadata.startChar m
             /\ JsString.length (Chunk.text c) <= Metadata.chunkLength m
             /\ (JsString.trim buffer = buffer ->
                 Metadata.chunkLength m = JsString.length (Chunk.text c)))
    (Chunker.splitIntoChunksWithMetadata chunkSize overlap pages)
    (pushed_buffers chunkSize overlap pages).
Proof.
  apply PageFacts.split_buffers.
  - intros pageNumber st lastParagraph. cbn.
    split; [reflexivity|]. split; [reflexivity|]. split; [lia|].
    split; [apply ChunkerFacts.trim_length|]. intros E. now rewrite E.
  - intros k c buffer H. exact H.
Qed.

(** On the page whose text is [a], the buffer is [a]: the text is [a] and
    [chunkLength] is 1. On the page whose text is a space and [a], the
    buffer is the whole text: the text is [a] and [chunkLength] is 2. *)
Example chunkLength_of_one_paragraph :
  pushed_buffers Chunker.defaultChunkSize Chunker.defaultOverlap
    [Page.mk 1 (str "a") 0 1] = [str "a"]
  /\ map (fun c => (Chunk.text c, Metadata.chunkLength (Chunk.metadata c)))
       (Chunker.splitIntoChunksWithMetadata Chunker.defaultChunkSize
          Chunker.defaultOverlap [Page.mk 1 (str "a") 0 1])
     = [(str "a", 1)]
  /\ pushed_buffers Chunker.defaultChunkSize Chunker.defaultOverlap [page_space_a]
     = [str " a"]
  /\ map (fun c => (Chunk.text c, Metadata.chunkLength (Chunk.metadata c)))
       (Chunker.splitIntoChunksWithMetadata Chunker.defaultChunkSize
          Chunker.defaultOverlap [page_space_a])
     = [(str "a", 2)].
Proof. repeat split. Qed.

(** X1: the text of every chunk is trimmed and not empty: it has no white
    space at either end, so trimming it again changes nothing, and it has
    at least one character. *)
Theorem chunk_texts_trimmed chunkSize overlap pages :
  Forall (fun c => JsString.trim (Chunk.text c) = Chunk.text c
                   /\ 0 < JsString.length (Chunk.text c))
    (Chunker.splitIntoChunksWithMetadata chunkSize overlap pages).
Proof. apply PageFacts.texts_trimmed. Qed.

(** X2: the chunks of a sequence of pages are the chunks of its first part
    followed by the chunks of the rest, the latter with their [chunkIndex]
    moved by the number of chunks of the first part and otherwise as if
    the rest were chunked alone: no text, paragraph number or offset is
    carried from one page to the next. *)
Theorem chunks_of_appended_pages chunkSize overlap ps1 ps2 :
  Chunker.splitIntoChunksWithMetadata chunkSize overlap (ps1 ++ ps2)
  = Chunker.splitIntoChunksWithMetadata chunkSize overlap ps1
    ++ map (renumber
              (Z.of_nat
                 (length (Chunker.splitIntoChunksWithMetadata chunkSize overlap ps1))))
         (Chunker.splitIntoChunksWithMetadata chunkSize overlap ps2).
Proof. apply PageFacts.split_app. Qed.

(** X3: every chunk cites one of the pages given: its [page] is the
    [pageNumber] of that page, its [paragraphNumber] is between 1 and the
    number of paragraphs of the page, its [paragraphRange] is that number
    alone or runs from it to a later paragraph of the page, and its
    [startChar] is not before the [startChar] of the page. *)
Theorem chunks_cite_page_and_paragraphs chunkSize overlap pages :
  Forall (fun c => exists pg,
            In pg pages /\ chunk_of_page pg (paragraph_count pg) c)
    (Chunker.splitIntoChunksWithMetadata chunkSize overlap pages).
Proof. apply PageFacts.split_cites. Qed.

(** X4: there are at most as many chunks as the pages have paragraphs, and
    there is no chunk exactly when no page has a paragraph (a paragraph
    being a piece between blank lines that is not white space only). *)
Theorem chunk_count_bounded_by_paragraphs chunkSize overlap pages :
  Z.of_nat (length (Chunker.splitIntoChunksWithMetadata chunkSize overlap pages))
  <= paragraph_total pages
  /\ (Chunker.splitIntoChunksWithMetadata chunkSize overlap pages = []
      <-> Forall (fun pg => Chunker.paragraphs (Page.text pg) = []) pages).
Proof.
  split; [|apply PageFacts.split_nil].
  induction pages as [|pg pages IH]; [cbn; lia|].
  change (pg :: pages) with ([pg] ++ pages).
  rewrite PageFacts.split_app.
  destruct (PageFacts.page_chunks chunkSize overlap pg) as (_ & _ & Hn & _).
  cbn zeta in *. rewrite length_app, length_map. unfold paragraph_total in *.
  cbn [app map fold_right]. lia.
Qed.

(** X5: within a page, the chunks start at strictly increasing paragraph
    numbers: no two chunks of a page start at the same paragraph, and a
    later chunk never starts at an earlier paragraph. *)
Theorem page_chunks_start_at_increasing_paragraphs chunkSize overlap pg :
  StronglySorted Z.lt
    (cited_paragraphs (Chunker.splitIntoChunksWithMetadata chunkSize overlap [pg])).
Proof.
  destruct (PageFacts.page_chunks chunkSize overlap pg) as (_ & H & _).
  exact H.
Qed.

(** X6: no paragraph is lost: for every paragraph of every page there is a
    chunk that cites that page and whose text contains the paragraph,
    trimmed. *)
Theorem no_paragraph_lost chunkSize overlap pages :
  Forall (fun pg =>
            Forall (fun p =>
                      Exists (fun c =>
                                Metadata.page (Chunk.metadata c) = Page.pageNumber pg
                                /\ occurs_in (JsString.trim p) (Chunk.text c))
                        (Chunker.splitIntoChunksWithMetadata chunkSize overlap pages))
              (Chunker.paragraphs (Page.text pg)))
    pages.
Proof.
  apply List.Forall_forall. intros pg Hpg.
  destruct (PageFacts.page_chunks chunkSize overlap pg)
    as (Hcs & _ & _ & Hkept & _).
  cbn zeta in *. eapply Forall_impl; [exact Hkept|]. cbn beta.
  intros p Hp. apply List.Exists_exists in Hp as (c & Hc & Hocc).
  destruct (PageFacts.split_pages_elem chunkSize overlap pages pg c Hpg Hc)
    as [k Hk].
  apply List.Exists_exists. exists (renumber k c). split; [exact Hk|].
  split; [|exact Hocc].
  exact (proj1 (proj1 (List.Forall_forall _ _) Hcs c Hc)).
Qed.

(** ** The size of the chunks *)

Module SizeFacts.
Import Chunker.

Lemma max_bounds (l : list Z) : Forall (fun x => x <= fold_right Z.max 0 l) l.
Proof.
  induction l as [|x l IH]; constructor; cbn [fold_right]; [lia|].
  eapply Forall_impl; [exact IH|]. cbn beta. intros y Hy. lia.
Qed.

Lemma longest_paragraph_bounds pages :
  0 <= longest_paragraph pages
  /\ Forall (fun pg => Forall (fun p => JsString.length p <= longest_paragraph pages)
                         (paragraphs (Page.text pg))) pages.
Proof.
  unfold longest_paragraph.
  set (all := concat (map (fun pg => paragraphs (Page.text pg)) pages)).
  pose proof (max_bounds (map JsString.length all)) as Hmax.
  split.
  - generalize (map JsString.length all). intros l.
    induction l as [|x l IH]; cbn [fold_right]; lia.
  - apply List.Forall_forall. intros pg Hpg.
    apply List.Forall_forall. intros p Hp.
    apply (proj1 (List.Forall_forall _ _) Hmax). apply in_map.
    subst all. apply in_concat. exists (paragraphs (Page.text pg)).
    split; [|exact Hp]. apply in_map_iff. now exists pg.
Qed.

Section Params.
Variables (chunkSize overlap longest : Z).
Hypothesis overlap_pos : 0 < overlap.
Hypothesis longest_nonneg : 0 <= longest.

Let bound : Z := Z.max (chunkSize + 2) (overlap + 2 + longest).

Lemma save_chunk_bounded pageNumber lastParagraph st :
  buffer_bounded bound st ->
  buffer_bounded bound (save_chunk pageNumber lastParagraph st)
  /\ currentChunk (save_chunk pageNumber lastParagraph st) = currentChunk st.
Proof.
  intros [Hcur Hcs]. unfold save_chunk, buffer_bounded.
  destruct (0 <? _); cbn; [|now repeat split].
  repeat split; [exact Hcur|].
  apply Forall_app. split; [exact Hcs|]. constructor; [exact Hcur|constructor].
Qed.

Lemma step_bounded pg st p :
  JsString.length p <= longest ->
  buffer_bounded bound st ->
  buffer_bounded bound (step chunkSize overlap pg st p).
Proof.
  intros Hp Hst. pose proof Hst as [Hcur Hcs]. unfold step.
  destruct (chunkSize <? _) eqn:Esize.
  - match goal with |- context [save_chunk ?a ?b ?s] =>
      destruct (save_chunk_bounded a b s Hst) as [[_ Hcs1] Hcur1];
      generalize dependent (save_chunk a b s)
    end.
    intros st1 Hcs1 Hcur1. cbn [currentChunk] in Hcur1.
    destruct (overlap <? _) eqn:Eov; split; cbn; try exact Hcs1.
    + apply Z.ltb_lt in Eov.
      change (JsString.nl :: JsString.nl :: p) with (JsString.blank_line ++ p).
      rewrite !PageFacts.app_length_Z, PageFacts.slice_from_length.
      change (JsString.length JsString.blank_line) with 2.
      destruct (- overlap <? 0) eqn:E; [|lia]. subst bound. lia.
    + subst bound. lia.
  - apply Z.ltb_ge in Esize.
    destruct (0 <? _); split; cbn; try exact Hcs.
    + change (JsString.nl :: JsString.nl :: p) with (JsString.blank_line ++ p).
      rewrite !PageFacts.app_length_Z.
      change (JsString.length JsString.blank_line) with 2. subst bound. lia.
    + subst bound. lia.
Qed.

Lemma pages_bounded pages :
  Forall (fun pg => Forall (fun p => JsString.length p <= longest)
                      (paragraphs (Page.text pg))) pages ->
  Forall (fun c => Metadata.chunkLength (Chunk.metadata c) <= bound)
    (splitIntoChunksWithMetadata chunkSize overlap pages).
Proof.
  unfold splitIntoChunksWithMetadata.
  assert (Hstep : forall pg ps st,
            Forall (fun p => JsString.length p <= longest) ps ->
            buffer_bounded bound st ->
            buffer_bounded bound (fold_left (step chunkSize overlap pg) ps st)).
  { intros pg ps. induction ps as [|p ps IH]; intros st Hps H; [exact H|].
    inversion Hps; subst. cbn [fold_left]. apply IH; [assumption|].
    now apply step_bounded. }
  assert (Hpages : forall acc,
            Forall (fun pg => Forall (fun p => JsString.length p <= longest)
                                (paragraphs (Page.text pg))) pages ->
            Forall (fun c => Metadata.chunkLength (Chunk.metadata c) <= bound)
              (fst acc) ->
            Forall (fun c => Metadata.chunkLength (Chunk.metadata c) <= bound)
              (fst (fold_left (process_page chunkSize overlap) pages acc))).
  { induction pages as [|pg pages IH]; intros acc Hps H; [exact H|].
    inversion Hps; subst. cbn [fold_left]. apply IH; [assumption|].
    unfold process_page. cbn [fst].
    apply save_chunk_bounded. apply Hstep; [assumption|].
    split; cbn; [unfold JsString.length; cbn; subst bound; lia|exact H]. }
  intros Hps. apply Hpages; [exact Hps|constructor].
Qed.

End Params.

Section NoOverlap.
Variable chunkSize : Z.

Lemma joined_snoc ps p :
  ps <> [] -> joined (ps ++ [p]) = joined ps ++ JsString.blank_line ++ p.
Proof.
  destruct ps as [|p0 ps]; [contradiction|]. intros _. cbn [app joined].
  now rewrite fold_left_app.
Qed.

Lemma joined_has_text ps :
  Forall has_text ps -> ps <> [] -> has_text (joined ps).
Proof.
  induction ps as [|p ps IH] using rev_ind; [contradiction|].
  intros Hps _. apply Forall_app in Hps as [Hps Hp]. inversion Hp; subst.
  destruct ps as [|p0 ps'] eqn:E; [assumption|]. rewrite <- E in *.
  rewrite joined_snoc by (subst; discriminate).
  now apply StringFacts.has_text_app_r, StringFacts.has_text_app_r.
Qed.

(** With [overlap = 0] the overlap text [currentChunk.slice(-0)] is the
    whole buffer, so the buffer is never emptied within a page. *)
Lemma step_no_overlap pg seen st p :
  has_text p -> Forall has_text seen ->
  currentChunk st = joined seen ->
  currentChunk (step chunkSize 0 pg st p) = joined (seen ++ [p]).
Proof.
  intros Hp Hseen Hcur. unfold step.
  assert (Hslice : forall s, JsString.slice_from s (- 0) = s).
  { intros s. unfold JsString.slice_from, JsString.length.
    change (- 0) with 0. change (0 <? 0) with false. cbv iota.
    now replace (Z.to_nat (Z.min 0 (Z.of_nat (length s)))) with 0%nat by lia. }
  assert (Hsave : forall a b s, currentChunk (save_chunk a b s) = currentChunk s).
  { intros a b s. unfold save_chunk. now destruct (0 <? _). }
  destruct seen as [|p0 seen'] eqn:E.
  - cbn in Hcur. rewrite Hcur.
    destruct (chunkSize <? _); [rewrite Hsave|]; reflexivity.
  - rewrite <- E in *. assert (Hne : seen <> []) by (subst; discriminate).
    pose proof (joined_has_text seen Hseen Hne) as Htxt.
    apply StringFacts.has_text_nonempty in Htxt.
    assert (Hpos : (0 <? JsString.length (currentChunk st)) = true).
    { rewrite Hcur. unfold JsString.length.
      destruct (joined seen); [contradiction|reflexivity]. }
    rewrite joined_snoc by assumption.
    destruct (chunkSize <? _).
    + rewrite Hsave. cbn [currentChunk]. rewrite Hpos. cbn [currentChunk].
      now rewrite Hslice, Hcur.
    + rewrite Hpos. cbn [currentChunk]. now rewrite Hcur.
Qed.

Lemma fold_step_no_overlap pg ps : forall seen st,
  Forall has_text ps -> Forall has_text seen ->
  currentChunk st = joined seen ->
  currentChunk (fold_left (step chunkSize 0 pg) ps st) = joined (seen ++ ps).
Proof.
  induction ps as [|p ps IH]; intros seen st Hps Hseen Hcur.
  - now rewrite app_nil_r.
  - inversion Hps; subst. cbn [fold_left].
    replace (seen ++ p :: ps) with ((seen ++ [p]) ++ ps)
      by (now rewrite <- app_assoc).
    apply IH; [assumption| |now apply step_no_overlap].
    apply Forall_app. split; [assumption|]. now constructor.
Qed.

End NoOverlap.

End SizeFacts.

(** X7: with a positive [overlap], no chunk is longer (by its
    [chunkLength], the length before trimming) than the larger of
    [chunkSize + 2] and [overlap + 2] plus the length of the longest
    paragraph: [chunkSize] is exceeded by a separator at most, except by a
    chunk that starts with a paragraph too long for it. *)
Theorem chunk_length_bounded chunkSize overlap pages :
  0 < overlap ->
  Forall (fun c => Metadata.chunkLength (Chunk.metadata c)
                   <= Z.max (chunkSize + 2)
                        (overlap + 2 + longest_paragraph pages))
    (Chunker.splitIntoChunksWithMetadata chunkSize overlap pages).
Proof.
  intros Hov. destruct (SizeFacts.longest_paragraph_bounds pages) as [H0 Hps].
  now apply SizeFacts.pages_bounded.
Qed.

Lemma chunk_length_bounded_witness :
  Forall (fun c => Metadata.chunkLength (Chunk.metadata c)
                   <= Z.max (2 + 2) (1 + 2 + longest_paragraph [page_ab_c]))
    (Chunker.splitIntoChunksWithMetadata 2 1 [page_ab_c]).
Proof. apply (chunk_length_bounded 2 1 [page_ab_c]). lia. Defined.

(** X8: with [overlap = 0] the text kept as overlap,
    [currentChunk.slice(-0)], is the whole buffer: whatever [chunkSize] is,
    the last chunk of a page holds all the paragraphs of the page, joined
    by blank lines (and trimmed). *)
Theorem no_overlap_last_chunk_is_whole_page chunkSize pg :
  Chunk.text <$> last (Chunker.splitIntoChunksWithMetadata chunkSize 0 [pg])
  = match Chunker.paragraphs (Page.text pg) with
    | [] => None
    | ps => Some (JsString.trim (joined ps))
    end.
Proof.
  rewrite PageFacts.split_single.
  pose proof (StringFacts.paragraphs_spec (Page.text pg)) as Hps.
  assert (Htext : Forall has_text (Chunker.paragraphs (Page.text pg))).
  { eapply Forall_impl; [exact Hps|]. cbn beta. now intros p [_ H]. }
  pose proof (SizeFacts.fold_step_no_overlap chunkSize pg
                (Chunker.paragraphs (Page.text pg)) [] (page_start pg)
                Htext ltac:(constructor) eq_refl) as Hcur.
  pose proof (PageFacts.fold_step_invariant chunkSize 0 pg
                (Chunker.paragraphs (Page.text pg)) [] (page_start pg) Hps
                ltac:(constructor) (PageFacts.page_start_invariant pg)) as Hinv.
  cbn [app] in *. revert Hcur Hinv.
  generalize (fold_left (Chunker.step chunkSize 0 pg)
                (Chunker.paragraphs (Page.text pg)) (page_start pg)).
  intros st Hcur Hinv. unfold Chunker.save_chunk. rewrite Hcur.
  destruct (Chunker.paragraphs (Page.text pg)) as [|p ps] eqn:E.
  - change (0 <? JsString.length (JsString.trim (joined []))) with false.
    cbv iota. destruct Hinv as [_ _ Hfirst _ _ _ _ _].
    destruct (Hfirst eq_refl) as [_ ->]. reflexivity.
  - rewrite <- E in *. assert (Hne : Chunker.paragraphs (Page.text pg) <> [])
      by (rewrite E; discriminate).
    pose proof (SizeFacts.joined_has_text _ Htext Hne) as Htxt.
    apply StringFacts.trim_has_text in Htxt. apply Z.ltb_lt in Htxt.
    rewrite Htxt. cbn [Chunker.allChunks]. rewrite last_snoc. cbn.
    now rewrite Hcur.
Qed.

(** ** The pages cut from the text of a PDF *)

Module ExtractFacts.
Import Upload.

Lemma slice_page fullText currentPos :
  0 <= currentPos < JsString.length fullText ->
  slice fullText currentPos (currentPos + estimatedCharsPerPage)
  = take (Z.to_nat (Z.min estimatedCharsPerPage
                      (JsString.length fullText - currentPos)))
      (drop (Z.to_nat currentPos) fullText).
Proof.
  intros H. unfold slice, estimatedCharsPerPage in *.
  destruct (Z.ltb_spec currentPos 0); [lia|].
  destruct (Z.ltb_spec (currentPos + 2000) 0); [lia|].
  f_equal; [|f_equal]; lia.
Qed.

Lemma slice_page_length fullText currentPos :
  0 <= currentPos < JsString.length fullText ->
  JsString.length (slice fullText currentPos (currentPos + estimatedCharsPerPage))
  = Z.min estimatedCharsPerPage (JsString.length fullText - currentPos).
Proof.
  intros H. rewrite slice_page by assumption.
  unfold JsString.length, estimatedCharsPerPage in *.
  rewrite length_take, length_drop. lia.
Qed.

(** The loop adds to [pages] the pages of the text from [currentPos]
    on. *)
Lemma page_loop_spec text currentPos pageNum done :
  0 <= currentPos -> currentPos = 2000 * (pageNum - 1) ->
  exists rest,
    page_loop text currentPos pageNum done = done ++ rest
    /\ concat (map Page.text rest) = drop (Z.to_nat currentPos) text
    /\ map Page.pageNumber rest = seqZ pageNum (Z.of_nat (length rest))
    /\ Forall (page_of_text text) rest
    /\ Z.of_nat (length rest)
       = Z.max 0 (JsString.length text - currentPos + 1999) / 2000.
Proof.
  funelim (page_loop text currentPos pageNum done); intros Hpos Hnum;
    rename fullText0 into text, pages0 into done.
  - assert (Hin : 0 <= currentPos < JsString.length text) by lia.
    destruct H as (rest & Hrest & Hcat & Hnums & Hpages & Hlen);
      [unfold estimatedCharsPerPage; lia..|].
    cbn zeta. rewrite Hrest, <- app_assoc. cbn [app].
    eexists. split; [reflexivity|].
    pose proof (slice_page_length text currentPos Hin) as Hl.
    pose proof (slice_page text currentPos Hin) as Hs.
    unfold estimatedCharsPerPage in *.
    split; [|split; [|split]].
    + cbn [map concat]. rewrite Hcat, Hs.
      destruct (Z.le_gt_cases 2000 (JsString.length text - currentPos)).
      * rewrite Z.min_l by assumption.
        replace (Z.to_nat (currentPos + 2000))
          with (Z.to_nat currentPos + Z.to_nat 2000)%nat by lia.
        rewrite <- drop_drop. apply take_drop.
      * rewrite Z.min_r by lia.
        rewrite (drop_ge text (Z.to_nat (currentPos + 2000)))
          by (unfold JsString.length in *; lia).
        rewrite app_nil_r. apply take_ge. rewrite length_drop.
        unfold JsString.length in *. lia.
    + cbn [map length]. rewrite Hnums.
      rewrite Nat2Z.inj_succ, (seqZ_cons pageNum) by lia.
      f_equal. f_equal; lia.
    + constructor; [|exact Hpages].
      unfold page_of_text. cbn [Page.pageNumber Page.startChar Page.endChar Page.text].
      rewrite Hl. repeat split; try lia.
      rewrite Hs at 1. reflexivity.
    + cbn [length]. rewrite Nat2Z.inj_succ, Hlen.
      replace (JsString.length text - currentPos + 1999)
        with (JsString.length text - (currentPos + 2000) + 1999 + 1 * 2000)
        by lia.
      rewrite (Z.max_r 0 (_ + 1 * 2000)) by lia.
      rewrite Z.div_add by lia.
      destruct (Z.le_gt_cases 0 (JsString.length text - (currentPos + 2000) + 1999)).
      * rewrite Z.max_r by lia. lia.
      * rewrite Z.max_l by lia.
        rewrite (Z.div_small (_ + 1999)) by lia.
        change (0 / 2000) with 0. lia.
  - clear Heq. exists []. rewrite app_nil_r.
    pose proof (Nat2Z.is_nonneg (length text)).
    unfold JsString.length in *. repeat split; try constructor.
    + cbn. assert (Hge : (length text <= Z.to_nat currentPos)%nat) by lia.
      now rewrite drop_ge.
    + cbn. symmetry. apply Z.div_small. lia.
Qed.

(** The pages of a text partition it. *)
Lemma pages_of_text_spec fullText :
  let extraction := pages_of_text fullText in
  Upload.fullText extraction = fullText
  /\ concat (map Page.text (pages extraction)) = fullText
  /\ map Page.pageNumber (pages extraction) = seqZ 1 (totalPages extraction)
  /\ Forall (page_of_text fullText) (pages extraction)
  /\ totalPages extraction = (JsString.length fullText + 1999) / 2000.
Proof.
  cbn zeta. unfold pages_of_text. cbn.
  destruct (page_loop_spec fullText 0 1 [] ltac:(lia) ltac:(lia))
    as (rest & Hrest & Hcat & Hnums & Hpages & Hlen).
  cbn [app] in Hrest. rewrite Hrest.
  pose proof (Nat2Z.is_nonneg (length fullText)).
  repeat split; try assumption.
  rewrite Hlen. unfold JsString.length. f_equal. lia.
Qed.

End ExtractFacts.

(** X9: [extractPagesFromPDF] cuts the text into pages that partition it:
    the page texts concatenated are the text; the pages are numbered 1,
    2, ...; page [n] starts at character [2000 * (n - 1)], holds between 1
    and 2000 characters, which are the ones of the text from its
    [startChar] to its [endChar]; and [totalPages] is the length of the
    text divided by 2000, rounded up. *)
Theorem extracted_pages_partition_text fullText :
  let extraction := Upload.pages_of_text fullText in
  Upload.fullText extraction = fullText
  /\ concat (map Page.text (Upload.pages extraction)) = fullText
  /\ map Page.pageNumber (Upload.pages extraction)
     = seqZ 1 (Upload.totalPages extraction)
  /\ Forall (page_of_text fullText) (Upload.pages extraction)
  /\ Upload.totalPages extraction = (JsString.length fullText + 1999) / 2000.
Proof. apply ExtractFacts.pages_of_text_spec. Qed.

(** ** The embedding gateway on all inputs *)

Module GatewayFacts.
Import Embeddings.

Lemma mapM_throw {A B : Type} (f : A -> outcome B) (l : list A) message :
  mapM f l = Throw message -> exists a, In a l /\ f a = Throw message.
Proof.
  induction l as [|a l IH]; cbn [mapM]; [discriminate|].
  destruct (f a) as [b|m] eqn:Ea; cbn.
  - destruct (mapM f l) as [bs|m]; cbn; [discriminate|]. intros [= <-].
    destruct (IH eq_refl) as (a' & Ha' & Hf). exists a'. split; [now right|exact Hf].
  - intros [= <-]. exists a. split; [now left|exact Ea].
Qed.

Lemma mapM_length {A B : Type} (f : A -> outcome B) (l : list A) rs :
  mapM f l = Return rs -> length rs = length l.
Proof.
  intros H. apply EmbeddingFacts.mapM_Forall2, Forall2_length in H. now symmetry.
Qed.

(** Batching does not show in the result: [generateEmbeddings] is the
    map of the service over the texts, with the error wrapped and with
    the empty result turned into an error. *)
Lemma generateEmbeddings_unbatched embedContent texts :
  generateEmbeddings embedContent texts
  = match mapM embedContent texts with
    | Return [] =>
        Throw (str "Failed to generate embeddings: "
               ++ str "Cannot read properties of undefined (reading 'length')")
    | Return embeddings => Return embeddings
    | Throw message => Throw (str "Failed to generate embeddings: " ++ message)
    end.
Proof.
  unfold generateEmbeddings. rewrite EmbeddingFacts.batches_drop, drop_0.
  destruct (mapM embedContent texts) as [[|e es]|m]; reflexivity.
Qed.

Lemma generateEmbeddings_inv embedContent texts embeddings :
  generateEmbeddings embedContent texts = Return embeddings ->
  texts <> [] /\ mapM embedContent texts = Return embeddings.
Proof.
  rewrite generateEmbeddings_unbatched.
  destruct (mapM embedContent texts) as [[|e es]|m] eqn:E; try discriminate.
  intros [= <-]. split; [|reflexivity]. intros ->. discriminate.
Qed.

End GatewayFacts.

(** X10: [generateEmbeddings] returns exactly when there is a text and the
    service answers every request, and then with the embedding of each
    text, one for each and in their order, however the texts fall into
    batches of 100. When it throws, either there was no text, and the
    message is the wrapped [TypeError] of the log line, or a request
    failed, and the message is ["Failed to generate embeddings: "]
    followed by the message of a failed request. *)
Theorem generateEmbeddings_returns_or_wraps
    (embedContent : jsstring -> outcome vector) texts :
  match Embeddings.generateEmbeddings embedContent texts with
  | Return embeddings =>
      texts <> []
      /\ Forall2 (fun text embedding => embedContent text = Return embedding)
           texts embeddings
  | Throw message =>
      (texts = []
       /\ message
          = str "Failed to generate embeddings: "
            ++ str "Cannot read properties of undefined (reading 'length')")
      \/ (exists text failure,
             In text texts
             /\ embedContent text = Throw failure
             /\ message = str "Failed to generate embeddings: " ++ failure)
  end.
Proof.
  rewrite GatewayFacts.generateEmbeddings_unbatched.
  destruct (mapM embedContent texts) as [[|e es]|m] eqn:E.
  - left. split; [|reflexivity].
    apply GatewayFacts.mapM_length in E. now destruct texts.
  - split; [intros ->; discriminate|].
    now apply EmbeddingFacts.mapM_Forall2.
  - right. apply GatewayFacts.mapM_throw in E as (text & Hin & Hf).
    now exists text, m.
Qed.

(** ** The upload route *)

Module UploadFacts.
Import Upload.

Section Collaborators.
Variable pdfParse : list Byte.byte -> outcome jsstring.
Variable embedContent : jsstring -> outcome vector.
Variable now : Z.

Lemma prepare_inv f extraction chunks embeddings :
  prepare pdfParse embedContent f = Return (extraction, chunks, embeddings) ->
  exists text,
    pdfParse (buffer f) = Return text
    /\ extraction = pages_of_text text
    /\ chunks = Chunker.splitIntoChunksWithMetadata Chunker.defaultChunkSize
                  Chunker.defaultOverlap (pages extraction)
    /\ chunks <> []
    /\ mapM embedContent (map Chunk.text chunks) = Return embeddings.
Proof.
  unfold prepare, extractPagesFromPDF.
  destruct (pdfParse (buffer f)) as [text|m]; [|discriminate]. cbn.
  destruct (Embeddings.generateEmbeddings _ _) as [es|m] eqn:E; [|discriminate].
  cbn. intros [= <- <- <-]. exists text.
  apply GatewayFacts.generateEmbeddings_inv in E as [Hne Hes].
  repeat split; try assumption. intros H. apply Hne. now rewrite H.
Qed.

(** The three ways the route ends for a file. *)
Lemma upload_cases db f :
  (exists message,
      upload pdfParse embedContent now db (Some f)
      = (db, failed_to_process message))
  \/ (exists extraction chunks embeddings,
         prepare pdfParse embedContent f = Return (extraction, chunks, embeddings)
         /\ Server.findOne (Db.documents db) (str (pretty now)) = None
         /\ upload pdfParse embedContent now db (Some f)
            = ({| Db.documents :=
                    Db.documents db
                    ++ [{| DocumentRecord._id := str (pretty now);
                           DocumentRecord.filename := originalname f;
                           DocumentRecord.textLength :=
                             JsString.length (fullText extraction);
                           DocumentRecord.chunkCount := Z.of_nat (length chunks);
                           DocumentRecord.totalPages := totalPages extraction |}];
                  Db.vectors :=
                    Db.vectors db
                    ++ zip_with (vectorDocument (str (pretty now))) chunks embeddings |},
               Response 200
                 (ProcessedBody (str (pretty now)) (originalname f)
                    (JsString.length (fullText extraction))
                    (Z.of_nat (length chunks)) (totalPages extraction)))).
Proof.
  unfold upload.
  destruct (prepare pdfParse embedContent f) as [[[extraction chunks] embeddings]|m];
    [|left; now exists m].
  unfold insertOne. cbn [DocumentRecord._id].
  destruct (Server.findOne (Db.documents db) (str (pretty now))) eqn:E.
  - left. eexists. reflexivity.
  - right. exists extraction, chunks, embeddings. repeat split.
Qed.

Lemma findOne_app_absent documents document :
  Server.findOne documents (DocumentRecord._id document) = None ->
  Server.findOne (documents ++ [document]) (DocumentRecord._id document)
  = Some document.
Proof.
  unfold Server.findOne. induction documents as [|d documents IH]; cbn.
  - intros _. now rewrite bool_decide_eq_true_2.
  - destruct (bool_decide _); [discriminate|exact IH].
Qed.

Lemma deleteOne_app_absent documents document :
  Server.findOne documents (DocumentRecord._id document) = None ->
  Server.deleteOne (documents ++ [document]) (DocumentRecord._id document)
  = documents.
Proof.
  unfold Server.findOne. induction documents as [|d documents IH]; cbn.
  - intros _. now rewrite bool_decide_eq_true_2.
  - destruct (bool_decide _); [discriminate|]. intros H. now rewrite IH.
Qed.

Lemma blank_no_paragraph text :
  blank text -> Chunker.paragraphs text = [].
Proof.
  intros Hblank. pose proof (StringFacts.paragraphs_spec text) as Hps.
  destruct (Chunker.paragraphs text) as [|p ps]; [reflexivity|].
  inversion Hps as [|? ? [(before & after & ->) Hp] _]; subst.
  exfalso. unfold blank in Hblank.
  apply Forall_app in Hblank as [_ Hblank].
  apply Forall_app in Hblank as [Hblank _].
  unfold has_text in Hp. apply List.Exists_exists in Hp as (c & Hc & Hw).
  pose proof (proj1 (List.Forall_forall _ _) Hblank c Hc). congruence.
Qed.

Lemma blank_no_chunk chunkSize overlap text :
  blank text ->
  Chunker.splitIntoChunksWithMetadata chunkSize overlap
    (pages (pages_of_text text)) = [].
Proof.
  intros Hblank. apply PageFacts.split_nil.
  destruct (ExtractFacts.pages_of_text_spec text) as (_ & _ & _ & Hpages & _).
  cbn zeta in Hpages. eapply Forall_impl; [exact Hpages|]. cbn beta.
  intros pg (_ & _ & _ & _ & _ & Htext). apply blank_no_paragraph.
  rewrite Htext. unfold blank in *. now apply Forall_take, Forall_drop.
Qed.

Lemma zip_with_vectorDocument docId chunks : forall embeddings,
  length embeddings = length chunks ->
  map VectorRecord.chunkIndex (zip_with (vectorDocument docId) chunks embeddings)
  = map Chunk.chunkIndex chunks
  /\ length (zip_with (vectorDocument docId) chunks embeddings) = length chunks.
Proof.
  induction chunks as [|c chunks IH]; intros [|e es] Hlen; try discriminate;
    [now split|].
  cbn. destruct (IH es ltac:(now injection Hlen)) as [-> ->]. now split.
Qed.

Lemma stored_zip docId totalPages chunks : forall embeddings,
  mapM embedContent (map Chunk.text chunks) = Return embeddings ->
  Forall (fun c => 1 <= Metadata.page (Chunk.metadata c) <= totalPages
                   /\ JsString.trim (Chunk.text c) = Chunk.text c
                   /\ 0 < JsString.length (Chunk.text c)) chunks ->
  Forall (stored_for embedContent docId totalPages)
    (zip_with (vectorDocument docId) chunks embeddings).
Proof.
  induction chunks as [|c chunks IH]; intros embeddings; cbn [map mapM].
  - intros [= <-] _. constructor.
  - destruct (embedContent (Chunk.text c)) as [e|] eqn:Ee; [|discriminate]. cbn.
    destruct (mapM embedContent (map Chunk.text chunks)) as [es|]; [|discriminate].
    cbn. intros [= <-] Hcs. inversion Hcs as [|? ? (Hpage & Htrim & Hlen) Hcs']; subst.
    cbn [zip_with]. constructor; [|now apply IH].
    unfold stored_for, vectorDocument. cbn. now repeat split.
Qed.

Lemma pages_in_range text :
  Forall (fun pg => 1 <= Page.pageNumber pg <= totalPages (pages_of_text text))
    (pages (pages_of_text text)).
Proof.
  destruct (ExtractFacts.pages_of_text_spec text) as (_ & _ & Hnums & _).
  cbn zeta in Hnums. apply List.Forall_forall. intros pg Hpg.
  apply (in_map Page.pageNumber) in Hpg. rewrite Hnums in Hpg.
  apply list_elem_of_In, elem_of_seqZ in Hpg. lia.
Qed.

(** What an upload that is answered 200 leaves behind. *)
Lemma upload_ok db f :
  status (snd (upload pdfParse embedContent now db (Some f))) = 200 ->
  exists text added,
    pdfParse (buffer f) = Return text
    /\ Server.findOne (Db.documents db) (str (pretty now)) = None
    /\ upload pdfParse embedContent now db (Some f)
       = ({| Db.documents :=
               Db.documents db
               ++ [{| DocumentRecord._id := str (pretty now);
                      DocumentRecord.filename := originalname f;
                      DocumentRecord.textLength := JsString.length text;
                      DocumentRecord.chunkCount := Z.of_nat (length added);
                      DocumentRecord.totalPages :=
                        (JsString.length text + 1999) / 2000 |}];
             Db.vectors := Db.vectors db ++ added |},
          Response 200
            (ProcessedBody (str (pretty now)) (originalname f)
               (JsString.length text) (Z.of_nat (length added))
               ((JsString.length text + 1999) / 2000)))
    /\ added <> []
    /\ map VectorRecord.chunkIndex added = seqZ 0 (Z.of_nat (length added))
    /\ Forall (stored_for embedContent (str (pretty now))
                 ((JsString.length text + 1999) / 2000)) added.
Proof.
  intros Hstatus.
  destruct (upload_cases db f)
    as [(m & E)|(extraction & chunks & es & Hprep & Hfind & E)];
    rewrite E in Hstatus |- *; [discriminate Hstatus|].
  apply prepare_inv in Hprep as (text & Hparse & -> & Hchunks & Hne & Hes).
  destruct (ExtractFacts.pages_of_text_spec text) as (Hfull & _ & _ & _ & Htotal).
  cbn zeta in Hfull, Htotal.
  pose proof (GatewayFacts.mapM_length _ _ _ Hes) as Hlen.
  rewrite length_map in Hlen.
  destruct (zip_with_vectorDocument (str (pretty now)) chunks es Hlen)
    as [Hidx Hzip].
  exists text, (zip_with (vectorDocument (str (pretty now))) chunks es).
  rewrite Hzip, Hfull, Htotal.
  split; [exact Hparse|]. split; [exact Hfind|]. split; [reflexivity|].
  split; [|split].
  - intros H. apply (f_equal length) in H. rewrite Hzip in H.
    destruct chunks; [contradiction|discriminate].
  - rewrite Hidx, Hchunks.
    destruct (ChunkerFacts.split_emitted Chunker.defaultChunkSize
                Chunker.defaultOverlap (pages (pages_of_text text))) as [n Hn].
    exact (ChunkerFacts.emitted_indices _ _ Hn).
  - rewrite <- Htotal. apply stored_zip; [exact Hes|]. rewrite Hchunks.
    pose proof (PageFacts.split_cites Chunker.defaultChunkSize
                  Chunker.defaultOverlap (pages (pages_of_text text))) as Hcite.
    pose proof (PageFacts.texts_trimmed Chunker.defaultChunkSize
                  Chunker.defaultOverlap (pages (pages_of_text text))) as Htrim.
    pose proof (pages_in_range text) as Hrange.
    apply List.Forall_forall. intros c Hc.
    destruct (proj1 (List.Forall_forall _ _) Hcite c Hc) as (pg & Hpg & Hpage & _).
    pose proof (proj1 (List.Forall_forall _ _) Hrange pg Hpg) as Hnum.
    pose proof (proj1 (List.Forall_forall _ _) Htrim c Hc) as [Ht Hl].
    rewrite Hpage. split; [exact Hnum|]. now split.
Qed.

End Collaborators.

End UploadFacts.

(** X11: a PDF in which [pdfParse] finds no text, or white space only, is
    answered 500 with the wrapped [TypeError] of [generateEmbeddings]:
    the text gives no chunk, so no embedding is requested and nothing is
    written to either collection. *)
Theorem upload_without_text pdfParse embedContent now db f text :
  pdfParse (Upload.buffer f) = Return text ->
  blank text ->
  Upload.upload pdfParse embedContent now db (Some f)
  = (db,
     Upload.Response 500
       (Upload.ErrorBody
          (str "Failed to process PDF: "
           ++ str "Failed to generate embeddings: "
           ++ str "Cannot read properties of undefined (reading 'length')"))).
Proof.
  intros Hparse Hblank.
  unfold Upload.upload, Upload.prepare, Upload.extractPagesFromPDF.
  rewrite Hparse. cbn [mbind outcome_bind].
  rewrite UploadFacts.blank_no_chunk by assumption. cbn [map].
  rewrite GatewayFacts.generateEmbeddings_unbatched. reflexivity.
Qed.

Lemma upload_without_text_witness :
  Upload.upload parse_spaces embed_constant 1700000000000 db_without_vectors
    (Some file_ab_c)
  = (db_without_vectors,
     Upload.Response 500
       (Upload.ErrorBody
          (str "Failed to process PDF: "
           ++ str "Failed to generate embeddings: "
           ++ str "Cannot read properties of undefined (reading 'length')"))).
Proof.
  apply (upload_without_text parse_spaces embed_constant 1700000000000
           db_without_vectors file_ab_c (str "   ")).
  - reflexivity.
  - repeat constructor.
Defined.

(** X12: an upload that is answered 200 has added one document record and
    at least one vector record, and nothing else. The record has the
    [docId] of the answer, which no document had before, so [findOne]
    with that id finds it afterwards; its [textLength] is the length of
    the text, its [totalPages] that length divided by 2000, rounded up,
    and its [chunkCount] the number of vectors added. The vectors added
    have the [chunkIndex] 0, 1, 2, ... in order; each carries the [docId],
    cites a page between 1 and [totalPages], and holds a trimmed text that
    is not empty with the embedding the service returned for it. *)
Theorem upload_stores_document_and_vectors pdfParse embedContent now db f :
  Upload.status (snd (Upload.upload pdfParse embedContent now db (Some f))) = 200 ->
  exists text added,
    let docId := str (pretty now) in
    let totalPages := (JsString.length text + 1999) / 2000 in
    let document :=
      {| DocumentRecord._id := docId;
         DocumentRecord.filename := Upload.originalname f;
         DocumentRecord.textLength := JsString.length text;
         DocumentRecord.chunkCount := Z.of_nat (length added);
         DocumentRecord.totalPages := totalPages |} in
    pdfParse (Upload.buffer f) = Return text
    /\ Upload.upload pdfParse embedContent now db (Some f)
       = ({| Db.documents := Db.documents db ++ [document];
             Db.vectors := Db.vectors db ++ added |},
          Upload.Response 200
            (Upload.ProcessedBody docId (Upload.originalname f)
               (JsString.length text) (Z.of_nat (length added)) totalPages))
    /\ Server.findOne (Db.documents db) docId = None
    /\ Server.findOne (Db.documents db ++ [document]) docId = Some document
    /\ added <> []
    /\ map VectorRecord.chunkIndex added = seqZ 0 (Z.of_nat (length added))
    /\ Forall (stored_for embedContent docId totalPages) added.
Proof.
  intros Hstatus.
  destruct (UploadFacts.upload_ok pdfParse embedContent now db f Hstatus)
    as (text & added & Hparse & Hfind & Hup & Hne & Hidx & Hstored).
  exists text, added. cbn zeta. repeat split; try assumption.
  now apply (UploadFacts.findOne_app_absent (Db.documents db)).
Qed.

Lemma upload_stores_document_and_vectors_witness :
  exists text added,
    let docId := str (pretty 1700000000000) in
    let totalPages := (JsString.length text + 1999) / 2000 in
    let document :=
      {| DocumentRecord._id := docId;
         DocumentRecord.filename := Upload.originalname file_ab_c;
         DocumentRecord.textLength := JsString.length text;
         DocumentRecord.chunkCount := Z.of_nat (length added);
         DocumentRecord.totalPages := totalPages |} in
    parse_ab_c (Upload.buffer file_ab_c) = Return text
    /\ Upload.upload parse_ab_c embed_constant 1700000000000 db_without_vectors
         (Some file_ab_c)
       = ({| Db.documents := Db.documents db_without_vectors ++ [document];
             Db.vectors := Db.vectors db_without_vectors ++ added |},
          Upload.Response 200
            (Upload.ProcessedBody docId (Upload.originalname file_ab_c)
               (JsString.length text) (Z.of_nat (length added)) totalPages))
    /\ Server.findOne (Db.documents db_without_vectors) docId = None
    /\ Server.findOne (Db.documents db_without_vectors ++ [document]) docId
       = Some document
    /\ added <> []
    /\ map VectorRecord.chunkIndex added = seqZ 0 (Z.of_nat (length added))
    /\ Forall (stored_for embed_constant docId totalPages) added.
Proof.
  apply (upload_stores_document_and_vectors parse_ab_c embed_constant
           1700000000000 db_without_vectors file_ab_c).
  vm_compute. reflexivity.
Defined.

(** X13: an upload that is answered 200, followed by the delete route on
    the [docId] of the answer, leaves the database as it was before the
    upload, when no vector carried that [docId] before. *)
Theorem upload_then_delete pdfParse embedContent now db f :
  Upload.status (snd (Upload.upload pdfParse embedContent now db (Some f))) = 200 ->
  Forall (fun v => VectorRecord.docId v <> str (pretty now)) (Db.vectors db) ->
  fst (Server.delete_document
         (fst (Upload.upload pdfParse embedContent now db (Some f)))
         (str (pretty now)))
  = db.
Proof.
  intros Hstatus Hfresh.
  destruct (UploadFacts.upload_ok pdfParse embedContent now db f Hstatus)
    as (text & added & _ & Hfind & -> & _ & _ & Hstored).
  unfold Server.delete_document. cbn [fst Db.documents Db.vectors].
  match goal with |- context [Db.documents db ++ [?d]] =>
    pose proof (UploadFacts.deleteOne_app_absent (Db.documents db) d Hfind) as Hdel
  end.
  cbn [DocumentRecord._id] in Hdel. rewrite Hdel.
  unfold Server.deleteMany. rewrite List.filter_app.
  fold (Server.deleteMany (Db.vectors db) (str (pretty now))).
  rewrite (DeleteFacts.deleteMany_absent _ _ Hfresh).
  replace (List.filter _ added) with (@nil VectorRecord.t).
  - rewrite app_nil_r. now destruct db.
  - symmetry. clear Hdel.
    induction Hstored as [|v vs (Hv & _) _ IH]; [reflexivity|].
    cbn [List.filter]. rewrite bool_decide_eq_true_2 by assumption. exact IH.
Qed.

Lemma upload_then_delete_witness :
  fst (Server.delete_document
         (fst (Upload.upload parse_ab_c embed_constant 1700000000000
                 db_without_vectors (Some file_ab_c)))
         (str (pretty 1700000000000)))
  = db_without_vectors.
Proof.
  apply (upload_then_delete parse_ab_c embed_constant 1700000000000
           db_without_vectors file_ab_c).
  - vm_compute. reflexivity.
  - repeat constructor. vm_compute. discriminate.
Defined.

(** X14: the [docId] is the time in milliseconds, so a second upload at
    the same millisecond as one that was answered 200 cannot be stored:
    whatever the file and the collaborators, it is answered 500 and leaves
    the database as the first upload left it. *)
Theorem upload_same_millisecond pdfParse embedContent pdfParse' embedContent'
    now db f f' :
  Upload.status (snd (Upload.upload pdfParse embedContent now db (Some f))) = 200 ->
  let db' := fst (Upload.upload pdfParse embedContent now db (Some f)) in
  fst (Upload.upload pdfParse' embedContent' now db' (Some f')) = db'
  /\ Upload.status (snd (Upload.upload pdfParse' embedContent' now db' (Some f')))
     = 500.
Proof.
  intros Hstatus.
  destruct (UploadFacts.upload_ok pdfParse embedContent now db f Hstatus)
    as (text & added & _ & Hfind & -> & _).
  cbn zeta. cbn [fst].
  match goal with |- context [Db.documents db ++ [?d]] =>
    pose proof (UploadFacts.findOne_app_absent (Db.documents db) d Hfind) as Hdup
  end.
  cbn [DocumentRecord._id] in Hdup.
  match goal with |- context [Upload.upload _ _ _ ?d _] =>
    destruct (UploadFacts.upload_cases pdfParse' embedContent' now d f')
      as [(m & ->)|(extraction & chunks & es & _ & Hnone & _)]
  end.
  - split; reflexivity.
  - cbn [Db.documents] in Hnone. rewrite Hdup in Hnone. discriminate.
Qed.

Lemma upload_same_millisecond_witness :
  let db' := fst (Upload.upload parse_ab_c embed_constant 1700000000000
                    db_without_vectors (Some file_ab_c)) in
  fst (Upload.upload parse_ab_c embed_constant 1700000000000 db' (Some file_ab_c))
  = db'
  /\ Upload.status
       (snd (Upload.upload parse_ab_c embed_constant 1700000000000 db'
               (Some file_ab_c)))
     = 500.
Proof.
  apply (upload_same_millisecond parse_ab_c embed_constant parse_ab_c
           embed_constant 1700000000000 db_without_vectors file_ab_c file_ab_c).
  vm_compute. reflexivity.
Defined.

(** ** When a search returns, and how much *)

Module ReturnFacts.

Lemma mapM_cases {A B : Type} (f : A -> outcome B) (ok : A -> Prop) message :
  (forall a, match f a with
             | Return _ => ok a
             | Throw m => m = message /\ ~ ok a
             end) ->
  forall l, match mapM f l with
            | Return rs => Forall ok l /\ length rs = length l
            | Throw m => m = message /\ Exists (fun a => ~ ok a) l
            end.
Proof.
  intros Hf. induction l as [|a l IH]; cbn [mapM]; [now split|].
  specialize (Hf a). destruct (f a) as [b|m]; cbn.
  - destruct (mapM f l) as [bs|m]; cbn.
    + destruct IH as [IH1 IH2]. split; [now constructor|]. cbn. now rewrite IH2.
    + destruct IH as [IH1 IH2]. split; [assumption|now right].
  - destruct Hf as [Hm Hok]. split; [assumption|now left].
Qed.

Lemma cosineSimilarity_cases query embedding :
  match cosineSimilarity query embedding with
  | Return _ => same_dimension query embedding
  | Throw m => m = str "Vectors must have same length"
               /\ ~ same_dimension query embedding
  end.
Proof.
  unfold cosineSimilarity, cosineSimilarity_over, same_dimension.
  destruct (Nat.eqb_spec (length query) (length embedding)) as [E|E]; cbn [negb].
  - destruct (accumulate binary64 query embedding _) as [[d na] nb]. now symmetry.
  - split; [reflexivity|]. intros H. now apply E.
Qed.

Lemma slice_to_kept {A : Type} (l : list A) (topK : Z) :
  length (JsArray.slice_to l topK) = kept topK (length l).
Proof.
  unfold JsArray.slice_to, kept. cbv zeta. rewrite length_take.
  destruct (Z.ltb_spec topK 0); lia.
Qed.

Lemma insert_length {A : Type} (comparefn : A -> A -> float) x (l : list A) :
  length (JsArray.insert comparefn x l) = S (length l).
Proof.
  induction l as [|y l IH]; [reflexivity|]. cbn [JsArray.insert].
  destruct (JsArray.placed_after comparefn x y); cbn [length]; [|reflexivity].
  now rewrite IH.
Qed.

Lemma sort_length {A : Type} (comparefn : A -> A -> float) (l : list A) :
  length (JsArray.sort comparefn l) = length l.
Proof.
  induction l as [|x l IH]; [reflexivity|].
  unfold JsArray.sort in *. cbn [fold_right length].
  now rewrite insert_length, IH.
Qed.

(** Scoring, sorting and truncating returns exactly when every score is
    computed. *)
Lemma top_cases {A C : Type} (f : C -> outcome A) (comparefn : A -> A -> float)
    (ok : C -> Prop) message (l : list C) (topK : Z) :
  (forall a, match f a with
             | Return _ => ok a
             | Throw m => m = message /\ ~ ok a
             end) ->
  match (rs ← mapM f l; Return (JsArray.slice_to (JsArray.sort comparefn rs) topK)) with
  | Return results => Forall ok l /\ length results = kept topK (length l)
  | Throw m => m = message /\ Exists (fun a => ~ ok a) l
  end.
Proof.
  intros Hf. pose proof (mapM_cases f ok message Hf l) as H.
  destruct (mapM f l) as [rs|m]; cbn; [|exact H].
  destruct H as [H1 H2]. split; [exact H1|].
  now rewrite slice_to_kept, sort_length, H2.
Qed.

End ReturnFacts.

(** X15: the two searches fail on a dimension mismatch only. The
    brute-force search of [/api/ask] returns exactly when every candidate
    (the first 50 records of the document) has an embedding of the
    dimension of the question, and then as many results as [slice(0, 3)]
    keeps of the candidates; otherwise it throws "Vectors must have same
    length". [VectorStore.search] throws "not found" for a [docId] that is
    not stored; for a stored one it returns exactly when every chunk of
    the document has an embedding of the dimension of the query, and then
    as many results as [slice(0, topK)] keeps of the chunks; otherwise it
    throws "Vectors must have same length". *)
Theorem search_fails_on_dimension_mismatch_only :
  (forall vectorCollection docId questionEmbedding,
      let candidates := Fallback.find vectorCollection docId in
      match Fallback.search vectorCollection docId questionEmbedding with
      | Return results =>
          Forall (fun r => same_dimension questionEmbedding (VectorRecord.embedding r))
            candidates
          /\ length results = kept Fallback.topK (length candidates)
      | Throw message =>
          message = str "Vectors must have same length"
          /\ Exists (fun r => ~ same_dimension questionEmbedding
                               (VectorRecord.embedding r)) candidates
      end)
  /\ (forall (store : VectorStore.t) docId queryEmbedding topK,
         match store !! docId with
         | None =>
             VectorStore.search store docId queryEmbedding topK
             = Throw (str "Document " ++ docId ++ str " not found in vector store")
         | Some chunks =>
             match VectorStore.search store docId queryEmbedding topK with
             | Return results =>
                 Forall (fun c => same_dimension queryEmbedding
                                    (StoredChunk.embedding c)) chunks
                 /\ length results = kept topK (length chunks)
             | Throw message =>
                 message = str "Vectors must have same length"
                 /\ Exists (fun c => ~ same_dimension queryEmbedding
                                      (StoredChunk.embedding c)) chunks
             end
         end).
Proof.
  split.
  - intros vectorCollection docId questionEmbedding. cbn zeta.
    unfold Fallback.search.
    apply (ReturnFacts.top_cases (Fallback.with_score questionEmbedding)
             Fallback.by_score
             (fun r => same_dimension questionEmbedding (VectorRecord.embedding r))).
    intros r. unfold Fallback.with_score.
    pose proof (ReturnFacts.cosineSimilarity_cases questionEmbedding
                  (VectorRecord.embedding r)) as H.
    destruct (cosineSimilarity _ _); exact H.
  - intros store docId queryEmbedding topK. unfold VectorStore.search.
    destruct (store !! docId) as [chunks|]; [|reflexivity].
    apply (ReturnFacts.top_cases (VectorStore.with_similarity queryEmbedding)
             VectorStore.by_similarity
             (fun c => same_dimension queryEmbedding (StoredChunk.embedding c))).
    intros c. unfold VectorStore.with_similarity.
    pose proof (ReturnFacts.cosineSimilarity_cases queryEmbedding
                  (StoredChunk.embedding c)) as H.
    destruct (cosineSimilarity _ _); exact H.
Qed.

(** ** The results are the best candidates *)

Module BestFacts.
Local Open Scope float_scope.

Lemma SFleb_trans x y z :
  SFleb x y = true -> SFleb y z = true -> SFleb x z = true.
Proof.
  unfold SFleb, SFcompare.
  destruct x as [sx|sx| |sx mx ex], y as [sy|sy| |sy my ey],
    z as [sz|sz| |sz mz ez];
    try discriminate; try reflexivity;
    try (destruct sx; try discriminate; try reflexivity);
    try (destruct sy; try discriminate; try reflexivity);
    try (destruct sz; try discriminate; try reflexivity).
  all: destruct (Z.compare_spec ex ey), (Z.compare_spec ey ez),
         (Z.compare_spec ex ez); try discriminate; try reflexivity; try lia.
  all: subst; rewrite ?Pos.compare_cont_spec; cbn [Pos.switch_Eq];
    destruct (Pos.compare_spec mx my), (Pos.compare_spec my mz),
      (Pos.compare_spec mx mz); cbn; try discriminate; try reflexivity; lia.
Qed.

(** [<=] on binary64 numbers is transitive. *)
Lemma leb_trans (x y z : float) :
  (x <=? y) = true -> (y <=? z) = true -> (x <=? z) = true.
Proof. rewrite !FloatAxioms.leb_spec. apply SFleb_trans. Qed.

Lemma descending_strong scores :
  descending scores ->
  StronglySorted (fun previous next => (next <=? previous) = true) scores.
Proof.
  apply Sorted_StronglySorted. intros x y z Hxy Hyz.
  exact (leb_trans z y x Hyz Hxy).
Qed.

Lemma strong_app {A : Type} (R : A -> A -> Prop) l1 l2 :
  StronglySorted R (l1 ++ l2) -> Forall (fun a => Forall (R a) l2) l1.
Proof.
  induction l1 as [|a l1 IH]; cbn [app]; intros H; [constructor|].
  inversion H as [|? ? Hs Ha]; subst. constructor; [|now apply IH].
  apply Forall_app in Ha. tauto.
Qed.

Section ByKey.
Context {A : Type} (key : A -> float) (comparefn : A -> A -> float).
Hypothesis comparefn_key : forall a b, comparefn a b = key b - key a.

(** Of the candidates sorted by score, those after the first [n] score no
    higher than any of the first [n]. *)
Lemma top_best (l : list A) n :
  Forall (fun y => is_nan (key y) = false) l ->
  Forall (fun r => Forall (fun r' => (key r' <=? key r) = true)
                     (drop n (JsArray.sort comparefn l)))
    (take n (JsArray.sort comparefn l)).
Proof.
  intros Hnan.
  pose proof (SearchFacts.sort_descending key comparefn comparefn_key l Hnan)
    as Hsorted.
  apply descending_strong in Hsorted.
  rewrite <- (take_drop n (JsArray.sort comparefn l)) in Hsorted at 1.
  rewrite fmap_app in Hsorted. apply strong_app in Hsorted.
  apply Forall_fmap in Hsorted. eapply Forall_impl; [exact Hsorted|].
  cbn. intros r Hr. now apply Forall_fmap in Hr.
Qed.

(** Scoring the candidates, sorting them and keeping the first [k]: what
    is left out scores no higher than what is kept. *)
Lemma best_of_sorted {C : Type} (f : C -> outcome A) (l : list C) (k : Z)
    (results : list A) :
  (rs ← mapM f l; Return (JsArray.slice_to (JsArray.sort comparefn rs) k))
  = Return results ->
  Forall (fun a => forall r, f a = Return r -> is_nan (key r) = false) l ->
  exists scored left_out,
    mapM f l = Return scored
    /\ scored ≡ₚ results ++ left_out
    /\ Forall (fun r => Forall (fun r' => (key r' <=? key r) = true) left_out)
         results.
Proof.
  destruct (mapM f l) as [rs|] eqn:Ers; [|discriminate]. cbn.
  intros [= <-] Hnan.
  destruct (SearchFacts.slice_to_take (JsArray.sort comparefn rs) k)
    as (n & -> & _).
  exists rs, (drop n (JsArray.sort comparefn rs)).
  split; [reflexivity|]. split.
  - rewrite take_drop. symmetry.
    apply (SearchFacts.sort_perm comparefn).
  - apply top_best. apply Forall_forall. intros r Hr.
    destruct (SearchFacts.mapM_elem_of f l rs r Ers Hr) as (a & Ha & Hf).
    eapply Forall_forall in Hnan; [|exact Ha]. now apply Hnan.
Qed.
End ByKey.

End BestFacts.

(** X16: the results of a search are the best candidates. When no
    candidate has the score [NaN], the brute-force search of [/api/ask]
    and [VectorStore.search] return a part of the scored candidates such
    that no candidate left out scores higher than a returned one: the
    scored candidates are the results and the ones left out, up to their
    order, and every score left out is at most every score returned. *)
Theorem search_returns_the_best :
  (forall vectorCollection docId questionEmbedding results,
      Fallback.search vectorCollection docId questionEmbedding = Return results ->
      Forall (fun record => forall s,
                cosineSimilarity questionEmbedding (VectorRecord.embedding record)
                = Return s -> PrimFloat.is_nan s = false)
        (Fallback.find vectorCollection docId) ->
      exists scored left_out,
        mapM (Fallback.with_score questionEmbedding)
          (Fallback.find vectorCollection docId) = Return scored
        /\ scored ≡ₚ results ++ left_out
        /\ Forall (fun r =>
                     Forall (fun r' => (ScoredChunk.score r' <=? ScoredChunk.score r)%float
                                       = true) left_out)
             results)
  /\ (forall (store : VectorStore.t) docId queryEmbedding topK chunks results,
         store !! docId = Some chunks ->
         VectorStore.search store docId queryEmbedding topK = Return results ->
         Forall (fun chunk => forall s,
                   cosineSimilarity queryEmbedding (StoredChunk.embedding chunk)
                   = Return s -> PrimFloat.is_nan s = false)
           chunks ->
         exists scored left_out,
           mapM (VectorStore.with_similarity queryEmbedding) chunks = Return scored
           /\ scored ≡ₚ results ++ left_out
           /\ Forall (fun r =>
                        Forall (fun r' => (SearchResult.similarity r'
                                           <=? SearchResult.similarity r)%float
                                          = true) left_out)
                results).
Proof.
  split.
  - intros vectorCollection docId questionEmbedding results H Hnan.
    apply (BestFacts.best_of_sorted ScoredChunk.score Fallback.by_score
             (fun a b => eq_refl) _ _ _ _ H).
    eapply Forall_impl; [exact Hnan|]. intros record Hs r Hr.
    now apply Hs, IndexFacts.with_score_inv.
  - intros store docId queryEmbedding topK chunks results Hchunks H Hnan.
    unfold VectorStore.search in H. rewrite Hchunks in H.
    apply (BestFacts.best_of_sorted SearchResult.similarity VectorStore.by_similarity
             (fun a b => eq_refl) _ _ _ _ H).
    eapply Forall_impl; [exact Hnan|]. intros chunk Hs r Hr.
    now apply Hs, IndexFacts.with_similarity_inv.
Qed.

(** The same on the collection [half, other, match] and on the store that
    maps [d] to the chunks [half, match], with [topK = 1]. *)
Lemma search_returns_the_best_witness :
  (exists results scored left_out,
      Fallback.search [half_record; other_record; match_record] (str "d") [1; 0]%float
      = Return results
      /\ mapM (Fallback.with_score [1; 0]%float)
           (Fallback.find [half_record; other_record; match_record] (str "d"))
         = Return scored
      /\ scored ≡ₚ results ++ left_out
      /\ Forall (fun r =>
                   Forall (fun r' => (ScoredChunk.score r' <=? ScoredChunk.score r)%float
                                     = true) left_out)
           results)
  /\ (exists results scored left_out,
         VectorStore.search (<[str "d" := [half_chunk; match_chunk]]> VectorStore.empty)
           (str "d") [1; 0]%float 1
         = Return results
         /\ SearchResult.text <$> results = [str "match"]
         /\ mapM (VectorStore.with_similarity [1; 0]%float) [half_chunk; match_chunk]
            = Return scored
         /\ scored ≡ₚ results ++ left_out
         /\ Forall (fun r =>
                      Forall (fun r' => (SearchResult.similarity r'
                                         <=? SearchResult.similarity r)%float
                                        = true) left_out)
              results).
Proof.
  destruct search_returns_the_best as [Hfallback Hstore].
  split.
  - eexists.
    edestruct (Hfallback [half_record; other_record; match_record] (str "d")
                 [1; 0]%float) as (scored & left_out & Hscored & Hperm & Hbest);
      [vm_compute; reflexivity| |].
    + repeat constructor; intros s Hs; vm_compute in Hs; injection Hs as <-;
        reflexivity.
    + exists scored, left_out. split; [reflexivity|]. now repeat split.
  - eexists.
    edestruct (Hstore (<[str "d" := [half_chunk; match_chunk]]> VectorStore.empty)
                 (str "d") [1; 0]%float 1)
      as (scored & left_out & Hscored & Hperm & Hbest);
      [apply lookup_insert_eq
      |unfold VectorStore.search; rewrite lookup_insert_eq; vm_compute; reflexivity
      | |].
    + repeat constructor; intros s Hs; vm_compute in Hs; injection Hs as <-;
        reflexivity.
    + exists scored, left_out. split;
        [unfold VectorStore.search; rewrite lookup_insert_eq; vm_compute; reflexivity|].
      now repeat split.
Defined.

(** ** The [/api/ask] route on all inputs *)

Module RouteFacts.

Section Collaborators.
Variable embedContent : jsstring -> outcome vector.
Variable vectorSearch :
  list VectorRecord.t -> vector -> Z -> Z -> jsstring -> outcome (list ScoredChunk.t).
Variable generateContent : jsstring -> outcome jsstring.

(** The retrieval makes the vector search, and the brute-force search
    exactly when the vector search throws. *)
Lemma retrieve_cases db docId questionEmbedding :
  let run := Server.retrieve vectorSearch db docId questionEmbedding in
  (calls run = [VectorSearch docId]
   /\ result run
      = vectorSearch (Db.vectors db) questionEmbedding (Fallback.topK * 10)
          Fallback.topK docId
   /\ exists chunks, result run = Return chunks)
  \/ (calls run = [VectorSearch docId; FindVectors docId]
      /\ result run = Fallback.search (Db.vectors db) docId questionEmbedding
      /\ exists message,
           vectorSearch (Db.vectors db) questionEmbedding (Fallback.topK * 10)
             Fallback.topK docId = Throw message).
Proof.
  cbn zeta. unfold Server.retrieve, io_try, perform. cbn [result calls].
  destruct (vectorSearch _ _ _ _ _) as [chunks|m]; cbn [result calls app].
  - left. repeat split. now exists chunks.
  - right. repeat split. now exists m.
Qed.

Lemma bind_throw {A B : Type} (m : io A) message (k : A -> io B) :
  result m = Throw message -> (m ≫= k) = IO (Throw message) (calls m).
Proof. intros H. unfold mbind, io_bind. now rewrite H. Qed.

(** The ways [/api/ask] ends once the document is found. *)
Lemma ask_found db (docId question : jsstring) document :
  docId <> [] -> question <> [] ->
  Server.findOne (Db.documents db) docId = Some document ->
  let run := Server.ask embedContent vectorSearch generateContent db
               (Server.Request (Some docId) (Some question)) in
  (exists message,
      run = IO (Return (Response 500 (ErrorBody (str "Failed to answer: " ++ message))))
              [FindDocument docId; EmbedContent question])
  \/ (exists questionEmbedding,
         let retrieval := Server.retrieve vectorSearch db docId questionEmbedding in
         (exists message,
             run = IO (Return (Response 500
                                 (ErrorBody (str "Failed to answer: " ++ message))))
                     (FindDocument docId :: EmbedContent question :: calls retrieval))
         \/ run = IO (Return (Response 200
                                (AnswerBody Server.no_relevant_information question
                                   docId [] None)))
                    (FindDocument docId :: EmbedContent question :: calls retrieval)
         \/ (exists chunks prompt,
                chunks <> []
                /\ result retrieval = Return chunks
                /\ ((exists message,
                        run = IO (Return (Response 500
                                            (ErrorBody (str "Failed to answer: "
                                                        ++ message))))
                                (FindDocument docId :: EmbedContent question
                                 :: calls retrieval ++ [GenerateContent prompt]))
                    \/ (exists answer details,
                           Details.chunksUsed details = Z.of_nat (length chunks)
                           /\ run = IO (Return (Response 200
                                                  (AnswerBody answer question docId
                                                     (imap Server.source chunks)
                                                     (Some details))))
                                      (FindDocument docId :: EmbedContent question
                                       :: calls retrieval
                                       ++ [GenerateContent prompt]))))).
Proof.
  intros Hd Hq Hdoc. cbn zeta. unfold Server.ask.
  cbn [Server.docId Server.question].
  change (default [] (Some docId)) with docId.
  change (default [] (Some question)) with question.
  assert (Hm : (Server.missing (Some docId) || Server.missing (Some question))%bool
               = false).
  { destruct docId, question; cbn; congruence. }
  rewrite Hm, AskFacts.bind_perform_return. cbv beta. rewrite Hdoc.
  destruct (Embeddings.generateSingleEmbedding embedContent question)
    as [questionEmbedding|m] eqn:Eemb.
  2:{ left. exists m. reflexivity. }
  right. exists questionEmbedding. rewrite AskFacts.bind_perform_return. cbv beta.
  destruct (result (Server.retrieve vectorSearch db docId questionEmbedding))
    as [chunks|m] eqn:Eret.
  2:{ left. exists m. rewrite (bind_throw _ _ _ Eret).
      cbn [result calls io_try mret io_ret app]. now rewrite app_nil_r. }
  right. rewrite (AskFacts.bind_return _ _ _ Eret).
  destruct chunks as [|chunk chunks].
  { left. cbn [length Nat.eqb result calls mret io_ret app io_try].
    now rewrite app_nil_r. }
  right. cbn [length Nat.eqb].
  match goal with |- context [GenerateContent ?p] => set (prompt := p) end.
  exists (chunk :: chunks), prompt. split; [discriminate|]. split; [reflexivity|].
  destruct (generateContent prompt) as [answer|m] eqn:Egen.
  - right. do 2 eexists. split; [|reflexivity]. reflexivity.
  - left. exists m. cbn [result calls mret io_ret app io_try perform mbind io_bind].
    now rewrite app_nil_r.
Qed.

Lemma score_or_zero_number score :
  PrimFloat.is_nan (Server.score_or_zero score) = false.
Proof.
  unfold Server.score_or_zero.
  destruct (PrimFloat.is_nan score) eqn:E; cbn [orb]; [reflexivity|].
  destruct (PrimFloat.is_zero score); [reflexivity|exact E].
Qed.

Lemma sources_well_formed chunks : forall k,
  map Source.sourceNumber (imap (fun i => Server.source (k + i)) chunks)
  = seqZ (Z.of_nat k + 1) (Z.of_nat (length chunks))
  /\ Forall source_well_formed (imap (fun i => Server.source (k + i)) chunks).
Proof.
  induction chunks as [|chunk chunks IH]; intros k; [now split|].
  cbn [imap map length].
  rewrite Nat2Z.inj_succ, (seqZ_cons (Z.of_nat k + 1)) by lia.
  assert (Htail : imap ((fun i => Server.source (k + i)) ∘ S) chunks
                  = imap (fun i => Server.source (S k + i)) chunks).
  { apply imap_ext. intros i x _. unfold compose. f_equal. lia. }
  rewrite Htail. destruct (IH (S k)) as [IH1 IH2]. split.
  - rewrite IH1. f_equal.
    + unfold Server.source. cbn [Source.sourceNumber]. lia.
    + f_equal; lia.
  - constructor; [|exact IH2].
    unfold source_well_formed, Server.source.
    cbn [Source.text Source.similarity].
    split; [|apply score_or_zero_number].
    rewrite PageFacts.app_length_Z. unfold JsString.length.
    rewrite length_take. change (length (str "...")) with 3%nat. lia.
Qed.

End Collaborators.

End RouteFacts.

(** ** [/api/ask] with collections that may fail *)

Module AskRouteFacts.

(** [Server.ask] is the route on collections that cannot fail. *)
Lemma ask_of_database embedContent vectorSearch generateContent db req :
  Server.ask embedContent vectorSearch generateContent db req
  = AskRoute.ask
      (fun docId => Return (Server.findOne (Db.documents db) docId))
      embedContent
      (vectorSearch (Db.vectors db))
      (fun docId => Return (Fallback.find (Db.vectors db) docId))
      generateContent req.
Proof. reflexivity. Qed.

Section Collaborators.
Variable findOne : jsstring -> outcome (option DocumentRecord.t).
Variable embedContent : jsstring -> outcome vector.
Variable aggregate : vector -> Z -> Z -> jsstring -> outcome (list ScoredChunk.t).
Variable find : jsstring -> outcome (list VectorRecord.t).
Variable generateContent : jsstring -> outcome jsstring.

(** The retrieval makes the vector search, and the brute-force search
    exactly when the vector search throws. *)
Lemma retrieve_run docId questionEmbedding :
  AskRoute.retrieve aggregate find docId questionEmbedding
  = match aggregate questionEmbedding (Fallback.topK * 10) Fallback.topK docId with
    | Return chunks => IO (Return chunks) [VectorSearch docId]
    | Throw _ =>
        IO (AskRoute.fallback find docId questionEmbedding)
          [VectorSearch docId; FindVectors docId]
    end.
Proof.
  unfold AskRoute.retrieve, io_try, perform. cbn [result calls].
  destruct (aggregate _ _ _ _) as [chunks|m]; reflexivity.
Qed.

(** The route on a request with both fields, step by step: every failure
    of a collaborator ends it with the 500 answer, and the calls made are
    those up to the failure. *)
Lemma ask_run (docId question : jsstring) :
  docId <> [] -> question <> [] ->
  AskRoute.ask findOne embedContent aggregate find generateContent
    (Server.Request (Some docId) (Some question))
  = match findOne docId with
    | Throw message => IO (Return (failed_to_answer message)) [FindDocument docId]
    | Return None =>
        IO (Return (Response 404 (ErrorBody (str "Document not found"))))
          [FindDocument docId]
    | Return (Some _) =>
        match Embeddings.generateSingleEmbedding embedContent question with
        | Throw message =>
            IO (Return (failed_to_answer message))
              [FindDocument docId; EmbedContent question]
        | Return questionEmbedding =>
            let retrieval :=
              AskRoute.retrieve aggregate find docId questionEmbedding in
            match result retrieval with
            | Throw message =>
                IO (Return (failed_to_answer message))
                  (FindDocument docId :: EmbedContent question :: calls retrieval)
            | Return [] =>
                IO (Return (Response 200
                              (AnswerBody Server.no_relevant_information question
                                 docId [] None)))
                  (FindDocument docId :: EmbedContent question :: calls retrieval)
            | Return chunks =>
                let prompt := prompt_for chunks question in
                IO (Return
                      match generateContent prompt with
                      | Throw message => failed_to_answer message
                      | Return answer =>
                          Response 200
                            (AnswerBody answer question docId
                               (imap Server.source chunks)
                               (Some {| Details.model := str "gemini-3-pro-preview";
                                        Details.promptLength :=
                                          JsString.length prompt;
                                        Details.chunksUsed :=
                                          Z.of_nat (length chunks);
                                        Details.version := str "6.0 - Optimized" |}))
                      end)
                  (FindDocument docId :: EmbedContent question
                   :: calls retrieval ++ [GenerateContent prompt])
            end
        end
    end.
Proof.
  intros Hd Hq. unfold AskRoute.ask. cbn [Server.docId Server.question].
  change (default [] (Some docId)) with docId.
  change (default [] (Some question)) with question.
  assert (Hm : (Server.missing (Some docId) || Server.missing (Some question))%bool
               = false).
  { destruct docId, question; cbn; congruence. }
  rewrite Hm.
  destruct (findOne docId) as [[document|]|m] eqn:Edoc.
  3:{ reflexivity. }
  2:{ rewrite AskFacts.bind_perform_return. reflexivity. }
  rewrite AskFacts.bind_perform_return. cbv beta iota.
  destruct (Embeddings.generateSingleEmbedding embedContent question)
    as [questionEmbedding|m] eqn:Eemb.
  2:{ reflexivity. }
  rewrite AskFacts.bind_perform_return. cbv beta zeta.
  destruct (result (AskRoute.retrieve aggregate find docId questionEmbedding))
    as [chunks|m] eqn:Eret.
  2:{ rewrite (RouteFacts.bind_throw _ _ _ Eret).
      cbn [result calls io_try mret io_ret app]. now rewrite app_nil_r. }
  rewrite (AskFacts.bind_return _ _ _ Eret).
  destruct chunks as [|chunk chunks].
  { cbn [length Nat.eqb result calls mret io_ret app io_try].
    now rewrite app_nil_r. }
  cbn [length Nat.eqb]. unfold prompt_for.
  destruct (generateContent _) as [answer|m] eqn:Egen.
  - reflexivity.
  - cbn [result calls mret io_ret app io_try perform mbind io_bind].
    now rewrite app_nil_r.
Qed.

End Collaborators.

End AskRouteFacts.

(** X17: [/api/ask] always answers, whatever its collaborators do, the
    two collections included, and makes its calls in one order. A request
    without [docId] or [question] is answered 400 and no call is made.
    When [findOne] fails the answer is the 500 of the route, and when it
    finds no document the answer is 404, after the lookup alone in both
    cases. Otherwise the answer is 200 or a 500 whose error is ["Failed to
    answer: "] and the message of the failure, and the calls are the
    lookup and the embedding of the question, then the vector search, the
    brute-force search and the chat model, each at most once and none
    after one that was not made. *)
Theorem ask_answers_in_order
    (findOne : jsstring -> outcome (option DocumentRecord.t))
    (embedContent : jsstring -> outcome vector)
    (aggregate : vector -> Z -> Z -> jsstring -> outcome (list ScoredChunk.t))
    (find : jsstring -> outcome (list VectorRecord.t))
    (generateContent : jsstring -> outcome jsstring)
    (req : Server.request) :
  let run := AskRoute.ask findOne embedContent aggregate find generateContent req in
  let docId := default [] (Server.docId req) in
  let question := default [] (Server.question req) in
  exists response,
    result run = Return response
    /\ if (Server.missing (Server.docId req) || Server.missing (Server.question req))%bool
       then response = Response 400 (ErrorBody (str "Missing docId or question"))
            /\ calls run = []
       else match findOne docId with
            | Throw message =>
                response = failed_to_answer message
                /\ calls run = [FindDocument docId]
            | Return None =>
                response = Response 404 (ErrorBody (str "Document not found"))
                /\ calls run = [FindDocument docId]
            | Return (Some _) =>
                ask_calls docId question (calls run)
                /\ (status response = 200
                    \/ exists message, response = failed_to_answer message)
            end.
Proof.
  cbn zeta.
  destruct (Server.missing (Server.docId req) || Server.missing (Server.question req))%bool
    eqn:Hm.
  { unfold AskRoute.ask. rewrite Hm. eexists. split; [reflexivity|]. now split. }
  destruct req as [[docId|] [question|]];
    try (cbn in Hm; rewrite ?orb_true_r in Hm; discriminate Hm).
  assert (Hd : docId <> []) by (intros ->; discriminate Hm).
  assert (Hq : question <> [])
    by (intros ->; cbn in Hm; rewrite orb_true_r in Hm; discriminate Hm).
  cbn [Server.docId Server.question].
  change (default [] (Some docId)) with docId.
  change (default [] (Some question)) with question.
  rewrite (AskRouteFacts.ask_run findOne embedContent aggregate find
             generateContent docId question Hd Hq).
  destruct (findOne docId) as [[document|]|m].
  2, 3: eexists; split; [reflexivity|]; now split.
  destruct (Embeddings.generateSingleEmbedding embedContent question)
    as [questionEmbedding|m].
  2:{ eexists. split; [reflexivity|]. split; [|right; now exists m].
      exists [], []. split; [reflexivity|]. split; now left. }
  cbv zeta. rewrite AskRouteFacts.retrieve_run.
  assert (Hcalls : forall searches generation,
            (searches = [VectorSearch docId]
             \/ searches = [VectorSearch docId; FindVectors docId]) ->
            (generation = []
             \/ exists prompt, generation = [GenerateContent prompt]) ->
            ask_calls docId question
              (FindDocument docId :: EmbedContent question
               :: searches ++ generation)).
  { intros searches generation Hs Hg. exists searches, generation.
    split; [reflexivity|]. split; [tauto|].
    destruct Hg as [Hg|[prompt Hg]]; [now left|right].
    exists prompt. split; [|exact Hg]. destruct Hs as [->| ->]; discriminate. }
  destruct (aggregate _ _ _ _) as [found|failure]; cbn [result calls].
  - destruct found as [|chunk chunks].
    + eexists. split; [reflexivity|]. cbn [result calls status]. split; [|now left].
      rewrite <- (app_nil_r [VectorSearch docId]). apply Hcalls; now left.
    + eexists. split; [reflexivity|]. cbn [result calls status]. split.
      * apply Hcalls; [now left|right; now eexists].
      * destruct (generateContent _) as [answer|m]; [now left|right; now exists m].
  - destruct (AskRoute.fallback find docId questionEmbedding)
      as [[|chunk chunks]|m].
    + eexists. split; [reflexivity|]. cbn [result calls status]. split; [|now left].
      rewrite <- (app_nil_r [VectorSearch docId; FindVectors docId]).
      apply Hcalls; [now right|now left].
    + eexists. split; [reflexivity|]. cbn [result calls status]. split.
      * apply Hcalls; [now right|right; now eexists].
      * destruct (generateContent _) as [answer|m]; [now left|right; now exists m].
    + eexists. split; [reflexivity|]. cbn [result calls status].
      split; [|right; now exists m].
      rewrite <- (app_nil_r [VectorSearch docId; FindVectors docId]).
      apply Hcalls; [now right|now left].
Qed.

(** X18: the [sources] of an answer of [/api/ask] are numbered 1, 2, ...
    in order; each has a preview of at most 303 characters and a
    similarity that is a number, never [NaN]; and an answer comes with
    [details] exactly when it has a source, in which case [chunksUsed] is
    the number of sources. *)
Theorem ask_sources_well_formed
    (embedContent : jsstring -> outcome vector)
    (vectorSearch : list VectorRecord.t -> vector -> Z -> Z -> jsstring
                    -> outcome (list ScoredChunk.t))
    (generateContent : jsstring -> outcome jsstring)
    (db : Db.t) (req : Server.request) :
  match result (Server.ask embedContent vectorSearch generateContent db req) with
  | Return (Response _ (AnswerBody _ _ _ sources details)) =>
      map Source.sourceNumber sources = seqZ 1 (Z.of_nat (length sources))
      /\ Forall source_well_formed sources
      /\ match details with
         | Some d =>
             sources <> [] /\ Details.chunksUsed d = Z.of_nat (length sources)
         | None => sources = []
         end
  | _ => True
  end.
Proof.
  destruct (Server.missing (Server.docId req) || Server.missing (Server.question req))%bool
    eqn:Hm.
  { unfold Server.ask. rewrite Hm. exact I. }
  destruct req as [[docId|] [question|]];
    try (cbn in Hm; rewrite ?orb_true_r in Hm; discriminate Hm).
  assert (Hd : docId <> []) by (intros ->; discriminate Hm).
  assert (Hq : question <> [])
    by (intros ->; cbn in Hm; rewrite orb_true_r in Hm; discriminate Hm).
  destruct (Server.findOne (Db.documents db) docId) as [document|] eqn:Hdoc.
  2:{ unfold Server.ask. rewrite Hm. cbn [Server.docId Server.question].
      change (default [] (Some docId)) with docId.
      rewrite AskFacts.bind_perform_return. cbv beta. rewrite Hdoc. exact I. }
  pose proof (RouteFacts.ask_found embedContent vectorSearch generateContent db
                docId question document Hd Hq Hdoc) as Hcases.
  cbn zeta in Hcases.
  destruct Hcases as [(m & ->)|(questionEmbedding & [(m & ->)|[->|(chunks & prompt & Hne & _ & [(m & ->)|(answer & details & Hused & ->)])]])];
    cbn [result]; try exact I.
  - repeat split. constructor.
  - destruct (RouteFacts.sources_well_formed chunks 0) as [Hnums Hwf].
    rewrite length_imap. repeat split; try assumption.
    intros H. apply (f_equal length) in H. rewrite length_imap in H.
    destruct chunks; [contradiction|discriminate].
Qed.

(** ** The whole ingestion, the candidates of the brute-force search, and the prompt *)

Module PipelineFacts.

Lemma occurs_in_length p s :
  occurs_in p s -> JsString.length p <= JsString.length s.
Proof.
  intros (before & after & ->). rewrite !PageFacts.app_length_Z.
  unfold JsString.length. lia.
Qed.

Lemma pages_of_text_paragraphs text :
  Forall (fun pg => Forall (fun p => JsString.length p <= 2000)
                      (Chunker.paragraphs (Page.text pg)))
    (Upload.pages (Upload.pages_of_text text)).
Proof.
  destruct (ExtractFacts.pages_of_text_spec text) as (_ & _ & _ & Hpages & _).
  cbn zeta in Hpages. eapply Forall_impl; [exact Hpages|]. cbn beta.
  intros pg (_ & _ & _ & Hlen & _).
  eapply Forall_impl; [apply StringFacts.paragraphs_spec|]. cbn beta.
  intros p [Hocc _]. apply occurs_in_length in Hocc. lia.
Qed.

Lemma find_app_full vectorCollection extra docId :
  (50 <= length (Fallback.find vectorCollection docId))%nat ->
  Fallback.find (vectorCollection ++ extra) docId
  = Fallback.find vectorCollection docId.
Proof.
  unfold Fallback.find. rewrite List.filter_app, length_take. intros H.
  rewrite take_app_le by lia. reflexivity.
Qed.

Lemma occurs_in_join separator piece : forall pieces,
  In piece pieces -> occurs_in piece (Server.join separator pieces).
Proof.
  induction pieces as [|p pieces IH]; [contradiction|].
  intros [->|Hin]; cbn [Server.join]; destruct pieces as [|p' pieces'].
  - apply StringFacts.occurs_in_refl.
  - apply StringFacts.occurs_in_app_l, StringFacts.occurs_in_refl.
  - destruct Hin.
  - apply StringFacts.occurs_in_app_r, StringFacts.occurs_in_app_r, IH, Hin.
Qed.

Lemma occurs_in_trans p q s : occurs_in p q -> occurs_in q s -> occurs_in p s.
Proof.
  intros (a & b & ->) (c & d & ->). exists (c ++ a), (b ++ d).
  now rewrite <- !app_assoc.
Qed.

Lemma occurs_in_prompt_context context question :
  occurs_in context (Server.make_prompt context question).
Proof.
  unfold Server.make_prompt. do 4 apply StringFacts.occurs_in_app_r.
  apply StringFacts.occurs_in_app_l, StringFacts.occurs_in_refl.
Qed.

Lemma occurs_in_prompt_question context question :
  occurs_in question (Server.make_prompt context question).
Proof.
  unfold Server.make_prompt. do 8 apply StringFacts.occurs_in_app_r.
  apply StringFacts.occurs_in_app_l, StringFacts.occurs_in_refl.
Qed.

Lemma occurs_in_excerpt idx chunk :
  occurs_in (take 800 (ScoredChunk.text chunk)) (Server.excerpt idx chunk).
Proof.
  unfold Server.excerpt. cbv zeta. do 8 apply StringFacts.occurs_in_app_r.
  destruct (Z.ltb_spec 800 (JsString.length (ScoredChunk.text chunk))).
  - apply StringFacts.occurs_in_app_l, StringFacts.occurs_in_refl.
  - rewrite take_ge by (unfold JsString.length in *; lia).
    apply StringFacts.occurs_in_refl.
Qed.

End PipelineFacts.

(** X19: the chunks of an uploaded text are at most 2202 characters long:
    with the pages of [extractPagesFromPDF] and the default [chunkSize] of
    1000 and [overlap] of 200, every chunk has a [chunkLength] of at most
    2202 and a text no longer than its [chunkLength]. *)
Theorem uploaded_chunks_bounded text :
  Forall (fun c => JsString.length (Chunk.text c)
                   <= Metadata.chunkLength (Chunk.metadata c) <= 2202)
    (Chunker.splitIntoChunksWithMetadata Chunker.defaultChunkSize
       Chunker.defaultOverlap (Upload.pages (Upload.pages_of_text text))).
Proof.
  pose proof (SizeFacts.pages_bounded Chunker.defaultChunkSize
                Chunker.defaultOverlap 2000 ltac:(reflexivity) ltac:(lia)
                _ (PipelineFacts.pages_of_text_paragraphs text)) as Hbound.
  destruct (ChunkerFacts.split_emitted Chunker.defaultChunkSize
              Chunker.defaultOverlap (Upload.pages (Upload.pages_of_text text)))
    as [n Hn].
  pose proof (ChunkerFacts.emitted_Forall
                (fun c => JsString.length (Chunk.text c)
                          <= Metadata.chunkLength (Chunk.metadata c)) _ _
                (fun pageNumber st lastParagraph =>
                   ChunkerFacts.trim_length (Chunker.currentChunk st)) Hn)
    as Htrim.
  apply List.Forall_forall. intros c Hc.
  pose proof (proj1 (List.Forall_forall _ _) Hbound c Hc) as H1.
  pose proof (proj1 (List.Forall_forall _ _) Htrim c Hc) as H2.
  cbn beta in H1, H2. split; [exact H2|exact H1].
Qed.

(** X20: the brute-force search of [/api/ask] never looks beyond the first
    50 records of a document: once the collection holds 50 records of
    [docId], records that come after them, whatever their embeddings, do
    not change the result. *)
Theorem fallback_ignores_records_beyond_50 vectorCollection extra docId
    questionEmbedding :
  (50 <= length (Fallback.find vectorCollection docId))%nat ->
  Fallback.search (vectorCollection ++ extra) docId questionEmbedding
  = Fallback.search vectorCollection docId questionEmbedding.
Proof.
  intros H. unfold Fallback.search.
  now rewrite PipelineFacts.find_app_full.
Qed.

Lemma fallback_ignores_records_beyond_50_witness :
  Fallback.search (fifty_records ++ [match_record]) (str "d") [1; 0]%float
  = Fallback.search fifty_records (str "d") [1; 0]%float.
Proof.
  apply (fallback_ignores_records_beyond_50 fifty_records [match_record]
           (str "d") [1; 0]%float).
  vm_compute. lia.
Defined.

(** X21: every prompt [/api/ask] sends to the chat model holds the
    question of the request as it was asked and, for every chunk the
    retrieval returned, the first 800 characters of its text; and the route
    does send a prompt whenever the retrieval returns a chunk. *)
Theorem prompt_holds_question_and_excerpts
    (findOne : jsstring -> outcome (option DocumentRecord.t))
    (embedContent : jsstring -> outcome vector)
    (aggregate : vector -> Z -> Z -> jsstring -> outcome (list ScoredChunk.t))
    (find : jsstring -> outcome (list VectorRecord.t))
    (generateContent : jsstring -> outcome jsstring)
    (req : Server.request) :
  Forall (fun c =>
            match c with
            | GenerateContent prompt =>
                exists docId question questionEmbedding chunks,
                  Server.docId req = Some docId
                  /\ Server.question req = Some question
                  /\ Embeddings.generateSingleEmbedding embedContent question
                     = Return questionEmbedding
                  /\ result (AskRoute.retrieve aggregate find docId questionEmbedding)
                     = Return chunks
                  /\ occurs_in question prompt
                  /\ Forall (fun chunk =>
                               occurs_in (take 800 (ScoredChunk.text chunk)) prompt)
                       chunks
            | _ => True
            end)
    (calls (AskRoute.ask findOne embedContent aggregate find generateContent req))
  /\ (forall (docId question : jsstring) document questionEmbedding chunk chunks,
         req = Server.Request (Some docId) (Some question) ->
         docId <> [] -> question <> [] ->
         findOne docId = Return (Some document) ->
         Embeddings.generateSingleEmbedding embedContent question
         = Return questionEmbedding ->
         result (AskRoute.retrieve aggregate find docId questionEmbedding)
         = Return (chunk :: chunks) ->
         exists prompt,
           In (GenerateContent prompt)
             (calls (AskRoute.ask findOne embedContent aggregate find
                       generateContent req))).
Proof.
  split.
  2:{ intros docId question document questionEmbedding chunk chunks
        -> Hd Hq Hdoc Hemb Hret.
      rewrite (AskRouteFacts.ask_run findOne embedContent aggregate find
                 generateContent docId question Hd Hq), Hdoc, Hemb.
      cbv zeta. rewrite Hret. cbn [calls]. eexists.
      right. right. apply in_or_app. right. left. reflexivity. }
  destruct (Server.missing (Server.docId req) || Server.missing (Server.question req))%bool
    eqn:Hm.
  { unfold AskRoute.ask. rewrite Hm. constructor. }
  destruct req as [[docId|] [question|]];
    try (cbn in Hm; rewrite ?orb_true_r in Hm; discriminate Hm).
  assert (Hd : docId <> []) by (intros ->; discriminate Hm).
  assert (Hq : question <> [])
    by (intros ->; cbn in Hm; rewrite orb_true_r in Hm; discriminate Hm).
  rewrite (AskRouteFacts.ask_run findOne embedContent aggregate find
             generateContent docId question Hd Hq).
  destruct (findOne docId) as [[document|]|m];
    [|repeat constructor..].
  destruct (Embeddings.generateSingleEmbedding embedContent question)
    as [questionEmbedding|m] eqn:Eemb; [|repeat constructor].
  cbv zeta.
  assert (Hsearch : Forall (fun c => match c with
                                     | GenerateContent _ => False
                                     | _ => True
                                     end)
                      (calls (AskRoute.retrieve aggregate find docId questionEmbedding))).
  { rewrite AskRouteFacts.retrieve_run.
    destruct (aggregate _ _ _ _); repeat constructor. }
  assert (Hcalls : Forall (fun c =>
            match c with
            | GenerateContent prompt =>
                exists docId0 question0 questionEmbedding0 chunks,
                  Some docId = Some docId0
                  /\ Some question = Some question0
                  /\ Embeddings.generateSingleEmbedding embedContent question0
                     = Return questionEmbedding0
                  /\ result (AskRoute.retrieve aggregate find docId0 questionEmbedding0)
                     = Return chunks
                  /\ occurs_in question0 prompt
                  /\ Forall (fun chunk =>
                               occurs_in (take 800 (ScoredChunk.text chunk)) prompt)
                       chunks
            | _ => True
            end)
            (calls (AskRoute.retrieve aggregate find docId questionEmbedding))).
  { eapply Forall_impl; [exact Hsearch|]. intros [] H; try exact I. destruct H. }
  destruct (result (AskRoute.retrieve aggregate find docId questionEmbedding))
    as [[|chunk chunks]|m] eqn:Eret; cbn [calls Server.docId Server.question].
  1, 3: constructor; [exact I|]; constructor; [exact I|exact Hcalls].
  constructor; [exact I|]. constructor; [exact I|].
  apply Forall_app. split; [exact Hcalls|]. constructor; [|constructor].
  exists docId, question, questionEmbedding, (chunk :: chunks).
  repeat split; try assumption.
  - apply PipelineFacts.occurs_in_prompt_question.
  - apply List.Forall_forall. intros c Hin.
    apply list_elem_of_In, list_elem_of_lookup in Hin as [i Hi].
    eapply PipelineFacts.occurs_in_trans;
      [apply (PipelineFacts.occurs_in_excerpt i c)|].
    eapply PipelineFacts.occurs_in_trans;
      [|apply PipelineFacts.occurs_in_prompt_context].
    apply PipelineFacts.occurs_in_join. apply list_elem_of_In.
    apply elem_of_lookup_imap. now exists i, c.
Qed.

(** X21 on collections that hold the document [d] and one chunk of it. *)
Lemma prompt_holds_question_and_excerpts_witness :
  exists prompt,
    In (GenerateContent prompt)
      (calls (AskRoute.ask findOne_d embed_constant aggregate_one find_nothing
                chat_constant (Server.Request (Some (str "d")) (Some (str "q"))))).
Proof.
  eapply (proj2 (prompt_holds_question_and_excerpts findOne_d embed_constant
                   aggregate_one find_nothing chat_constant
                   (Server.Request (Some (str "d")) (Some (str "q")))));
    try reflexivity; discriminate.
Defined.
